(** * Weight of finite automata: a shallow embedding of
    [wofa/WeightFiniteAutomata.py] and the properties of its weight engine.

    Python floats are idealised as exact rationals ([Qc], canonical fractions
    with Leibniz equality), Python integers are [Z], states are natural
    numbers (they index rows and columns of the numpy arrays), sets are
    [gset], dictionaries are [gmap].  Exceptions are values of [exn]. *)

From Stdlib Require Import ZArith QArith Qcanon Qround Lia Floats.
From stdpp Require Import gmap strings list fin_maps numbers.

Local Open Scope Qc_scope.

(** ** Python values: exceptions and fallible results *)

Inductive exn : Type :=
| ZeroDivisionError
| LinAlgError
| TypeError
| ValueError
| IndexError
| KeyError
| RecursionError
| OverflowError.

Inductive result (A : Type) : Type :=
| Ok (a : A)
| Raise (e : exn).
Arguments Ok {A} a.
Arguments Raise {A} e.

Global Instance exn_eq_dec : EqDecision exn.
Proof. solve_decision. Defined.

Global Instance result_eq_dec {A} `{EqDecision A} : EqDecision (result A).
Proof. solve_decision. Defined.

Global Instance result_ret : MRet result := λ A a, Ok a.
Global Instance result_bind : MBind result := λ A B f r,
  match r with
  | Ok a => f a
  | Raise e => Raise e
  end.

(** [[f(x) for x in l]] where [f] may raise: the first exception wins. *)
Fixpoint map_result {A B} (f : A → result B) (l : list A) : result (list B) :=
  match l with
  | [] => Ok []
  | x :: l' => y ← f x; ys ← map_result f l'; Ok (y :: ys)
  end.

(** A left-to-right loop updating an accumulator, each round may raise. *)
Fixpoint fold_result {A B} (f : A → B → result A) (acc : A) (l : list B) : result A :=
  match l with
  | [] => Ok acc
  | x :: l' => acc' ← f acc x; fold_result f acc' l'
  end.

(** ** Python arithmetic *)

(** [a / b]: true division, raising on a zero divisor. *)
Definition py_div (a b : Qc) : result Qc :=
  if decide (b = 0) then Raise ZeroDivisionError else Ok (a / b).

(** [b ** e] for an integer exponent: a negative exponent yields the
    reciprocal and raises on base zero. *)
Definition py_pow (b : Qc) (e : Z) : result Qc :=
  if decide (0 ≤ e)%Z then Ok (b ^ Z.to_nat e)
  else if decide (b = 0) then Raise ZeroDivisionError
  else Ok (/ (b ^ Z.to_nat (- e))).

(** [round(x)]: nearest integer, ties to the even neighbour. *)
Definition py_round (x : Qc) : Z :=
  let f := Qfloor x in
  match Qccompare (x - Qc_of_Z f) (Q2Qc (1 # 2)) with
  | Lt => f
  | Gt => (f + 1)%Z
  | Eq => if Z.even f then f else (f + 1)%Z
  end.

(** [range(a, b)]. *)
Definition py_range (a b : Z) : list Z := seqZ a (b - a).

(** [min(s)] of a set of states; [ValueError] on the empty set. *)
Definition py_min (s : gset nat) : result nat :=
  match elements s with
  | [] => Raise ValueError
  | x :: l => Ok (foldr Nat.min x l)
  end.

(** [v[i]] on a one-dimensional array. *)
Definition getitem {A} (v : list A) (i : nat) : result A :=
  match v !! i with
  | Some x => Ok x
  | None => Raise IndexError
  end.

(** ** numpy arrays *)

Abbreviation ndarray := (list (list Qc)).

Definition vec_add (u v : list Qc) : list Qc := zip_with Qcplus u v.
Definition vec_scale (a : Qc) (v : list Qc) : list Qc := Qcmult a <$> v.

(** One row of a matrix product: the combination of the rows of [B] with
    the coefficients of [row]. *)
Fixpoint row_times (width : nat) (row : list Qc) (B : ndarray) : list Qc :=
  match row, B with
  | a :: row', b :: B' => vec_add (vec_scale a b) (row_times width row' B')
  | _, _ => replicate width 0
  end.

(** [np.matmul(A, B)] on square arrays of one dimension. *)
Definition matmul (A B : ndarray) : ndarray :=
  (λ row, row_times (length B) row B) <$> A.

(** [matrix[s][f]] on a value that may be [None]. *)
Definition getitem2 (matrix : option ndarray) (s f : nat) : result Qc :=
  match matrix with
  | None => Raise TypeError
  | Some m => row ← getitem m s; getitem row f
  end.

(** ** The automaton collaborator *)

(** The interface the weight engine consumes from [FiniteAutomata]. *)
Record FiniteAutomata : Type := {
  get_number_of_states : nat;
  get_all_successors_with_letter : nat → list (nat * string);
  get_initials : gset nat;
  get_finals : gset nat;
}.

(** [number_of_letters = defaultdict(int)] filled by
    [for (p, _) in successors: number_of_letters[p] += 1]. *)
Definition count_letters (successors : list (nat * string)) : gmap nat Z :=
  foldl (λ d ps, <[ps.1 := (default 0 (d !! ps.1) + 1)%Z]> d) ∅ successors.

(** Reading [number_of_letters[p]] from the defaultdict. *)
Definition letters_to (d : gmap nat Z) (p : nat) : Z := default 0%Z (d !! p).

(** ** The matrix cache *)

Record Matrix : Type := {
  fa : FiniteAutomata;
  dimension : nat;
  size_of_alphabet : Z;
  matrices : gmap Z ndarray;
}.

Definition set_matrices (self : Matrix) (m : gmap Z ndarray) : Matrix :=
  {| fa := fa self; dimension := dimension self;
     size_of_alphabet := size_of_alphabet self; matrices := m |}.

(** Observation log of a run: which word lengths [get_share] was asked for
    and which branch of [get_matrix] answered.  The code never reads it. *)
Inductive event : Type :=
| Asked (i : Z)
| Hit (i : Z)
| Extend (i : Z)
| Recurse (i : Z).

Global Instance event_eq_dec : EqDecision event.
Proof. solve_decision. Defined.

(** Computations on a [Matrix] object: the object and the log are threaded,
    and both survive an exception. *)
Definition state : Type := Matrix * list event.
Definition M (A : Type) : Type := state → result A * state.

Global Instance M_ret : MRet M := λ A a st, (Ok a, st).
Global Instance M_bind : MBind M := λ A B f c st,
  match c st with
  | (Ok a, st') => f a st'
  | (Raise e, st') => (Raise e, st')
  end.

Definition lift {A} (r : result A) : M A := λ st, (r, st).
Definition observe (e : event) : M unit := λ st, (Ok tt, (st.1, st.2 ++ [e])).
Definition get_self : M Matrix := λ st, (Ok st.1, st).
Definition put_matrices (m : gmap Z ndarray) : M unit :=
  λ st, (Ok tt, (set_matrices st.1 m, st.2)).

(** [for i in l: acc = body(i, acc)]. *)
Fixpoint for_each {A} (l : list Z) (body : Z → A → M A) (acc : A) : M A :=
  match l with
  | [] => mret acc
  | i :: l' => acc' ← body i acc; for_each l' body acc'
  end.

Section Engine.

(** [FiniteAutomata.get_alphabet()], shared by all automata. *)
Variable alphabet : gset string.

(** [np.linalg.solve]. *)
Variable linalg_solve : ndarray → list Qc → result (list Qc).

(** How many nested calls the interpreter still allows. *)
Variable recursion_limit : nat.

Definition len_alphabet : Z := Z.of_nat (size alphabet).

(** [Matrix.__initial_matrix]. *)
Definition __initial_matrix (fa : FiniteAutomata) (dimension : nat)
    (size_of_alphabet : Z) : result ndarray :=
  map_result (λ i,
    let number_of_letters := count_letters (get_all_successors_with_letter fa i) in
    map_result (λ j,
      py_div (Qc_of_Z (letters_to number_of_letters j)) (Qc_of_Z size_of_alphabet))
      (seq 0 dimension))
    (seq 0 dimension).

(** [Matrix.__init__]. *)
Definition Matrix_init (fa : FiniteAutomata) : result Matrix :=
  let dimension := get_number_of_states fa in
  let size_of_alphabet := len_alphabet in
  matrix ← __initial_matrix fa dimension size_of_alphabet;
  Ok {| fa := fa; dimension := dimension;
        size_of_alphabet := size_of_alphabet;
        matrices := {[ 1%Z := matrix ]} |}.

(** [Matrix.get_matrix].  The last branch calls itself and then falls off
    the end of the function, so it yields [None]. *)
Fixpoint get_matrix (depth : nat) (i : Z) : M (option ndarray) :=
  self ← get_self;
  match matrices self !! i with
  | Some m => _ ← observe (Hit i); mret (Some m)
  | None =>
    match matrices self !! (i - 1)%Z with
    | Some before =>
      _ ← observe (Extend i);
      first ← lift (match matrices self !! 1%Z with
                    | Some m => Ok m
                    | None => Raise KeyError
                    end);
      let new_matrix := matmul before first in
      _ ← put_matrices (<[i := new_matrix]> (matrices self));
      mret (Some new_matrix)
    | None =>
      _ ← observe (Recurse i);
      match depth with
      | O => lift (Raise RecursionError)
      | S depth' => _ ← get_matrix depth' (i - 1)%Z; mret None
      end
    end
  end.

(** [Matrix.get_share]. *)
Definition get_share (i : Z) : M Qc :=
  _ ← observe (Asked i);
  if decide (i < 1)%Z then mret 0
  else
    matrix ← get_matrix recursion_limit i;
    self ← get_self;
    lift (fold_result (λ share initial,
            fold_result (λ share final,
              x ← getitem2 matrix initial final; Ok (share + x))
              share (elements (get_finals (fa self))))
            0 (elements (get_initials (fa self)))).

(** [__explicit_solution]. *)
Definition __explicit_solution (dfa : FiniteAutomata) (lam : Qc) : result Qc :=
  w_one_trans ← py_div lam (Qc_of_Z len_alphabet);
  let n := get_number_of_states dfa in
  let ls := (λ q,
      let number_of_letters := count_letters (get_all_successors_with_letter dfa q) in
      (λ p, if decide (p = q)
            then Qc_of_Z (letters_to number_of_letters p) * w_one_trans - 1
            else Qc_of_Z (letters_to number_of_letters p) * w_one_trans)
        <$> seq 0 n) <$> seq 0 n in
  let sol_vec := (λ q, if decide (q ∈ get_finals dfa) then - (1 - lam) else 0)
                   <$> seq 0 n in
  res ← linalg_solve ls sol_vec;
  q0 ← py_min (get_initials dfa);
  getitem res q0.

(** The body of [__weight_with_matrix] after [matrix = Matrix(dfa)]. *)
Definition weight_with_matrix_body (dfa : FiniteAutomata) (eta : Z) (lam : Qc)
    (up_to : Z) : M Qc :=
  let k := Qc_of_Z len_alphabet in
  let w := 0 in
  let weight_ex_part := 0 in
  k_pow ← lift (py_pow k (eta + 1));
  max_words_in_c_p ← lift (py_div (1 - k_pow) (1 - k));
  lam_pow ← lift (py_pow lam (eta + 1));
  let sum_w_c_p := 1 - lam_pow in
  w_of_one_word_c_p ← lift (py_div sum_w_c_p max_words_in_c_p);
  let w := if decide (get_initials dfa ## get_finals dfa) then w
           else w + w_of_one_word_c_p in
  w ← for_each (py_range 1 (eta + 1)) (λ i w,
        share ← get_share i;
        k_i ← lift (py_pow k i);
        let words_of_length_i := py_round (share * k_i) in
        mret (w + w_of_one_word_c_p * Qc_of_Z words_of_length_i)) w;
  weight_ex_part ← for_each (py_range (eta + 1) up_to) (λ i weight_ex_part,
        share ← get_share i;
        lam_i ← lift (py_pow lam (i + 1));
        mret (weight_ex_part + share * lam_i)) weight_ex_part;
  ratio ← lift (py_div (1 - lam) lam);
  let weight_ex_part := weight_ex_part * ratio in
  mret (w + weight_ex_part).

(** [__weight_with_matrix], with the log of the run. *)
Definition weight_with_matrix_run (dfa : FiniteAutomata) (eta : Z) (lam : Qc)
    (up_to : Z) : result Qc * list event :=
  match Matrix_init dfa with
  | Raise e => (Raise e, [])
  | Ok matrix =>
    let r := weight_with_matrix_body dfa eta lam up_to (matrix, []) in
    (r.1, r.2.2)
  end.

Definition __weight_with_matrix (dfa : FiniteAutomata) (eta : Z) (lam : Qc)
    (up_to : Z) : result Qc :=
  (weight_with_matrix_run dfa eta lam up_to).1.

(** [weight]. *)
Definition weight (dfa : FiniteAutomata) (eta : Z) (lam : Qc) : result Qc :=
  w ← __explicit_solution dfa lam;
  a ← __weight_with_matrix dfa eta lam 0;
  let w := w + a in
  c ← __weight_with_matrix dfa 0 lam (eta + 1);
  let w := w - c in
  Ok w.

(** [weight_diff]; the two difference automata and their emptiness test
    come from the automaton collaborator. *)
Definition weight_diff (subsets_symmetric_difference :
      FiniteAutomata → FiniteAutomata → FiniteAutomata * FiniteAutomata)
    (is_empty : FiniteAutomata → bool)
    (fa_a fa_b : FiniteAutomata) (eta : Z) (lam : Qc) : result (Qc * Qc * Qc) :=
  let sym_diff := subsets_symmetric_difference fa_a fa_b in
  let weight_a_sub_b := 0 in
  let weight_b_sub_a := 0 in
  weight_a_sub_b ← (if is_empty sym_diff.1 then Ok weight_a_sub_b
                    else weight sym_diff.1 eta lam);
  weight_b_sub_a ← (if is_empty sym_diff.2 then Ok weight_b_sub_a
                    else weight sym_diff.2 eta lam);
  Ok (weight_a_sub_b, weight_b_sub_a, weight_a_sub_b + weight_b_sub_a).

End Engine.

(** ** A reference model of [np.linalg.solve]

    Gaussian elimination over exact rationals on the augmented rows
    [coefficients ++ [right-hand side]].  As numpy documents, the call raises
    [LinAlgError] when the coefficient array is singular or not square. *)

Definition row_sub (c : Qc) (r p : list Qc) : list Qc :=
  zip_with (λ x y, x - c * y) r p.

Definition dot (u v : list Qc) : Qc :=
  foldr Qcplus 0 (zip_with Qcmult u v).

(** The first row with a nonzero leading entry, and the other rows. *)
Fixpoint find_pivot (rows : ndarray) : option (list Qc * ndarray) :=
  match rows with
  | [] => None
  | r :: rows' =>
    match r with
    | [] => None
    | a :: _ =>
      if decide (a = 0)
      then '(p, rest) ← find_pivot rows'; Some (p, r :: rest)
      else Some (r, rows')
    end
  end.

Fixpoint eliminate (n : nat) (rows : ndarray) : option (list Qc) :=
  match n with
  | O => Some []
  | S n' =>
    '(p, rest) ← find_pivot rows;
    match p with
    | [] => None
    | a :: p' =>
      let p1 : list Qc := (λ x, x / a) <$> p' in
      let rest' : ndarray := (λ r, match r with
                         | [] => []
                         | c :: r' => row_sub c r' p1
                         end) <$> rest in
      xs ← eliminate n' rest';
      Some ((List.last p1 0 - dot (take n' p1) xs) :: xs)
    end
  end.

Definition np_linalg_solve (a : ndarray) (b : list Qc) : result (list Qc) :=
  let n := length a in
  if decide (n ≠ 0%nat ∧ length b = n ∧ Forall (λ r, length r = n) a)
  then match eliminate n (zip_with (λ r c, r ++ [c]) a b) with
       | Some x => Ok x
       | None => Raise LinAlgError
       end
  else Raise LinAlgError.

(** ** Sample automata *)

Definition ab : gset string := {[ "a"%string; "b"%string ]}.
Definition only_a : gset string := {[ "a"%string ]}.

(** One state, initial and final, with a loop for every letter of [sigma]:
    every word is accepted. *)
Definition accept_all (sigma : gset string) : FiniteAutomata :=
  {| get_number_of_states := 1;
     get_all_successors_with_letter := λ q,
       if decide (q = 0%nat) then (λ a, (0%nat, a)) <$> elements sigma else [];
     get_initials := {[ 0%nat ]};
     get_finals := {[ 0%nat ]} |}.

(** Two states over [{a, b}]: [a] stays, [b] switches; state 0 is initial,
    state 1 is final (words with an odd number of [b]). *)
Definition odd_b : FiniteAutomata :=
  {| get_number_of_states := 2;
     get_all_successors_with_letter := λ q,
       match q with
       | 0%nat => [(0%nat, "a"%string); (1%nat, "b"%string)]
       | 1%nat => [(1%nat, "a"%string); (0%nat, "b"%string)]
       | _ => []
       end;
     get_initials := {[ 0%nat ]};
     get_finals := {[ 1%nat ]} |}.

(** The same transitions with both states initial and both final. *)
Definition two_initials : FiniteAutomata :=
  {| get_number_of_states := 2;
     get_all_successors_with_letter := get_all_successors_with_letter odd_b;
     get_initials := {[ 0%nat; 1%nat ]};
     get_finals := {[ 0%nat; 1%nat ]} |}.

(** The transitions of [odd_b] with a final state that is no state of the
    automaton. *)
Definition stray_final : FiniteAutomata :=
  {| get_number_of_states := 2;
     get_all_successors_with_letter := get_all_successors_with_letter odd_b;
     get_initials := {[ 0%nat ]};
     get_finals := {[ 1%nat; 5%nat ]} |}.

(** Two states over [{a, b}], both final, every letter switches the state. *)
Definition flip_flop : FiniteAutomata :=
  {| get_number_of_states := 2;
     get_all_successors_with_letter := λ q,
       match q with
       | 0%nat => [(1%nat, "a"%string); (1%nat, "b"%string)]
       | 1%nat => [(0%nat, "a"%string); (0%nat, "b"%string)]
       | _ => []
       end;
     get_initials := {[ 0%nat ]};
     get_finals := {[ 0%nat; 1%nat ]} |}.

(** The automaton [odd_b] without an initial state. *)
Definition no_start : FiniteAutomata :=
  {| get_number_of_states := 2;
     get_all_successors_with_letter := get_all_successors_with_letter odd_b;
     get_initials := ∅;
     get_finals := {[ 1%nat ]} |}.

(** The automaton [odd_b] without a final state. *)
Definition no_accept : FiniteAutomata :=
  {| get_number_of_states := 2;
     get_all_successors_with_letter := get_all_successors_with_letter odd_b;
     get_initials := {[ 0%nat ]};
     get_finals := ∅ |}.

(** ** The quantities of the specification *)

(** TransitionCount(q, p): how many transitions lead from [q] to [p]. *)
Definition TransitionCount (dfa : FiniteAutomata) (q p : nat) : Z :=
  Z.of_nat (length (filter (λ ps, ps.1 = p) (get_all_successors_with_letter dfa q))).

(** The one-step matrix, M[q][p] = TransitionCount(q, p) / k. *)
Definition one_step (k : Z) (dfa : FiniteAutomata) : ndarray :=
  let n := get_number_of_states dfa in
  (λ q, (λ p, Qc_of_Z (TransitionCount dfa q p) / Qc_of_Z k) <$> seq 0 n) <$> seq 0 n.

Definition identity (n : nat) : ndarray :=
  (λ q, (λ p, if decide (p = q) then 1 else 0) <$> seq 0 n) <$> seq 0 n.

(** The i-th power of a matrix, built by multiplying with [m] on the right. *)
Fixpoint mat_power (m : ndarray) (i : nat) : ndarray :=
  match i with
  | O => identity (length m)
  | S j => match j with
           | O => m
           | S _ => matmul (mat_power m j) m
           end
  end.

Definition Qc_sum (l : list Qc) : Qc := foldr Qcplus 0 l.
Arguments Qc_sum : simpl never.

(** The entry [m[s][f]], read as 0 outside the array. *)
Definition entry (m : ndarray) (s f : nat) : Qc :=
  default 0 (row ← m !! s; row !! f).

(** The sum of the entries [m[s][f]] over initial [s] and final [f]. *)
Definition share_of (dfa : FiniteAutomata) (m : ndarray) : Qc :=
  Qc_sum ((λ s, Qc_sum ((λ f, entry m s f) <$> elements (get_finals dfa)))
            <$> elements (get_initials dfa)).

(** Share(i) for a word length [i >= 1]. *)
Definition Share (k : Z) (dfa : FiniteAutomata) (i : Z) : Qc :=
  share_of dfa (mat_power (one_step k dfa) (Z.to_nat i)).

(** The linear system of the exact solver: coefficient A[q][p] and
    right-hand side b[q]. *)
Definition system_A (k : Z) (dfa : FiniteAutomata) (lam : Qc) (q p : nat) : Qc :=
  if decide (p = q)
  then Qc_of_Z (TransitionCount dfa q p) * (lam / Qc_of_Z k) - 1
  else Qc_of_Z (TransitionCount dfa q p) * (lam / Qc_of_Z k).

Definition system_b (dfa : FiniteAutomata) (lam : Qc) (q : nat) : Qc :=
  if decide (q ∈ get_finals dfa) then - (1 - lam) else 0.

(** An n-by-n array. *)
Definition square (n : nat) (m : ndarray) : Prop :=
  length m = n ∧ Forall (λ row, length row = n) m.

(** The cache holds exactly the powers of [m] for the lengths 1..top. *)
Definition cache_upto (m : ndarray) (top : Z) (self : Matrix) : Prop :=
  ∀ i : Z, matrices self !! i =
           if decide (1 ≤ i ≤ top)%Z then Some (mat_power m (Z.to_nat i)) else None.

(** The weight of one word of the plateau, u = S / C with
    S = 1 - lam^(eta+1) and C = (1 - k^(eta+1)) / (1 - k). *)
Definition plateau_unit (k lam : Qc) (eta : Z) : Qc :=
  (1 - lam ^ Z.to_nat (eta + 1)) / ((1 - k ^ Z.to_nat (eta + 1)) / (1 - k)).

(** The plateau: [u] for the empty word when it is accepted, and
    [u * round(Share(i) * k^i)] for every length i = 1..eta. *)
Definition plateau_weight (k : Z) (dfa : FiniteAutomata) (eta : Z) (lam : Qc) : Qc :=
  let u := plateau_unit (Qc_of_Z k) lam eta in
  (if decide (get_initials dfa ## get_finals dfa) then 0 else u)
  + Qc_sum ((λ i, u * Qc_of_Z (py_round (Share k dfa i * Qc_of_Z k ^ Z.to_nat i)))
              <$> py_range 1 (eta + 1)).

(** The tail: the sum of [Share(i) * lam^(i+1)] for i = eta+1..up_to-1. *)
Definition tail_sum (k : Z) (dfa : FiniteAutomata) (eta : Z) (lam : Qc) (up_to : Z) : Qc :=
  Qc_sum ((λ i, Share k dfa i * lam ^ Z.to_nat (i + 1)) <$> py_range (eta + 1) up_to).

(** The log of asking a cache, filled for the lengths 1..top, for the
    lengths of [l] one after the other, where [l] ascends in steps of one
    from at most [top + 1]: a length below 1 is answered without the cache, a
    cached length is a hit, and the next missing length extends the cache. *)
Definition asked_log (top : Z) (l : list Z) : list event :=
  l ≫= λ i, if decide (i < 1)%Z then [Asked i]
            else [Asked i; if decide (i ≤ top)%Z then Hit i else Extend i].

(** The word lengths [__weight_with_matrix] passes to [get_share]. *)
Definition requested_lengths (eta up_to : Z) : list Z :=
  py_range 1 (eta + 1) ++ py_range (eta + 1) up_to.

Definition is_Recurse (e : event) : Prop :=
  match e with
  | Recurse _ => True
  | _ => False
  end.

(** A computable comparison of outcomes. *)
Definition same_outcome (r1 r2 : result Qc) : bool :=
  match r1, r2 with
  | Ok a, Ok b => Qeq_bool a b
  | Raise e1, Raise e2 => bool_decide (e1 = e2)
  | _, _ => false
  end.

(** A single state, initial and final, with one loop per letter. *)
Definition accepts_everything (alphabet : gset string) (dfa : FiniteAutomata) : Prop :=
  get_number_of_states dfa = 1%nat ∧
  get_initials dfa = {[ 0%nat ]} ∧
  get_finals dfa = {[ 0%nat ]} ∧
  get_all_successors_with_letter dfa 0 ≡ₚ (λ a, (0%nat, a)) <$> elements alphabet.

(** What the exact solver needs of [np.linalg.solve]: a regular 1-by-1
    system has the quotient as its solution. *)
Definition solves_1x1 (solve : ndarray → list Qc → result (list Qc)) : Prop :=
  ∀ a c : Qc, a ≠ 0 → solve [[a]] [c] = Ok [c / a].

(** Vectors and matrices of probabilities: non-negative entries, and rows
    of the given length that sum to at most 1. *)
Definition nonneg (v : list Qc) : Prop := Forall (λ x, 0 ≤ x) v.

Definition substochastic (n : nat) (m : ndarray) : Prop :=
  Forall (λ row, length row = n ∧ nonneg row ∧ Qc_sum row ≤ 1) m.

(** The object [Matrix(dfa)] right after construction, for a non-empty
    alphabet. *)
Definition fresh_matrix (alphabet : gset string) (dfa : FiniteAutomata) : Matrix :=
  {| fa := dfa; dimension := get_number_of_states dfa;
     size_of_alphabet := len_alphabet alphabet;
     matrices := {[ 1%Z := one_step (len_alphabet alphabet) dfa ]} |}.

(** [A @ x], and what it means for [x] to satisfy an augmented row
    [coefficients ++ [right-hand side]]. *)
Definition mat_vec (A : ndarray) (x : list Qc) : list Qc := (λ row, dot row x) <$> A.

Definition solved_by (x : list Qc) (row : list Qc) : Prop :=
  ∃ l z, row = l ++ [z] ∧ length l = length x ∧ dot l x = z.

(** ** Well-formed automata *)

Definition letters (dfa : FiniteAutomata) (q : nat) : list string :=
  snd <$> get_all_successors_with_letter dfa q.

(** At most one transition per state and letter, all letters in the alphabet. *)
Definition deterministic (alphabet : gset string) (dfa : FiniteAutomata) : Prop :=
  Forall (λ q, NoDup (letters dfa q) ∧ Forall (λ a, a ∈ alphabet) (letters dfa q))
         (seq 0 (get_number_of_states dfa)).

(** Every state has a transition for every letter. *)
Definition total (alphabet : gset string) (dfa : FiniteAutomata) : Prop :=
  Forall (λ q, Forall (λ a, a ∈ letters dfa q) (elements alphabet))
         (seq 0 (get_number_of_states dfa)).

(** Initial and final states are states of the automaton. *)
Definition states_in_range (dfa : FiniteAutomata) : Prop :=
  set_Forall (λ s, s < get_number_of_states dfa)%nat (get_initials dfa) ∧
  set_Forall (λ s, s < get_number_of_states dfa)%nat (get_finals dfa).

Global Instance deterministic_dec alphabet dfa : Decision (deterministic alphabet dfa).
Proof. unfold deterministic. apply _. Defined.
Global Instance total_dec alphabet dfa : Decision (total alphabet dfa).
Proof. unfold total. apply _. Defined.
Global Instance states_in_range_dec dfa : Decision (states_in_range dfa).
Proof. unfold states_in_range. apply _. Defined.

(** ** Sweeps over the parameters *)

(** [weight_values]: the result rows [i_res] and the result [res] are lists
    grown by [append]; the first exception ends the sweep. *)
Definition weight_values (alphabet : gset string)
    (solve : ndarray → list Qc → result (list Qc)) (limit : nat)
    (dfa : FiniteAutomata) (etas : list Z) (lams : list Qc) : result ndarray :=
  fold_result (λ res lam,
      i_res ← fold_result (λ i_res eta,
                 w ← weight alphabet solve limit dfa eta lam;
                 Ok (i_res ++ [w])) [] etas;
      Ok (res ++ [i_res])) [] lams.

(** [__weight_sym_values]: three results grown in step from the triples
    [weight_diff] returns. *)
Definition __weight_sym_values (alphabet : gset string)
    (solve : ndarray → list Qc → result (list Qc)) (limit : nat)
    (subsets_symmetric_difference :
       FiniteAutomata → FiniteAutomata → FiniteAutomata * FiniteAutomata)
    (is_empty : FiniteAutomata → bool)
    (fa_a fa_b : FiniteAutomata) (etas : list Z) (lams : list Qc)
    : result (ndarray * ndarray * ndarray) :=
  fold_result (λ res lam,
      i_res ← fold_result (λ i_res eta,
                 w ← weight_diff alphabet solve limit subsets_symmetric_difference
                       is_empty fa_a fa_b eta lam;
                 Ok (i_res.1.1 ++ [w.1.1], i_res.1.2 ++ [w.1.2], i_res.2 ++ [w.2]))
               ([], [], []) etas;
      Ok (res.1.1 ++ [i_res.1.1], res.1.2 ++ [i_res.1.2], res.2 ++ [i_res.2]))
    ([], [], []) lams.

(** The three arrays of first, second and third components of a table of
    triples. *)
Definition table_columns (table : list (list (Qc * Qc * Qc)))
    : ndarray * ndarray * ndarray :=
  ((λ row : list (Qc * Qc * Qc), (λ w, w.1.1) <$> row) <$> table,
   (λ row : list (Qc * Qc * Qc), (λ w, w.1.2) <$> row) <$> table,
   (λ row : list (Qc * Qc * Qc), (λ w, w.2) <$> row) <$> table).

(** Entrywise sum of two arrays of one shape. *)
Definition array_add (x y : ndarray) : ndarray := zip_with (zip_with Qcplus) x y.

(** An array with [rows] rows of [cols] entries. *)
Definition shape (rows cols : nat) (x : ndarray) : Prop :=
  length x = rows ∧ Forall (λ row, length row = cols) x.

(** ** Invariants of the cache *)

(** Every cached entry is the power of [m] for its key, keys start at 1,
    and the first power is present. *)
Definition cache_sound (m : ndarray) (self : Matrix) : Prop :=
  matrices self !! 1%Z = Some m ∧
  ∀ (j : Z) (mj : ndarray),
    matrices self !! j = Some mj → (1 ≤ j)%Z ∧ mj = mat_power m (Z.to_nat j).

(** Every row has [n] entries that add up to one. *)
Definition stochastic (n : nat) (m : ndarray) : Prop :=
  Forall (λ row, length row = n ∧ Qc_sum row = 1) m.

(** Every state is final. *)
Definition all_final (dfa : FiniteAutomata) : Prop :=
  get_finals dfa = list_to_set (seq 0 (get_number_of_states dfa)).

Global Instance all_final_dec dfa : Decision (all_final dfa).
Proof. unfold all_final. apply _. Defined.

(** All transitions lead to states of the automaton. *)
Definition targets_in_range (dfa : FiniteAutomata) : Prop :=
  Forall (λ q, Forall (λ ps : nat * string, ps.1 < get_number_of_states dfa)%nat
                 (get_all_successors_with_letter dfa q))
         (seq 0 (get_number_of_states dfa)).

Global Instance targets_in_range_dec dfa : Decision (targets_in_range dfa).
Proof. unfold targets_in_range. apply _. Defined.

(** * Properties *)

(** Settle a decidable statement about concrete data by evaluation. *)
Ltac decide_by_compute :=
  match goal with
  | |- ?P => apply (bool_decide_unpack P); vm_compute; exact I
  end.

(** ** Results and the state monad *)

Lemma map_result_ok {A B} (f : A → result B) (g : A → B) (l : list A) :
  (∀ x, x ∈ l → f x = Ok (g x)) → map_result f l = Ok (g <$> l).
Proof.
  induction l as [|x l IH]; intros Hf; simpl; [done|].
  rewrite Hf by left. simpl.
  rewrite IH; [done|]. intros y Hy. apply Hf. by right.
Qed.

Lemma Qc_of_Z_eq_0 (z : Z) : Qc_of_Z z = 0 ↔ z = 0%Z.
Proof. rewrite <- Z2Qc_inj_0. apply Z2Qc_inj_iff. Qed.

Lemma py_div_ok (a b : Qc) : b ≠ 0 → py_div a b = Ok (a / b).
Proof. intros Hb. unfold py_div. by destruct (decide (b = 0)). Qed.

Lemma py_div_zero (a : Qc) : py_div a 0 = Raise ZeroDivisionError.
Proof. unfold py_div. by destruct (decide (0 = 0)). Qed.

Lemma py_pow_nonneg (b : Qc) (e : Z) : (0 ≤ e)%Z → py_pow b e = Ok (b ^ Z.to_nat e).
Proof. intros He. unfold py_pow. by destruct (decide (0 ≤ e)%Z). Qed.

(** ** The transition counter *)

Lemma letters_to_insert (d : gmap nat Z) (q p : nat) (v : Z) :
  letters_to (<[q := v]> d) p = if decide (q = p) then v else letters_to d p.
Proof.
  unfold letters_to. destruct (decide (q = p)) as [->|Hne].
  - by rewrite lookup_insert_eq.
  - by rewrite lookup_insert_ne.
Qed.

Lemma count_letters_from (l : list (nat * string)) (d : gmap nat Z) (p : nat) :
  letters_to
    (foldl (λ d ps, <[ps.1 := (default 0 (d !! ps.1) + 1)%Z]> d) d l) p
  = (letters_to d p + Z.of_nat (length (filter (λ ps, ps.1 = p) l)))%Z.
Proof.
  revert d. induction l as [|[q a] l IH]; intros d; simpl.
  - lia.
  - rewrite IH, letters_to_insert. rewrite filter_cons. simpl.
    destruct (decide (q = p)) as [->|Hne]; simpl.
    + unfold letters_to. lia.
    + lia.
Qed.

(** The dictionary filled by the counting loop holds TransitionCount. *)
Lemma count_letters_spec (dfa : FiniteAutomata) (q p : nat) :
  letters_to (count_letters (get_all_successors_with_letter dfa q)) p
  = TransitionCount dfa q p.
Proof.
  unfold count_letters, TransitionCount. rewrite count_letters_from.
  unfold letters_to. rewrite lookup_empty. simpl. lia.
Qed.

Lemma initial_matrix_spec (dfa : FiniteAutomata) (k : Z) :
  k ≠ 0%Z →
  __initial_matrix dfa (get_number_of_states dfa) k = Ok (one_step k dfa).
Proof.
  intros Hk. unfold __initial_matrix, one_step.
  apply map_result_ok. intros q _.
  apply map_result_ok. intros p _.
  rewrite count_letters_spec. apply py_div_ok.
  by rewrite Qc_of_Z_eq_0.
Qed.

(** ** The exact solver *)

Lemma foldr_min_spec (x : nat) (l : list nat) :
  foldr Nat.min x l ∈ x :: l ∧ ∀ y, y ∈ x :: l → (foldr Nat.min x l ≤ y)%nat.
Proof.
  induction l as [|z l [IHin IHle]]; simpl.
  - split; [left|]. intros y Hy. apply list_elem_of_singleton in Hy. lia.
  - split.
    + destruct (Nat.min_spec z (foldr Nat.min x l)) as [[_ ->]|[_ ->]].
      * right. left.
      * apply elem_of_cons in IHin as [->|Hin]; [left|]. right. by right.
    + intros y Hy.
      assert (y = z ∨ y ∈ x :: l) as [->|Hy'].
      { rewrite !elem_of_cons in Hy. rewrite elem_of_cons. tauto. }
      * lia.
      * specialize (IHle y Hy'). lia.
Qed.

(** [min] returns the least element of a non-empty set. *)
Lemma py_min_spec (s : gset nat) (q0 : nat) :
  py_min s = Ok q0 ↔ q0 ∈ s ∧ ∀ x, x ∈ s → (q0 ≤ x)%nat.
Proof.
  unfold py_min.
  destruct (elements s) as [|x l] eqn:Hel.
  - apply elements_empty_inv in Hel. apply leibniz_equiv in Hel. subst s.
    split; [done|]. intros [Hin _]. set_solver.
  - destruct (foldr_min_spec x l) as [Hin Hle].
    rewrite <- Hel in Hin, Hle.
    setoid_rewrite elem_of_elements in Hin.
    setoid_rewrite elem_of_elements in Hle.
    split.
    + intros [= <-]. auto.
    + intros [Hq Hmin]. f_equal.
      specialize (Hle q0 Hq). specialize (Hmin _ Hin). lia.
Qed.

Lemma py_min_empty : py_min ∅ = Raise ValueError.
Proof. unfold py_min. by rewrite elements_empty. Qed.

Lemma getitem_ok {A} (v : list A) (i : nat) (x : A) :
  getitem v i = Ok x ↔ v !! i = Some x.
Proof. unfold getitem. destruct (v !! i); naive_solver. Qed.

Lemma lookup_fmap_seq {A} (f : nat → A) (n i : nat) :
  (i < n)%nat → (f <$> seq 0 n) !! i = Some (f i).
Proof.
  intros Hi. rewrite list_lookup_fmap, lookup_seq_lt by done. done.
Qed.


(** ** Shapes of arrays *)

Lemma one_step_square (k : Z) (dfa : FiniteAutomata) :
  square (get_number_of_states dfa) (one_step k dfa).
Proof.
  unfold square, one_step. split.
  - by rewrite length_fmap, length_seq.
  - apply Forall_fmap, Forall_forall. intros q _. simpl.
    by rewrite length_fmap, length_seq.
Qed.

Lemma row_times_length (n : nat) (row : list Qc) (B : ndarray) :
  Forall (λ r, length r = n) B → length (row_times n row B) = n.
Proof.
  intros HB. revert row. induction HB as [|b B Hb HB IH]; intros [|a row]; simpl;
    try by rewrite length_replicate.
  unfold vec_add, vec_scale.
  rewrite length_zip_with, length_fmap, IH. lia.
Qed.

Lemma matmul_square (n : nat) (A B : ndarray) :
  square n A → square n B → square n (matmul A B).
Proof.
  intros [HA _] [HB HBr]. unfold matmul. split.
  - by rewrite length_fmap.
  - apply Forall_fmap, Forall_forall. intros row _. simpl.
    rewrite HB. by apply row_times_length.
Qed.

Lemma identity_square (n : nat) : square n (identity n).
Proof.
  unfold square, identity. split.
  - by rewrite length_fmap, length_seq.
  - apply Forall_fmap, Forall_forall. intros q _. simpl.
    by rewrite length_fmap, length_seq.
Qed.

Lemma mat_power_step (m : ndarray) (j : nat) :
  mat_power m (S (S j)) = matmul (mat_power m (S j)) m.
Proof. reflexivity. Qed.

Lemma mat_power_square (n : nat) (m : ndarray) (i : nat) :
  square n m → square n (mat_power m i).
Proof.
  intros Hm. destruct i as [|j].
  - simpl. destruct Hm as [<- _]. apply identity_square.
  - induction j as [|j IH]; [done|].
    rewrite mat_power_step. by apply matmul_square.
Qed.

(** ** The three branches of [get_matrix] *)

Lemma get_matrix_hit (depth : nat) (i : Z) (self : Matrix) (t : list event)
    (m : ndarray) :
  matrices self !! i = Some m →
  get_matrix depth i (self, t) = (Ok (Some m), (self, t ++ [Hit i])).
Proof.
  intros Hi. destruct depth; simpl;
    unfold mbind, M_bind, get_self; simpl; by rewrite Hi.
Qed.

Lemma get_matrix_extend (depth : nat) (i : Z) (self : Matrix) (t : list event)
    (before first : ndarray) :
  matrices self !! i = None →
  matrices self !! (i - 1)%Z = Some before →
  matrices self !! 1%Z = Some first →
  get_matrix depth i (self, t)
  = (Ok (Some (matmul before first)),
     (set_matrices self (<[i := matmul before first]> (matrices self)),
      t ++ [Extend i])).
Proof.
  intros Hi Hb Hf. destruct depth; simpl;
    unfold mbind, M_bind, get_self; simpl; by rewrite Hi, Hb, Hf.
Qed.

Lemma get_matrix_recurse (depth : nat) (i : Z) (self : Matrix) (t : list event) :
  matrices self !! i = None →
  matrices self !! (i - 1)%Z = None →
  get_matrix (S depth) i (self, t)
  = let r := get_matrix depth (i - 1) (self, t ++ [Recurse i]) in
    (match r.1 with Ok _ => Ok None | Raise e => Raise e end, r.2).
Proof.
  intros Hi Hb. simpl. unfold mbind, M_bind, get_self. simpl.
  rewrite Hi, Hb. simpl.
  destruct (get_matrix depth (i - 1) (self, t ++ [Recurse i])) as [[o|e] st]; done.
Qed.

Lemma get_matrix_overflow (i : Z) (self : Matrix) (t : list event) :
  matrices self !! i = None →
  matrices self !! (i - 1)%Z = None →
  get_matrix 0 i (self, t) = (Raise RecursionError, (self, t ++ [Recurse i])).
Proof.
  intros Hi Hb. simpl. unfold mbind, M_bind, get_self. simpl.
  by rewrite Hi, Hb.
Qed.

(** ** The cache after construction *)

Lemma Matrix_init_spec (alphabet : gset string) (dfa : FiniteAutomata) :
  size alphabet ≠ 0%nat →
  Matrix_init alphabet dfa
  = Ok {| fa := dfa; dimension := get_number_of_states dfa;
          size_of_alphabet := len_alphabet alphabet;
          matrices := {[ 1%Z := one_step (len_alphabet alphabet) dfa ]} |}.
Proof.
  intros Hk. unfold Matrix_init.
  rewrite initial_matrix_spec; [done|]. unfold len_alphabet. lia.
Qed.

Lemma cache_upto_fresh (self : Matrix) (m : ndarray) :
  matrices self = {[ 1%Z := m ]} → cache_upto m 1 self.
Proof.
  intros Hm i. rewrite Hm. destruct (decide (1 ≤ i ≤ 1)%Z) as [Hi|Hi].
  - replace i with 1%Z by lia. by rewrite lookup_singleton_eq.
  - rewrite lookup_singleton_ne; [done|lia].
Qed.

Lemma cache_upto_lookup (m : ndarray) (top i : Z) (self : Matrix) :
  cache_upto m top self → (1 ≤ i ≤ top)%Z →
  matrices self !! i = Some (mat_power m (Z.to_nat i)).
Proof. intros Hc Hi. rewrite (Hc i). by destruct (decide (1 ≤ i ≤ top)%Z). Qed.

Lemma cache_upto_above (m : ndarray) (top i : Z) (self : Matrix) :
  cache_upto m top self → (top < i)%Z → matrices self !! i = None.
Proof.
  intros Hc Hi. rewrite (Hc i). destruct (decide (1 ≤ i ≤ top)%Z); [lia|done].
Qed.

Lemma cache_upto_below (m : ndarray) (top i : Z) (self : Matrix) :
  cache_upto m top self → (i < 1)%Z → matrices self !! i = None.
Proof.
  intros Hc Hi. rewrite (Hc i). destruct (decide (1 ≤ i ≤ top)%Z); [lia|done].
Qed.

(** Appending the next power keeps the cache contiguous. *)
Lemma cache_upto_grow (m : ndarray) (top : Z) (self : Matrix) :
  (1 ≤ top)%Z → cache_upto m top self →
  cache_upto m (top + 1)
    (set_matrices self
       (<[(top + 1)%Z := matmul (mat_power m (Z.to_nat top)) m]> (matrices self))).
Proof.
  intros Htop Hc i. simpl.
  destruct (decide (i = top + 1)%Z) as [->|Hne].
  - rewrite lookup_insert_eq.
    destruct (decide (1 ≤ top + 1 ≤ top + 1)%Z); [|lia].
    replace (Z.to_nat (top + 1)) with (S (Z.to_nat top)) by lia.
    destruct (Z.to_nat top) as [|j] eqn:Hj; [lia|]. by rewrite mat_power_step.
  - rewrite lookup_insert_ne by done. rewrite (Hc i).
    destruct (decide (1 ≤ i ≤ top)%Z), (decide (1 ≤ i ≤ top + 1)%Z); done || lia.
Qed.

(** With the power for [i] or for [i - 1] in the cache, [get_matrix]
    returns the power for [i] and leaves the cache contiguous. *)
Lemma get_matrix_next (depth : nat) (m : ndarray) (top i : Z) (self : Matrix)
    (t : list event) :
  (1 ≤ top)%Z → cache_upto m top self → (1 ≤ i ≤ top + 1)%Z →
  ∃ self',
    get_matrix depth i (self, t)
    = (Ok (Some (mat_power m (Z.to_nat i))),
       (self', t ++ [if decide (i ≤ top)%Z then Hit i else Extend i])) ∧
    fa self' = fa self ∧
    cache_upto m (Z.max top i) self'.
Proof.
  intros Htop Hc Hi. destruct (decide (i ≤ top)%Z) as [Hle|Hgt].
  - exists self. split; [|split; [done|]].
    + apply get_matrix_hit. apply (cache_upto_lookup m top); [done|lia].
    + by replace (Z.max top i) with top by lia.
  - assert (i = top + 1)%Z as -> by lia.
    eexists. split; [|split].
    + erewrite get_matrix_extend.
      * replace (Z.to_nat (top + 1)) with (S (Z.to_nat top)) by lia.
        destruct (Z.to_nat top) as [|j] eqn:Hj; [lia|].
        rewrite mat_power_step. rewrite <- Hj. reflexivity.
      * apply (cache_upto_above m top); [done|lia].
      * replace (top + 1 - 1)%Z with top by lia.
        apply (cache_upto_lookup m top); [done|lia].
      * apply (cache_upto_lookup m top 1); [done|lia].
    + done.
    + replace (Z.max top (top + 1)) with (top + 1)%Z by lia.
      by apply cache_upto_grow.
Qed.

(** ** Asking a fresh cache for a far power *)

Lemma get_matrix_gap (m : ndarray) (self : Matrix) (n depth : nat)
    (t : list event) :
  cache_upto m 1 self → (n < depth)%nat →
  ∃ st', get_matrix depth (3 + Z.of_nat n) (self, t) = (Ok None, st') ∧
         cache_upto m 2 st'.1 ∧ fa st'.1 = fa self.
Proof.
  intros Hc. revert depth t. induction n as [|n IH]; intros depth t Hd.
  - destruct depth as [|depth]; [lia|]. change (3 + Z.of_nat 0)%Z with 3%Z.
    rewrite get_matrix_recurse.
    2, 3: apply (cache_upto_above m 1); [done|lia].
    change (3 - 1)%Z with 2%Z. cbv zeta.
    destruct (get_matrix_next depth m 1 2 self (t ++ [Recurse 3]))
      as (self' & Hrun & Hfa & Hc'); [lia|done|lia|].
    rewrite Hrun. simpl. eexists. split; [done|]. simpl. split; [|done].
    by replace (Z.max 1 2) with 2%Z in Hc' by lia.
  - destruct depth as [|depth]; [lia|].
    rewrite get_matrix_recurse.
    2, 3: apply (cache_upto_above m 1); [done|lia].
    replace (3 + Z.of_nat (S n) - 1)%Z with (3 + Z.of_nat n)%Z by lia.
    cbv zeta.
    destruct (IH depth (t ++ [Recurse (3 + Z.of_nat (S n))]))
      as (st' & Hrun & Hc' & Hfa); [lia|].
    rewrite Hrun. simpl. by exists st'.
Qed.

(** C2, on the code: a freshly built cache answers [get_matrix(i)] for
    every [i >= 3] within the recursion depth with [None], not with the
    i-th power; the nested call only adds the second power to the cache. *)
Theorem get_matrix_fresh_falls_through
    (alphabet : gset string) (dfa : FiniteAutomata) (self : Matrix)
    (i : Z) (depth : nat) :
  Matrix_init alphabet dfa = Ok self →
  size alphabet ≠ 0%nat →
  (3 ≤ i)%Z → (i - 3 < Z.of_nat depth)%Z →
  ∃ st', get_matrix depth i (self, []) = (Ok None, st') ∧
         cache_upto (one_step (len_alphabet alphabet) dfa) 2 st'.1.
Proof.
  intros Hinit Hk Hi Hd.
  rewrite Matrix_init_spec in Hinit by done. injection Hinit as <-.
  replace i with (3 + Z.of_nat (Z.to_nat (i - 3)))%Z by lia.
  edestruct (get_matrix_gap (one_step (len_alphabet alphabet) dfa))
    as (st' & Hrun & Hc & _); [|
      |exists st'; split; [exact Hrun|exact Hc]].
  - by apply cache_upto_fresh.
  - lia.
Qed.

(** On a fresh cache the first two powers are answered as documented. *)
Lemma get_matrix_fresh_first_two
    (alphabet : gset string) (dfa : FiniteAutomata) (self : Matrix)
    (i : Z) (depth : nat) :
  Matrix_init alphabet dfa = Ok self →
  size alphabet ≠ 0%nat →
  (1 ≤ i ≤ 2)%Z →
  (get_matrix depth i (self, [])).1
  = Ok (Some (mat_power (one_step (len_alphabet alphabet) dfa) (Z.to_nat i))).
Proof.
  intros Hinit Hk Hi.
  rewrite Matrix_init_spec in Hinit by done. injection Hinit as <-.
  destruct (get_matrix_next depth (one_step (len_alphabet alphabet) dfa) 1 i
              {| fa := dfa; dimension := get_number_of_states dfa;
                 size_of_alphabet := len_alphabet alphabet;
                 matrices := {[ 1%Z := one_step (len_alphabet alphabet) dfa ]} |} [])
    as (self' & Hrun & _); [lia| by apply cache_upto_fresh |lia|].
  by rewrite Hrun.
Qed.

(** ** Reading the share off a matrix *)

Lemma Qc_sum_cons (x : Qc) (l : list Qc) : Qc_sum (x :: l) = x + Qc_sum l.
Proof. reflexivity. Qed.

Lemma Qc_sum_app (l1 l2 : list Qc) : Qc_sum (l1 ++ l2) = Qc_sum l1 + Qc_sum l2.
Proof.
  induction l1 as [|x l1 IH]; simpl.
  - unfold Qc_sum at 2. simpl. by rewrite Qcplus_0_l.
  - rewrite !Qc_sum_cons, IH. ring.
Qed.

Lemma getitem2_entry (n : nat) (m : ndarray) (s f : nat) :
  square n m → (s < n)%nat → (f < n)%nat →
  getitem2 (Some m) s f = Ok (entry m s f).
Proof.
  intros [Hlen Hrows] Hs Hf. unfold getitem2, entry, getitem.
  destruct (lookup_lt_is_Some_2 m s) as [row Hrow]; [lia|].
  rewrite Hrow. simpl.
  assert (length row = n) as Hr.
  { eapply (Forall_lookup_1 _ _ _ _ Hrows Hrow). }
  destruct (lookup_lt_is_Some_2 row f) as [x Hx]; [lia|].
  by rewrite Hx.
Qed.

Lemma bind_Ok {A B} (f : A → result B) (a : A) : (Ok a ≫= f) = f a.
Proof. reflexivity. Qed.

Lemma fold_result_cons {A B} (f : A → B → result A) (acc : A) (x : B) (l : list B) :
  fold_result f acc (x :: l) = (f acc x ≫= λ acc', fold_result f acc' l).
Proof. reflexivity. Qed.

Lemma share_row_fold (n : nat) (m : ndarray) (s : nat) (fs : list nat) (acc : Qc) :
  square n m → (s < n)%nat → Forall (λ f, f < n)%nat fs →
  fold_result (λ share final, x ← getitem2 (Some m) s final; Ok (share + x)) acc fs
  = Ok (acc + Qc_sum (entry m s <$> fs)).
Proof.
  intros Hm Hs Hfs. revert acc. induction Hfs as [|f fs Hf Hfs IH]; intros acc.
  - simpl. f_equal. unfold Qc_sum. simpl. ring.
  - rewrite fold_result_cons. cbv beta.
    rewrite (getitem2_entry n), !bind_Ok by done. rewrite IH.
    f_equal. rewrite fmap_cons, Qc_sum_cons. ring.
Qed.

Lemma share_fold (n : nat) (m : ndarray) (ss fs : list nat) (acc : Qc) :
  square n m → Forall (λ s, s < n)%nat ss → Forall (λ f, f < n)%nat fs →
  fold_result (λ share initial,
     fold_result (λ share final, x ← getitem2 (Some m) initial final; Ok (share + x))
       share fs) acc ss
  = Ok (acc + Qc_sum ((λ s, Qc_sum (entry m s <$> fs)) <$> ss)).
Proof.
  intros Hm Hss Hfs. revert acc. induction Hss as [|s ss Hs Hss IH]; intros acc.
  - simpl. f_equal. unfold Qc_sum. simpl. ring.
  - rewrite fold_result_cons. cbv beta.
    rewrite (share_row_fold n), bind_Ok by done. rewrite IH.
    f_equal. rewrite fmap_cons, Qc_sum_cons. ring.
Qed.

Lemma states_in_range_lists (dfa : FiniteAutomata) :
  states_in_range dfa →
  Forall (λ s, s < get_number_of_states dfa)%nat (elements (get_initials dfa)) ∧
  Forall (λ s, s < get_number_of_states dfa)%nat (elements (get_finals dfa)).
Proof.
  intros [Hi Hf]. split; apply list.Forall_forall; intros x Hx;
    apply elem_of_elements in Hx; auto.
Qed.

(** ** [get_share] on a contiguous cache *)

Lemma get_share_below (limit : nat) (i : Z) (st : state) :
  (i < 1)%Z → get_share limit i st = (Ok 0, (st.1, st.2 ++ [Asked i])).
Proof.
  intros Hi. unfold get_share, mbind, M_bind, observe. simpl.
  by destruct (decide (i < 1)%Z).
Qed.

Lemma get_share_next (limit : nat) (m : ndarray) (top i : Z) (self : Matrix)
    (t : list event) :
  (1 ≤ top)%Z → cache_upto m top self → (1 ≤ i ≤ top + 1)%Z →
  square (get_number_of_states (fa self)) m → states_in_range (fa self) →
  ∃ self',
    get_share limit i (self, t)
    = (Ok (share_of (fa self) (mat_power m (Z.to_nat i))),
       (self', t ++ [Asked i; if decide (i ≤ top)%Z then Hit i else Extend i])) ∧
    fa self' = fa self ∧
    cache_upto m (Z.max top i) self'.
Proof.
  intros Htop Hc Hi Hsq Hrange.
  destruct (get_matrix_next limit m top i self (t ++ [Asked i]) Htop Hc Hi)
    as (self' & Hrun & Hfa & Hc').
  exists self'. split; [|done].
  unfold get_share, mbind, M_bind, observe. simpl.
  destruct (decide (i < 1)%Z); [lia|].
  rewrite Hrun. unfold get_self, lift. simpl. rewrite Hfa.
  destruct (states_in_range_lists _ Hrange) as [Hss Hfs].
  f_equal; [|by rewrite <- app_assoc].
  etrans; [apply (share_fold (get_number_of_states (fa self))); try done|].
  - by apply mat_power_square.
  - by rewrite Qcplus_0_l.
Qed.

(** ** Running loops over the cache *)

Lemma M_bind_run {A B} (c : M A) (f : A → M B) (st st' : state) (a : A) :
  c st = (Ok a, st') → (c ≫= f) st = f a st'.
Proof. intros Hc. unfold mbind, M_bind. by rewrite Hc. Qed.

Lemma M_bind_raise {A B} (c : M A) (f : A → M B) (st st' : state) (e : exn) :
  c st = (Raise e, st') → (c ≫= f) st = (Raise e, st').
Proof. intros Hc. unfold mbind, M_bind. by rewrite Hc. Qed.

Lemma seqZ_of_nat (a n : Z) : seqZ a n = seqZ a (Z.of_nat (Z.to_nat n)).
Proof. unfold seqZ. by rewrite Nat2Z.id. Qed.

Lemma seqZ_S (a : Z) (len : nat) :
  seqZ a (Z.of_nat (S len)) = a :: seqZ (a + 1) (Z.of_nat len).
Proof.
  rewrite seqZ_cons by lia. f_equal. f_equal; lia.
Qed.

(** A loop whose rounds read one share each and add a term to the
    accumulator, started on a contiguous cache at the next missing length
    or below. *)
Lemma for_each_shares (limit : nat) (m : ndarray)
    (body : Z → Qc → M Qc) (term : Z → Qc → Qc) (len : nat) :
  (∀ i w st v st', (1 ≤ i)%Z → get_share limit i st = (Ok v, st') →
                   body i w st = (Ok (w + term i v), st')) →
  ∀ (a top : Z) (self : Matrix) (t : list event) (w : Qc),
    (1 ≤ top)%Z → (1 ≤ a ≤ top + 1)%Z → cache_upto m top self →
    square (get_number_of_states (fa self)) m → states_in_range (fa self) →
    ∃ self' t',
      for_each (seqZ a (Z.of_nat len)) body w (self, t)
      = (Ok (w + Qc_sum ((λ i, term i (share_of (fa self) (mat_power m (Z.to_nat i))))
                           <$> seqZ a (Z.of_nat len))),
         (self', t')) ∧
      fa self' = fa self ∧
      cache_upto m (Z.max top (a + Z.of_nat len - 1)) self'.
Proof.
  intros Hbody. induction len as [|len IH]; intros a top self t w Htop Ha Hc Hsq Hrange.
  - exists self, t. simpl. split; [|split; [done|]].
    + unfold mret, M_ret. f_equal. f_equal. unfold Qc_sum. simpl. ring.
    + by replace (Z.max top (a + Z.of_nat 0 - 1)) with top by lia.
  - destruct (get_share_next limit m top a self t) as (self1 & Hrun & Hfa & Hc1);
      try done.
    rewrite seqZ_S. cbn [for_each].
    erewrite M_bind_run; [|by apply Hbody; [lia|exact Hrun]].
    destruct (IH (a + 1)%Z (Z.max top a) self1
                (t ++ [Asked a; if decide (a ≤ top)%Z then Hit a else Extend a])
                (w + term a (share_of (fa self) (mat_power m (Z.to_nat a)))))
      as (self2 & t2 & Hloop & Hfa2 & Hc2); [lia|lia|done|by rewrite Hfa|by rewrite Hfa|].
    exists self2, t2. split; [|split].
    + rewrite Hloop. f_equal. f_equal. rewrite fmap_cons, Qc_sum_cons, Hfa. ring.
    + congruence.
    + by replace (Z.max top (a + Z.of_nat (S len) - 1))
        with (Z.max (Z.max top a) (a + 1 + Z.of_nat len - 1)) by lia.
Qed.

(** ** The truncated-series estimator *)

Lemma Qc_of_Z_pow (z : Z) (n : nat) : Qc_of_Z z ^ n = Qc_of_Z (z ^ Z.of_nat n).
Proof.
  induction n as [|n IH].
  - change (Z.of_nat 0) with 0%Z. rewrite Z.pow_0_r, Z2Qc_inj_1. reflexivity.
  - rewrite Nat2Z.inj_succ, Z.pow_succ_r by lia.
    rewrite Z2Qc_inj_mul, <- IH. reflexivity.
Qed.

Lemma Qcdiv_nonzero (a b : Qc) : a ≠ 0 → b ≠ 0 → a / b ≠ 0.
Proof.
  intros Ha Hb Hab. unfold Qcdiv in Hab.
  apply Qcmult_integral in Hab as [?|Hinv]; [done|].
  apply (Q_apart_0_1). rewrite <- (Qcmult_inv_r b Hb), Hinv. ring.
Qed.

Lemma one_minus_k_nonzero (k : Z) : (2 ≤ k)%Z → 1 - Qc_of_Z k ≠ 0.
Proof.
  intros Hk. rewrite <- Z2Qc_inj_1, <- Z2Qc_inj_sub, Qc_of_Z_eq_0. lia.
Qed.

Lemma plateau_count_nonzero (k : Z) (n : nat) :
  (2 ≤ k)%Z → n ≠ 0%nat → (1 - Qc_of_Z k ^ n) / (1 - Qc_of_Z k) ≠ 0.
Proof.
  intros Hk Hn. apply Qcdiv_nonzero; [|by apply one_minus_k_nonzero].
  rewrite Qc_of_Z_pow, <- Z2Qc_inj_1, <- Z2Qc_inj_sub, Qc_of_Z_eq_0.
  assert (1 < k ^ Z.of_nat n)%Z; [|lia].
  apply Z.pow_gt_1; lia.
Qed.

Lemma M_bind_lift {A B} (a : A) (f : A → M B) (st : state) :
  (lift (Ok a) ≫= f) st = f a st.
Proof. reflexivity. Qed.

Lemma py_range_nil (a b : Z) : (b ≤ a)%Z → py_range a b = [].
Proof. intros Hab. unfold py_range, seqZ. by replace (Z.to_nat (b - a)) with 0%nat by lia. Qed.

(** The value computed by the body of [__weight_with_matrix] on a fresh
    cache, for a well-formed call. *)
Lemma weight_with_matrix_body_value (alphabet : gset string) (limit : nat)
    (dfa : FiniteAutomata) (eta : Z) (lam : Qc) (up_to : Z)
    (self : Matrix) (t : list event) :
  (2 ≤ size alphabet)%nat → (0 ≤ eta)%Z → states_in_range dfa →
  fa self = dfa → cache_upto (one_step (len_alphabet alphabet) dfa) 1 self →
  ∃ st',
    weight_with_matrix_body alphabet limit dfa eta lam up_to (self, t)
    = (ratio ← py_div (1 - lam) lam;
       Ok (plateau_weight (len_alphabet alphabet) dfa eta lam
           + tail_sum (len_alphabet alphabet) dfa eta lam up_to * ratio),
       st').
Proof.
  intros Hk Heta Hrange Hfa Hc.
  assert (Hkz : (2 ≤ len_alphabet alphabet)%Z) by (unfold len_alphabet; lia).
  assert (Hsq : square (get_number_of_states (fa self))
                  (one_step (len_alphabet alphabet) dfa)).
  { rewrite Hfa. apply one_step_square. }
  unfold weight_with_matrix_body, plateau_weight, tail_sum.
  set (kz := len_alphabet alphabet) in *. set (k := Qc_of_Z kz).
  rewrite (py_pow_nonneg k) by lia. rewrite M_bind_lift.
  rewrite (py_div_ok _ (1 - k)) by (by apply one_minus_k_nonzero). rewrite M_bind_lift.
  rewrite (py_pow_nonneg lam) by lia. rewrite M_bind_lift.
  rewrite (py_div_ok (1 - lam ^ _)) by (apply plateau_count_nonzero; lia).
  rewrite M_bind_lift.
  fold (plateau_unit k lam eta). set (u := plateau_unit k lam eta).
  set (w0 := if decide (get_initials dfa ## get_finals dfa) then 0 else 0 + u).
  unfold py_range. rewrite (seqZ_of_nat 1), (seqZ_of_nat (eta + 1)).
  match goal with
  | |- context [for_each (seqZ 1 _) ?body w0] =>
      destruct (for_each_shares limit (one_step kz dfa) body
                  (λ i v, u * Qc_of_Z (py_round (v * k ^ Z.to_nat i)))
                  (Z.to_nat (eta + 1 - 1))) with (a := 1%Z) (top := 1%Z)
                  (self := self) (t := t) (w := w0)
        as (self1 & t1 & Hloop1 & Hfa1 & Hc1); try done; try lia
  end.
  { intros i w st v st' Hi Hshare.
    erewrite M_bind_run by exact Hshare.
    rewrite py_pow_nonneg by lia. by rewrite M_bind_lift. }
  { by rewrite Hfa. }
  erewrite M_bind_run by exact Hloop1.
  match goal with
  | |- context [for_each (seqZ (eta + 1) _) ?body 0] =>
      destruct (for_each_shares limit (one_step kz dfa) body
                  (λ i v, v * lam ^ Z.to_nat (i + 1))
                  (Z.to_nat (up_to - (eta + 1)))) with (a := (eta + 1)%Z)
                  (top := Z.max 1 (1 + Z.of_nat (Z.to_nat (eta + 1 - 1)) - 1))
                  (self := self1) (t := t1) (w := 0)
        as (self2 & t2 & Hloop2 & Hfa2 & Hc2); try done; try lia
  end.
  { intros i w st v st' Hi Hshare.
    erewrite M_bind_run by exact Hshare.
    rewrite py_pow_nonneg by lia. by rewrite M_bind_lift. }
  { by rewrite Hfa1. }
  { by rewrite Hfa1, Hfa. }
  erewrite M_bind_run by exact Hloop2.
  eexists. destruct (py_div (1 - lam) lam) as [ratio|e]; [|reflexivity].
  rewrite M_bind_lift. unfold mret, M_ret. simpl. f_equal. f_equal.
  rewrite Hfa1, Hfa. unfold Share. fold kz. fold k. fold u.
  unfold w0. destruct (decide (get_initials dfa ## get_finals dfa)); ring.
Qed.

Lemma weight_with_matrix_outcome (alphabet : gset string) (limit : nat)
    (dfa : FiniteAutomata) (eta : Z) (lam : Qc) (up_to : Z) :
  (2 ≤ size alphabet)%nat → (0 ≤ eta)%Z → states_in_range dfa →
  __weight_with_matrix alphabet limit dfa eta lam up_to
  = (ratio ← py_div (1 - lam) lam;
     Ok (plateau_weight (len_alphabet alphabet) dfa eta lam
         + tail_sum (len_alphabet alphabet) dfa eta lam up_to * ratio)).
Proof.
  intros Hk Heta Hrange.
  unfold __weight_with_matrix, weight_with_matrix_run.
  rewrite Matrix_init_spec by lia.
  cbv beta iota zeta.
  set (self := {| fa := dfa; dimension := get_number_of_states dfa;
                  size_of_alphabet := len_alphabet alphabet;
                  matrices := {[ 1%Z := one_step (len_alphabet alphabet) dfa ]} |}).
  assert (Hc : cache_upto (one_step (len_alphabet alphabet) dfa) 1 self)
    by by apply cache_upto_fresh.
  destruct (weight_with_matrix_body_value alphabet limit dfa eta lam up_to
              self [] Hk Heta Hrange eq_refl Hc) as (st' & Hrun).
  by rewrite Hrun.
Qed.

Lemma weight_with_matrix_value (alphabet : gset string) (limit : nat)
    (dfa : FiniteAutomata) (eta : Z) (lam : Qc) (up_to : Z) :
  (2 ≤ size alphabet)%nat → (0 ≤ eta)%Z → lam ≠ 0 → states_in_range dfa →
  __weight_with_matrix alphabet limit dfa eta lam up_to
  = Ok (plateau_weight (len_alphabet alphabet) dfa eta lam
        + tail_sum (len_alphabet alphabet) dfa eta lam up_to * ((1 - lam) / lam)).
Proof.
  intros Hk Heta Hlam Hrange.
  rewrite weight_with_matrix_outcome by done.
  by rewrite py_div_ok.
Qed.

Lemma tail_sum_empty (k : Z) (dfa : FiniteAutomata) (eta : Z) (lam : Qc) (up_to : Z) :
  (up_to ≤ eta + 1)%Z → tail_sum k dfa eta lam up_to = 0.
Proof. intros Hup. unfold tail_sum. by rewrite py_range_nil. Qed.


(** ** The weight engine *)


(** ** The order in which the cache is asked *)

Lemma asked_log_app (top : Z) (l1 l2 : list Z) :
  asked_log top (l1 ++ l2) = asked_log top l1 ++ asked_log top l2.
Proof. unfold asked_log. apply bind_app. Qed.

Lemma asked_log_cons (top i : Z) (l : list Z) :
  asked_log top (i :: l) = asked_log top [i] ++ asked_log top l.
Proof. apply (asked_log_app top [i] l). Qed.

Lemma asked_log_above (top a : Z) (l : list Z) :
  Forall (λ i, a < i)%Z l → asked_log (Z.max top a) l = asked_log top l.
Proof.
  intros Hl. induction Hl as [|i l Hi Hl IH]; [done|].
  rewrite (asked_log_cons (Z.max top a)), (asked_log_cons top), IH. f_equal.
  unfold asked_log. simpl.
  destruct (decide (i < 1)%Z); [done|].
  destruct (decide (i ≤ Z.max top a)%Z), (decide (i ≤ top)%Z); done || lia.
Qed.

Lemma asked_log_no_Recurse (top : Z) (l : list Z) :
  Forall (λ e, ¬ is_Recurse e) (asked_log top l).
Proof.
  induction l as [|i l IH]; [constructor|].
  rewrite asked_log_cons. apply Forall_app. split; [|done].
  unfold asked_log. simpl.
  destruct (decide (i < 1)%Z), (decide (i ≤ top)%Z);
    repeat constructor; simpl; tauto.
Qed.

(** Whatever its outcome, [get_share] on a contiguous cache asked for a
    length up to the next missing one logs no recursion and leaves the
    cache contiguous. *)
Lemma get_share_log (limit : nat) (m : ndarray) (top i : Z) (self : Matrix)
    (t : list event) :
  (1 ≤ top)%Z → cache_upto m top self → (i ≤ top + 1)%Z →
  ∃ r self',
    get_share limit i (self, t) = (r, (self', t ++ asked_log top [i])) ∧
    fa self' = fa self ∧
    cache_upto m (Z.max top i) self'.
Proof.
  intros Htop Hc Hi. unfold asked_log. simpl. rewrite app_nil_r.
  destruct (decide (i < 1)%Z) as [Hlt|Hge].
  - exists (Ok 0), self. rewrite get_share_below by done. simpl.
    split; [done|]. split; [done|]. by replace (Z.max top i) with top by lia.
  - destruct (get_matrix_next limit m top i self (t ++ [Asked i]) Htop Hc)
      as (self' & Hrun & Hfa & Hc'); [lia|].
    unfold get_share, mbind, M_bind, observe. simpl.
    destruct (decide (i < 1)%Z); [lia|].
    rewrite Hrun. unfold get_self, lift. simpl.
    eexists _, self'. rewrite <- app_assoc. simpl. done.
Qed.

Lemma prefix_seqZ_above (a : Z) (len : Z) (l : list Z) :
  l `prefix_of` seqZ (a + 1) len → Forall (λ i, a < i)%Z l.
Proof.
  intros [l2 Hl].
  assert (Forall (λ i, a < i)%Z (seqZ (a + 1) len)) as Hall.
  { apply Forall_seqZ. intros. lia. }
  rewrite Hl in Hall. by apply Forall_app in Hall as [? _].
Qed.

(** A loop whose rounds call [get_share] once and then only compute: the
    lengths are asked in order, up to the round that raises. *)
Lemma for_each_log (limit : nat) (m : ndarray) (body : Z → Qc → M Qc) (len : nat) :
  (∀ i w st, ∃ g : Qc → result Qc,
      body i w st = match get_share limit i st with
                    | (Ok v, st') => (g v, st')
                    | (Raise e, st') => (Raise e, st')
                    end) →
  ∀ (a top : Z) (self : Matrix) (t : list event) (w : Qc),
    (1 ≤ top)%Z → (a ≤ top + 1)%Z → cache_upto m top self →
    ∃ r self' l',
      for_each (seqZ a (Z.of_nat len)) body w (self, t)
      = (r, (self', t ++ asked_log top l')) ∧
      l' `prefix_of` seqZ a (Z.of_nat len) ∧
      fa self' = fa self ∧
      (∀ v, r = Ok v →
            l' = seqZ a (Z.of_nat len) ∧
            cache_upto m (Z.max top (a + Z.of_nat len - 1)) self').
Proof.
  intros Hbody. induction len as [|len IH]; intros a top self t w Htop Ha Hc.
  - exists (Ok w), self, []. simpl. rewrite app_nil_r.
    split; [done|]. split; [done|]. split; [done|]. intros _ _. split; [done|].
    by replace (Z.max top (a + Z.of_nat 0 - 1)) with top by lia.
  - rewrite seqZ_S. cbn [for_each].
    destruct (Hbody a w (self, t)) as [g Hg].
    destruct (get_share_log limit m top a self t Htop Hc Ha)
      as (r1 & self1 & Hrun & Hfa1 & Hc1).
    rewrite Hrun in Hg.
    assert (Hstop : ∀ e, body a w (self, t) = (Raise e, (self1, t ++ asked_log top [a])) →
      ∃ r self' l',
        (body a w ≫= λ acc', for_each (seqZ (a + 1) (Z.of_nat len)) body acc') (self, t)
        = (r, (self', t ++ asked_log top l')) ∧
        l' `prefix_of` a :: seqZ (a + 1) (Z.of_nat len) ∧
        fa self' = fa self ∧
        (∀ v, r = Ok v →
              l' = a :: seqZ (a + 1) (Z.of_nat len) ∧
              cache_upto m (Z.max top (a + Z.of_nat (S len) - 1)) self')).
    { intros e He. exists (Raise e), self1, [a].
      erewrite M_bind_raise by exact He.
      split; [done|]. split; [|done].
      apply prefix_cons, prefix_nil. }
    destruct r1 as [v|e]; [|by apply (Hstop e)].
    destruct (g v) as [w'|e] eqn:Hgv; [|by apply (Hstop e)].
    destruct (IH (a + 1)%Z (Z.max top a) self1 (t ++ asked_log top [a]) w')
      as (r & self2 & l2 & Hloop & Hpre & Hfa2 & Hok); [lia|lia|done|].
    exists r, self2, (a :: l2).
    erewrite M_bind_run by exact Hg.
    rewrite Hloop, (asked_log_cons top a l2), <- app_assoc.
    rewrite (asked_log_above top a l2) by by eapply prefix_seqZ_above.
    split; [done|]. split; [by apply prefix_cons|]. split; [congruence|].
    intros v' Hv'. destruct (Hok v' Hv') as [-> Hc2]. split; [done|].
    by replace (Z.max top (a + Z.of_nat (S len) - 1))
      with (Z.max (Z.max top a) (a + 1 + Z.of_nat len - 1)) by lia.
Qed.

Lemma asked_log_max (top a : Z) (l : list Z) :
  Forall (λ i, a < i ∨ i ≤ top)%Z l → asked_log (Z.max top a) l = asked_log top l.
Proof.
  intros Hl. induction Hl as [|i l Hi Hl IH]; [done|].
  rewrite (asked_log_cons (Z.max top a)), (asked_log_cons top), IH. f_equal.
  unfold asked_log. simpl.
  destruct (decide (i < 1)%Z); [done|].
  destruct (decide (i ≤ Z.max top a)%Z), (decide (i ≤ top)%Z); done || lia.
Qed.

Lemma M_bind_lift_raise {A B} (e : exn) (f : A → M B) (st : state) :
  (lift (Raise e) ≫= f) st = (Raise e, st).
Proof. reflexivity. Qed.

Lemma share_round_shape {A} (limit : nat) (p : result A) (h : Qc → A → Qc)
    (i : Z) (st : state) :
  ∃ g : Qc → result Qc,
    (get_share limit i ≫= λ share, lift p ≫= λ x, mret (h share x)) st
    = match get_share limit i st with
      | (Ok v, st') => (g v, st')
      | (Raise e, st') => (Raise e, st')
      end.
Proof.
  exists (λ v, p ≫= λ x, Ok (h v x)).
  unfold mbind at 1, M_bind at 1.
  destruct (get_share limit i st) as [[v|e] st']; [|done].
  by destruct p.
Qed.

(** The log of a run of the estimator body on a fresh cache, whatever the
    arguments and the outcome. *)
Lemma weight_with_matrix_body_log (alphabet : gset string) (limit : nat)
    (dfa : FiniteAutomata) (eta : Z) (lam : Qc) (up_to : Z)
    (m : ndarray) (self : Matrix) :
  cache_upto m 1 self →
  ∃ r self' l',
    weight_with_matrix_body alphabet limit dfa eta lam up_to (self, [])
    = (r, (self', asked_log 1 l')) ∧
    l' `prefix_of` requested_lengths eta up_to ∧
    (∀ v, r = Ok v → l' = requested_lengths eta up_to).
Proof.
  intros Hc. unfold weight_with_matrix_body, requested_lengths.
  set (k := Qc_of_Z (len_alphabet alphabet)).
  assert (Hnil : ∀ e, ∃ (r : result Qc) self' l',
     (Raise e, (self, [])) = (r, (self', asked_log 1 l')) ∧
     l' `prefix_of` py_range 1 (eta + 1) ++ py_range (eta + 1) up_to ∧
     (∀ v, r = Ok v → l' = py_range 1 (eta + 1) ++ py_range (eta + 1) up_to)).
  { intros e. exists (Raise e), self, []. split; [done|]. split; [|done].
    apply prefix_nil. }
  destruct (py_pow k (eta + 1)) as [k_pow|e]; [|by apply Hnil].
  rewrite M_bind_lift.
  destruct (py_div (1 - k_pow) (1 - k)) as [max_words|e]; [|by apply Hnil].
  rewrite M_bind_lift.
  destruct (py_pow lam (eta + 1)) as [lam_pow|e]; [|by apply Hnil].
  rewrite M_bind_lift.
  destruct (py_div (1 - lam_pow) max_words) as [u|e]; [|by apply Hnil].
  rewrite M_bind_lift. clear Hnil.
  set (w0 := if decide (get_initials dfa ## get_finals dfa) then 0 else 0 + u).
  unfold py_range. rewrite (seqZ_of_nat 1), (seqZ_of_nat (eta + 1)).
  set (len1 := Z.to_nat (eta + 1 - 1)).
  set (len2 := Z.to_nat (up_to - (eta + 1))).
  match goal with
  | |- context [for_each (seqZ 1 _) ?body w0] =>
      destruct (for_each_log limit m body len1) with (a := 1%Z) (top := 1%Z)
        (self := self) (t := @nil event) (w := w0)
        as (r1 & self1 & l1 & Hloop1 & Hpre1 & Hfa1 & Hok1); [|lia|lia|done|]
  end.
  { intros i w st. apply share_round_shape. }
  simpl in Hloop1.
  destruct r1 as [w1|e].
  2:{ erewrite M_bind_raise by exact Hloop1.
      exists (Raise e), self1, l1. split; [done|]. split; [|done].
      by apply prefix_app_r. }
  destruct (Hok1 w1 eq_refl) as [-> Hc1].
  erewrite M_bind_run by exact Hloop1.
  match goal with
  | |- context [for_each (seqZ (eta + 1) _) ?body 0] =>
      destruct (for_each_log limit m body len2) with (a := (eta + 1)%Z)
        (top := Z.max 1 (1 + Z.of_nat len1 - 1)) (self := self1)
        (t := asked_log 1 (seqZ 1 (Z.of_nat len1))) (w := 0)
        as (r2 & self2 & l2 & Hloop2 & Hpre2 & Hfa2 & Hok2); [|lia|lia|done|]
  end.
  { intros i w st. apply share_round_shape. }
  rewrite (asked_log_max 1 (1 + Z.of_nat len1 - 1)) in Hloop2.
  2:{ destruct Hpre2 as [l3 Hl3].
      assert (Forall (λ i, 1 + Z.of_nat len1 - 1 < i ∨ i ≤ 1)%Z
                (seqZ (eta + 1) (Z.of_nat len2))) as Hall.
      { apply Forall_seqZ. intros. lia. }
      rewrite Hl3 in Hall. by apply Forall_app in Hall as [? _]. }
  rewrite <- asked_log_app in Hloop2.
  destruct r2 as [w2|e].
  2:{ erewrite M_bind_raise by exact Hloop2.
      exists (Raise e), self2, (seqZ 1 (Z.of_nat len1) ++ l2).
      split; [done|]. split; [|done]. by apply prefix_app. }
  destruct (Hok2 w2 eq_refl) as [-> Hc2].
  erewrite M_bind_run by exact Hloop2.
  destruct (py_div (1 - lam) lam) as [ratio|e].
  - rewrite M_bind_lift. eexists _, self2, _. split; [done|]. done.
  - rewrite M_bind_lift_raise. eexists _, self2, _. split; [done|]. done.
Qed.

Lemma requested_lengths_consecutive (eta up_to : Z) :
  requested_lengths eta up_to
  = seqZ (Z.min 1 (eta + 1)) (Z.max eta (up_to - 1) - Z.min 1 (eta + 1) + 1).
Proof.
  unfold requested_lengths, py_range.
  destruct (decide (0 ≤ eta)%Z) as [Heta|Heta].
  - replace (Z.min 1 (eta + 1)) with 1%Z by lia.
    destruct (decide (0 ≤ up_to - (eta + 1))%Z) as [Hup|Hup].
    + replace (seqZ (eta + 1)) with (seqZ (1 + (eta + 1 - 1))) by (f_equal; lia).
      rewrite <- (seqZ_app 1 (eta + 1 - 1) (up_to - (eta + 1))) by lia.
      f_equal. lia.
    + rewrite (seqZ_nil (eta + 1)) by lia. rewrite app_nil_r. f_equal. lia.
  - rewrite (seqZ_nil 1) by lia. simpl.
    replace (Z.min 1 (eta + 1)) with (eta + 1)%Z by lia.
    destruct (decide (0 ≤ up_to - (eta + 1))%Z) as [Hup|Hup].
    + f_equal. lia.
    + by rewrite !seqZ_nil by lia.
Qed.

(** C9: a run of [__weight_with_matrix] (so each of the two runs inside
    [weight]) asks [get_share] for consecutive ascending word lengths, from
    1 when [eta >= 0], on the cache that holds only the first power; length 1
    is a hit and every later length finds its predecessor cached and extends
    the cache, so the branch of [get_matrix] that falls through is never
    taken, whatever the arguments and the outcome of the run. *)
Theorem weight_with_matrix_never_recurses (alphabet : gset string) (limit : nat)
    (dfa : FiniteAutomata) (eta : Z) (lam : Qc) (up_to : Z) :
  ∃ asked : list Z,
    asked `prefix_of` requested_lengths eta up_to ∧
    requested_lengths eta up_to
    = seqZ (Z.min 1 (eta + 1)) (Z.max eta (up_to - 1) - Z.min 1 (eta + 1) + 1) ∧
    (weight_with_matrix_run alphabet limit dfa eta lam up_to).2 = asked_log 1 asked ∧
    (∀ v, __weight_with_matrix alphabet limit dfa eta lam up_to = Ok v →
          asked = requested_lengths eta up_to) ∧
    Forall (λ e, ¬ is_Recurse e)
           (weight_with_matrix_run alphabet limit dfa eta lam up_to).2.
Proof.
  unfold __weight_with_matrix, weight_with_matrix_run.
  destruct (Matrix_init alphabet dfa) as [self|e] eqn:Hinit.
  - assert (∃ m, cache_upto m 1 self) as [m Hc].
    { unfold Matrix_init in Hinit.
      destruct (__initial_matrix _ _ _) as [m|]; [|done].
      injection Hinit as <-. exists m. by apply cache_upto_fresh. }
    destruct (weight_with_matrix_body_log alphabet limit dfa eta lam up_to m self Hc)
      as (r & self' & l' & Hrun & Hpre & Hok).
    rewrite Hrun. simpl. exists l'.
    split; [done|]. split; [apply requested_lengths_consecutive|].
    split; [done|]. split; [done|]. apply asked_log_no_Recurse.
  - exists []. simpl.
    split; [apply prefix_nil|]. split; [apply requested_lengths_consecutive|].
    split; [done|]. split; [done|]. constructor.
Qed.

(** ** Arguments outside the documented ranges *)

Lemma py_pow_defined (b : Qc) (e : Z) : b ≠ 0 → ∃ v, py_pow b e = Ok v.
Proof.
  intros Hb. unfold py_pow.
  destruct (decide (0 ≤ e)%Z); [by eexists|].
  destruct (decide (b = 0)); [done|by eexists].
Qed.

Lemma py_pow_zero_negative (e : Z) : (e < 0)%Z → py_pow 0 e = Raise ZeroDivisionError.
Proof.
  intros He. unfold py_pow.
  destruct (decide (0 ≤ e)%Z); [lia|]. by destruct (decide (0 = 0)).
Qed.

Lemma Qc_of_Z_nonzero (k : Z) : (2 ≤ k)%Z → Qc_of_Z k ≠ 0.
Proof. intros Hk. rewrite Qc_of_Z_eq_0. lia. Qed.

Lemma Qcpower_nonzero (b : Qc) (n : nat) : b ≠ 0 → b ^ n ≠ 0.
Proof.
  intros Hb. induction n as [|n IH]; simpl.
  - apply Q_apart_0_1.
  - intros H. by apply Qcmult_integral in H as [?|?].
Qed.

Lemma Qcinv_eq_1 (x : Qc) : x ≠ 0 → / x = 1 → x = 1.
Proof.
  intros Hx Hinv. rewrite <- (Qcmult_inv_r x Hx), Hinv. ring.
Qed.

Lemma weight_with_matrix_unfold (alphabet : gset string) (limit : nat)
    (dfa : FiniteAutomata) (eta : Z) (lam : Qc) (up_to : Z) :
  size alphabet ≠ 0%nat →
  ∃ self,
    cache_upto (one_step (len_alphabet alphabet) dfa) 1 self ∧ fa self = dfa ∧
    __weight_with_matrix alphabet limit dfa eta lam up_to
    = (weight_with_matrix_body alphabet limit dfa eta lam up_to (self, [])).1.
Proof.
  intros Hk. unfold __weight_with_matrix, weight_with_matrix_run.
  rewrite Matrix_init_spec by done. eexists. split; [|split; [|reflexivity]].
  - by apply cache_upto_fresh.
  - reflexivity.
Qed.

(** Over a one-letter alphabet the count of plateau words divides by
    [1 - k = 0]. *)
Lemma weight_with_matrix_unary (alphabet : gset string) (limit : nat)
    (dfa : FiniteAutomata) (eta : Z) (lam : Qc) (up_to : Z) :
  size alphabet = 1%nat →
  __weight_with_matrix alphabet limit dfa eta lam up_to = Raise ZeroDivisionError.
Proof.
  intros Hk.
  destruct (weight_with_matrix_unfold alphabet limit dfa eta lam up_to)
    as (self & _ & _ & ->); [lia|].
  unfold weight_with_matrix_body, len_alphabet. rewrite Hk.
  change (Z.of_nat 1) with 1%Z. rewrite Z2Qc_inj_1.
  destruct (py_pow_defined 1 (eta + 1)) as [v ->]; [apply Q_apart_0_1|].
  rewrite M_bind_lift.
  replace (1 - 1) with 0 by ring. by rewrite py_div_zero.
Qed.

(** With [eta = -1] the plateau has no words and no mass: 0 / 0. *)
Lemma weight_with_matrix_minus_one (alphabet : gset string) (limit : nat)
    (dfa : FiniteAutomata) (lam : Qc) (up_to : Z) :
  (2 ≤ size alphabet)%nat →
  __weight_with_matrix alphabet limit dfa (-1) lam up_to = Raise ZeroDivisionError.
Proof.
  intros Hk.
  destruct (weight_with_matrix_unfold alphabet limit dfa (-1) lam up_to)
    as (self & _ & _ & ->); [lia|].
  unfold weight_with_matrix_body.
  change (-1 + 1)%Z with 0%Z.
  rewrite !py_pow_nonneg by lia. change (Z.to_nat 0) with 0%nat.
  rewrite M_bind_lift.
  rewrite (py_div_ok _ (1 - Qc_of_Z (len_alphabet alphabet))).
  2:{ apply one_minus_k_nonzero. unfold len_alphabet. lia. }
  rewrite !M_bind_lift.
  replace ((1 - Qc_of_Z (len_alphabet alphabet) ^ 0)
           / (1 - Qc_of_Z (len_alphabet alphabet))) with 0.
  2:{ simpl. unfold Qcdiv. ring. }
  by rewrite py_div_zero.
Qed.

(** With [lam = 0] and [eta <= -2] the power [lam ** (eta + 1)] divides by
    zero. *)
Lemma weight_with_matrix_zero_negative (alphabet : gset string) (limit : nat)
    (dfa : FiniteAutomata) (eta : Z) (up_to : Z) :
  (2 ≤ size alphabet)%nat → (eta < -1)%Z →
  __weight_with_matrix alphabet limit dfa eta 0 up_to = Raise ZeroDivisionError.
Proof.
  intros Hk Heta.
  destruct (weight_with_matrix_unfold alphabet limit dfa eta 0 up_to)
    as (self & _ & _ & ->); [lia|].
  unfold weight_with_matrix_body.
  destruct (py_pow_defined (Qc_of_Z (len_alphabet alphabet)) (eta + 1)) as [v ->].
  { apply Qc_of_Z_nonzero. unfold len_alphabet. lia. }
  rewrite M_bind_lift.
  rewrite (py_div_ok _ (1 - Qc_of_Z (len_alphabet alphabet))).
  2:{ apply one_minus_k_nonzero. unfold len_alphabet. lia. }
  rewrite M_bind_lift.
  by rewrite py_pow_zero_negative by lia.
Qed.

Lemma py_pow_negative (b : Qc) (e : Z) :
  (e < 0)%Z → b ≠ 0 → py_pow b e = Ok (/ b ^ Z.to_nat (- e)).
Proof.
  intros He Hb. unfold py_pow.
  destruct (decide (0 ≤ e)%Z); [lia|]. by destruct (decide (b = 0)).
Qed.

(** Rounds for word lengths below 1 never touch the cache and never fail
    when [lam] is not zero. *)
Lemma for_each_below (limit : nat) (lam : Qc) (l : list Z) :
  lam ≠ 0 → Forall (λ i, i < 1)%Z l →
  ∀ (w : Qc) (st : state),
    ∃ w' st',
      for_each l (λ i weight_ex_part,
          share ← get_share limit i;
          lam_i ← lift (py_pow lam (i + 1));
          mret (weight_ex_part + share * lam_i)) w st
      = (Ok w', st').
Proof.
  intros Hlam Hl. induction Hl as [|i l Hi Hl IH]; intros w st.
  - by exists w, st.
  - cbn [for_each].
    destruct (py_pow_defined lam (i + 1) Hlam) as [x Hx].
    erewrite M_bind_run.
    2:{ erewrite M_bind_run by by apply get_share_below.
        rewrite Hx, M_bind_lift. reflexivity. }
    apply IH.
Qed.

(** With [eta <= -2] and a non-zero [lam] the plateau call returns a value:
    negative powers are reciprocals and both loops only see lengths
    below 1. *)
Lemma weight_with_matrix_negative (alphabet : gset string) (limit : nat)
    (dfa : FiniteAutomata) (eta : Z) (lam : Qc) (up_to : Z) :
  (2 ≤ size alphabet)%nat → (eta < -1)%Z → lam ≠ 0 → (up_to ≤ 1)%Z →
  ∃ v, __weight_with_matrix alphabet limit dfa eta lam up_to = Ok v.
Proof.
  intros Hk Heta Hlam Hup.
  destruct (weight_with_matrix_unfold alphabet limit dfa eta lam up_to)
    as (self & _ & _ & ->); [lia|].
  assert (Hkz : (2 ≤ len_alphabet alphabet)%Z) by (unfold len_alphabet; lia).
  unfold weight_with_matrix_body.
  set (k := Qc_of_Z (len_alphabet alphabet)).
  assert (Hk0 : k ≠ 0) by by apply Qc_of_Z_nonzero.
  rewrite (py_pow_negative k (eta + 1)) by (done || lia).
  rewrite M_bind_lift.
  rewrite (py_div_ok _ (1 - k)) by by apply one_minus_k_nonzero.
  rewrite M_bind_lift.
  destruct (py_pow_defined lam (eta + 1) Hlam) as [lam_pow ->].
  rewrite M_bind_lift.
  rewrite (py_div_ok (1 - lam_pow)).
  2:{ apply Qcdiv_nonzero; [|by apply one_minus_k_nonzero].
      intros H. assert (/ k ^ Z.to_nat (- (eta + 1)) = 1) as Hinv.
      { rewrite <- (Qcplus_0_r (/ _)), <- H. ring. }
      apply Qcinv_eq_1 in Hinv; [|by apply Qcpower_nonzero].
      unfold k in Hinv. rewrite Qc_of_Z_pow, <- Z2Qc_inj_1 in Hinv.
      apply Z2Qc_inj in Hinv.
      assert (1 < len_alphabet alphabet ^ Z.of_nat (Z.to_nat (- (eta + 1))))%Z; [|lia].
      apply Z.pow_gt_1; lia. }
  rewrite M_bind_lift.
  rewrite (py_range_nil 1) by lia. cbn [for_each]. rewrite M_bind_run with
    (a := if decide (get_initials dfa ## get_finals dfa) then 0
          else 0 + (1 - lam_pow) / ((1 - / k ^ Z.to_nat (- (eta + 1))) / (1 - k)))
    (st' := (self, [])) by reflexivity.
  edestruct (for_each_below limit lam (py_range (eta + 1) up_to) Hlam) as (w' & st' & Hloop).
  { unfold py_range. apply Forall_seqZ. intros. lia. }
  erewrite M_bind_run by exact Hloop.
  rewrite (py_div_ok (1 - lam) lam) by done. rewrite M_bind_lift.
  by eexists.
Qed.

Lemma same_outcome_eq (r1 r2 : result Qc) : same_outcome r1 r2 = true → r1 = r2.
Proof.
  destruct r1 as [a|e1], r2 as [b|e2]; simpl; try done.
  - intros H. f_equal. apply Qc_is_canon. by apply Qeq_bool_iff.
  - intros H. f_equal. by apply bool_decide_eq_true in H.
Qed.

Lemma weight_diff_both_empty (alphabet : gset string)
    (solve : ndarray → list Qc → result (list Qc)) (limit : nat)
    (subsets_symmetric_difference :
       FiniteAutomata → FiniteAutomata → FiniteAutomata * FiniteAutomata)
    (is_empty : FiniteAutomata → bool) (fa_a fa_b : FiniteAutomata)
    (eta : Z) (lam : Qc) :
  is_empty (subsets_symmetric_difference fa_a fa_b).1 = true →
  is_empty (subsets_symmetric_difference fa_a fa_b).2 = true →
  weight_diff alphabet solve limit subsets_symmetric_difference is_empty
    fa_a fa_b eta lam = Ok (0, 0, 0 + 0).
Proof. intros H1 H2. unfold weight_diff. by rewrite H1, H2. Qed.


(** C10, as the code has it: over a one-letter alphabet the estimator
    always raises [ZeroDivisionError], so [weight] never returns; it raises
    [ZeroDivisionError] whenever the exact solver has returned, and the
    solver's own exception otherwise. *)
Theorem weight_unary_fails (alphabet : gset string)
    (solve : ndarray → list Qc → result (list Qc)) (limit : nat)
    (dfa : FiniteAutomata) (eta : Z) (lam : Qc) :
  size alphabet = 1%nat →
  (∀ up_to, __weight_with_matrix alphabet limit dfa eta lam up_to
            = Raise ZeroDivisionError) ∧
  (∀ w, weight alphabet solve limit dfa eta lam ≠ Ok w) ∧
  (∀ e, __explicit_solution alphabet solve dfa lam = Ok e →
        weight alphabet solve limit dfa eta lam = Raise ZeroDivisionError) ∧
  (∀ x, __explicit_solution alphabet solve dfa lam = Raise x →
        weight alphabet solve limit dfa eta lam = Raise x).
Proof.
  intros Hk. split; [|split; [|split]].
  - intros up_to. by apply weight_with_matrix_unary.
  - intros w. unfold weight.
    destruct (__explicit_solution alphabet solve dfa lam); [|done].
    by rewrite bind_Ok, (weight_with_matrix_unary alphabet limit dfa eta lam 0).
  - intros e He. unfold weight. rewrite He.
    by rewrite bind_Ok, (weight_with_matrix_unary alphabet limit dfa eta lam 0).
  - intros x Hx. unfold weight. by rewrite Hx.
Qed.


(** C10 fails as stated: over the one-letter alphabet with [lam = 1] the
    system of the exact solver is singular and the call ends in
    [LinAlgError] before any division. *)
Lemma weight_unary_singular :
  size only_a = 1%nat ∧
  weight only_a np_linalg_solve 10 (accept_all only_a) 0 1 = Raise LinAlgError ∧
  weight only_a np_linalg_solve 10 (accept_all only_a) 0 1 ≠ Raise ZeroDivisionError.
Proof.
  assert (weight only_a np_linalg_solve 10 (accept_all only_a) 0 1 = Raise LinAlgError)
    as H by (apply same_outcome_eq; vm_compute; reflexivity).
  split; [by vm_compute|]. split; [done|]. by rewrite H.
Qed.

(** ** The automaton that accepts every word *)

Lemma np_linalg_solve_1x1 : solves_1x1 np_linalg_solve.
Proof.
  intros a c Ha. unfold np_linalg_solve. simpl.
  destruct (decide (a = 0)); [done|]. simpl.
  do 2 f_equal. unfold dot. simpl. ring.
Qed.

Lemma py_round_of_Z (z : Z) : py_round (Qc_of_Z z) = z.
Proof.
  unfold py_round.
  assert (Qfloor (Qc_of_Z z) = z) as -> by apply Qfloor_Z.
  replace (Qc_of_Z z - Qc_of_Z z) with 0 by ring.
  reflexivity.
Qed.

Lemma loops_count (l : list string) :
  length (filter (λ ps : nat * string, ps.1 = 0%nat) ((λ a, (0%nat, a)) <$> l))
  = length l.
Proof.
  induction l as [|a l IH]; [done|].
  rewrite fmap_cons, filter_cons_True by done. simpl. by rewrite IH.
Qed.

Section AcceptsEverything.

Variable alphabet : gset string.
Variable dfa : FiniteAutomata.
Hypothesis Hall : accepts_everything alphabet dfa.
Hypothesis Hk : (2 ≤ size alphabet)%nat.

Let k : Z := len_alphabet alphabet.

Lemma accepts_everything_count : TransitionCount dfa 0 0 = k.
Proof using Hall.
  destruct Hall as (_ & _ & _ & Hperm).
  unfold TransitionCount, k, len_alphabet. f_equal.
  rewrite Hperm. apply loops_count.
Qed.

Lemma accepts_everything_one_step : one_step k dfa = [[1]].
Proof using Hall Hk.
  pose proof accepts_everything_count as Hcount.
  destruct Hall as (Hn & _).
  unfold one_step. rewrite Hn. simpl. rewrite Hcount.
  do 2 f_equal. field. apply Qc_of_Z_nonzero. unfold k, len_alphabet. lia.
Qed.

Lemma ones_power (i : nat) : mat_power [[1]] (S i) = [[1]].
Proof.
  induction i as [|i IH]; [done|].
  rewrite mat_power_step, IH. unfold matmul. simpl.
  do 2 f_equal; try ring.
Qed.

Lemma accepts_everything_Share (i : Z) : (1 ≤ i)%Z → Share k dfa i = 1.
Proof using Hall Hk.
  intros Hi. unfold Share. rewrite accepts_everything_one_step.
  replace (Z.to_nat i) with (S (Z.to_nat (i - 1))) by lia.
  rewrite ones_power. unfold share_of.
  destruct Hall as (_ & -> & -> & _).
  rewrite elements_singleton. unfold Qc_sum, entry. simpl. ring.
Qed.

End AcceptsEverything.

Lemma Qc_sum_scale {A} (u : Qc) (f : A → Qc) (l : list A) :
  Qc_sum ((λ i, u * f i) <$> l) = u * Qc_sum (f <$> l).
Proof.
  induction l as [|x l IH].
  - unfold Qc_sum. simpl. ring.
  - rewrite !fmap_cons, !Qc_sum_cons, IH. ring.
Qed.

Lemma Qc_sum_singleton (x : Qc) : Qc_sum [x] = x.
Proof. unfold Qc_sum. simpl. ring. Qed.

Lemma seqZ_snoc (n : nat) :
  seqZ 1 (Z.of_nat (S n)) = seqZ 1 (Z.of_nat n) ++ [(1 + Z.of_nat n)%Z].
Proof.
  replace (Z.of_nat (S n)) with (Z.of_nat n + 1)%Z by lia.
  rewrite seqZ_app by lia. done.
Qed.

(** 1 + x + ... + x^n, times (1 - x). *)
Lemma geometric_count (x : Qc) (n : nat) :
  (1 + Qc_sum ((λ i, x ^ Z.to_nat i) <$> seqZ 1 (Z.of_nat n))) * (1 - x) = 1 - x ^ S n.
Proof.
  induction n as [|n IH].
  - unfold Qc_sum. simpl. ring.
  - rewrite seqZ_snoc, fmap_app, Qc_sum_app. simpl fmap.
    rewrite Qc_sum_singleton.
    replace (Z.to_nat (1 + Z.of_nat n)) with (S n) by lia.
    transitivity ((1 + Qc_sum ((λ i, x ^ Z.to_nat i) <$> seqZ 1 (Z.of_nat n))) * (1 - x)
                  + x ^ S n * (1 - x)); [ring|].
    rewrite IH. simpl. ring.
Qed.

(** x^2 + ... + x^(n+1), times (1 - x). *)
Lemma geometric_tail (x : Qc) (n : nat) :
  Qc_sum ((λ i, x ^ Z.to_nat (i + 1)) <$> seqZ 1 (Z.of_nat n)) * (1 - x)
  = x * (x - x ^ S n).
Proof.
  induction n as [|n IH].
  - unfold Qc_sum. simpl. ring.
  - rewrite seqZ_snoc, fmap_app, Qc_sum_app. simpl fmap.
    rewrite Qc_sum_singleton.
    replace (Z.to_nat (1 + Z.of_nat n + 1)) with (S (S n)) by lia.
    transitivity (Qc_sum ((λ i, x ^ Z.to_nat (i + 1)) <$> seqZ 1 (Z.of_nat n)) * (1 - x)
                  + x ^ S (S n) * (1 - x)); [ring|].
    rewrite IH. simpl. ring.
Qed.

Lemma fmap_seqZ_ext {A} (f g : Z → A) (a n : Z) :
  (∀ i, (a ≤ i < a + n)%Z → f i = g i) → f <$> seqZ a n = g <$> seqZ a n.
Proof.
  intros Hfg. apply list_fmap_ext. intros j i Hj.
  apply Hfg. apply list_elem_of_lookup_2 in Hj. by apply elem_of_seqZ in Hj.
Qed.

Lemma Qcminus_eq_0 (x y : Qc) : x - y = 0 → x = y.
Proof.
  intros H. transitivity ((x - y) + y); [ring|]. rewrite H. ring.
Qed.

Section AcceptsEverythingWeight.

Variable alphabet : gset string.
Variable dfa : FiniteAutomata.
Hypothesis Hall : accepts_everything alphabet dfa.
Hypothesis Hk : (2 ≤ size alphabet)%nat.

Let k : Z := len_alphabet alphabet.

Lemma accepts_everything_in_range : states_in_range dfa.
Proof using Hall.
  clear Hk. destruct Hall as (Hn & Hi & Hf & _). unfold states_in_range.
  rewrite Hn, Hi, Hf. split; intros s Hs; apply elem_of_singleton in Hs; lia.
Qed.

Lemma accepts_everything_plateau (eta : Z) (lam : Qc) :
  (0 ≤ eta)%Z → plateau_weight k dfa eta lam = 1 - lam ^ Z.to_nat (eta + 1).
Proof using Hall Hk.
  intros Heta. unfold plateau_weight.
  assert (Hkz : (2 ≤ k)%Z) by (unfold k, len_alphabet; lia).
  destruct (decide (get_initials dfa ## get_finals dfa)) as [Hdis|_].
  { destruct Hall as (_ & Hi & Hf & _). rewrite Hi, Hf in Hdis.
    exfalso. by apply (proj1 (elem_of_disjoint _ _) Hdis 0%nat); apply elem_of_singleton. }
  unfold py_range.
  rewrite (fmap_seqZ_ext _
    (λ i, plateau_unit (Qc_of_Z k) lam eta * Qc_of_Z k ^ Z.to_nat i)).
  2:{ intros i Hi. rewrite (accepts_everything_Share alphabet dfa Hall Hk) by lia.
      rewrite Qcmult_1_l, Qc_of_Z_pow, py_round_of_Z. done. }
  rewrite Qc_sum_scale.
  rewrite (seqZ_of_nat 1).
  pose proof (geometric_count (Qc_of_Z k) (Z.to_nat (eta + 1 - 1))) as Hgeo.
  replace (S (Z.to_nat (eta + 1 - 1))) with (Z.to_nat (eta + 1)) in Hgeo by lia.
  set (S := Qc_sum _) in *.
  pose proof (one_minus_k_nonzero k Hkz) as Hden.
  assert (Hnum : 1 - Qc_of_Z k ^ Z.to_nat (eta + 1) ≠ 0).
  { intros H0. apply (plateau_count_nonzero k (Z.to_nat (eta + 1))); [done|lia|].
    rewrite H0. unfold Qcdiv. ring. }
  unfold plateau_unit. rewrite <- Hgeo.
  assert (HS : 1 + S ≠ 0).
  { intros H0. apply Hnum. rewrite <- Hgeo, H0. ring. }
  field. done.
Qed.

Lemma accepts_everything_correction (eta : Z) (lam : Qc) :
  (0 ≤ eta)%Z → lam ≠ 0 →
  plateau_weight k dfa 0 lam + tail_sum k dfa 0 lam (eta + 1) * ((1 - lam) / lam)
  = 1 - lam ^ Z.to_nat (eta + 1).
Proof using Hall Hk.
  intros Heta Hlam.
  rewrite accepts_everything_plateau by lia.
  unfold tail_sum, py_range.
  rewrite (fmap_seqZ_ext _ (λ i, lam ^ Z.to_nat (i + 1))).
  2:{ intros i Hi. rewrite (accepts_everything_Share alphabet dfa Hall Hk) by lia.
      by rewrite Qcmult_1_l. }
  rewrite (seqZ_of_nat (0 + 1)). change (0 + 1)%Z with 1%Z.
  pose proof (geometric_tail lam (Z.to_nat (eta + 1 - 1))) as Hgeo.
  replace (S (Z.to_nat (eta + 1 - 1))) with (Z.to_nat (eta + 1)) in Hgeo by lia.
  set (T := Qc_sum _) in *.
  transitivity (1 - lam ^ Z.to_nat 1 + T * (1 - lam) / lam); [unfold Qcdiv; ring|].
  rewrite Hgeo. simpl. field. done.
Qed.

Lemma accepts_everything_explicit
    (solve : ndarray → list Qc → result (list Qc)) (lam : Qc) :
  solves_1x1 solve → lam ≠ 1 →
  __explicit_solution alphabet solve dfa lam = Ok 1.
Proof using Hall Hk.
  intros Hsolve Hlam.
  assert (Hkq : Qc_of_Z k ≠ 0).
  { apply Qc_of_Z_nonzero. unfold k, len_alphabet. lia. }
  pose proof (accepts_everything_count alphabet dfa Hall) as Hcount.
  destruct Hall as (Hn & Hi & Hf & _).
  unfold __explicit_solution. fold k. rewrite py_div_ok by done.
  rewrite bind_Ok, Hn. simpl seq. rewrite !fmap_cons, !fmap_nil.
  rewrite count_letters_spec, Hcount.
  destruct (decide (0%nat = 0%nat)); [|done].
  destruct (decide (0%nat ∈ get_finals dfa)) as [_|Hno].
  2:{ destruct Hno. rewrite Hf. by apply elem_of_singleton. }
  assert (Hdiag : Qc_of_Z k * (lam / Qc_of_Z k) - 1 = lam - 1) by by field.
  assert (Hreg : lam - 1 ≠ 0) by (intros H0; by apply Hlam, Qcminus_eq_0).
  fold k. rewrite Hdiag, Hsolve by done.
  rewrite bind_Ok.
  assert (py_min (get_initials dfa) = Ok 0%nat) as ->.
  { apply py_min_spec. rewrite Hi. split; [by apply elem_of_singleton|].
    intros x _. lia. }
  rewrite bind_Ok. unfold getitem. simpl. f_equal.
  by field.
Qed.

End AcceptsEverythingWeight.



(** ** Shares are bounded by the number of initial states *)

Lemma Qcmult_nonneg (a b : Qc) : 0 ≤ a → 0 ≤ b → 0 ≤ a * b.
Proof.
  intros Ha Hb. rewrite <- (Qcmult_0_l b). by apply Qcmult_le_compat_r.
Qed.

Lemma Qc_sum_nonneg (v : list Qc) : nonneg v → 0 ≤ Qc_sum v.
Proof.
  induction 1 as [|x v Hx Hv IH]; [done|].
  rewrite Qc_sum_cons. by apply Qcplus_nonneg_nonneg.
Qed.

Lemma Qc_sum_replicate_0 (n : nat) : Qc_sum (replicate n 0) = 0.
Proof.
  induction n as [|n IH]; [done|]. simpl. rewrite Qc_sum_cons, IH. ring.
Qed.

Lemma nonneg_replicate_0 (n : nat) : nonneg (replicate n 0).
Proof. apply Forall_replicate. done. Qed.

Lemma Qc_sum_vec_scale (a : Qc) (v : list Qc) :
  Qc_sum (vec_scale a v) = a * Qc_sum v.
Proof.
  induction v as [|x v IH].
  - unfold Qc_sum. simpl. ring.
  - unfold vec_scale in *. rewrite fmap_cons, !Qc_sum_cons, IH. ring.
Qed.

Lemma Qc_sum_vec_add (u v : list Qc) :
  length u = length v → Qc_sum (vec_add u v) = Qc_sum u + Qc_sum v.
Proof.
  revert v. induction u as [|x u IH]; intros [|y v] Hlen; try done.
  unfold vec_add in *. simpl. rewrite !Qc_sum_cons, IH by (simpl in Hlen; lia). ring.
Qed.

Lemma nonneg_vec_add (u v : list Qc) : nonneg u → nonneg v → nonneg (vec_add u v).
Proof.
  intros Hu. revert v. induction Hu as [|x u Hx Hu IH]; intros v Hv; [constructor|].
  destruct Hv as [|y v Hy Hv]; [constructor|].
  unfold vec_add. simpl. constructor.
  - by apply Qcplus_nonneg_nonneg.
  - by apply IH.
Qed.

Lemma nonneg_vec_scale (a : Qc) (v : list Qc) : 0 ≤ a → nonneg v → nonneg (vec_scale a v).
Proof.
  intros Ha Hv. unfold vec_scale. apply Forall_fmap.
  eapply list.Forall_impl; [exact Hv|]. intros x Hx. simpl. by apply Qcmult_nonneg.
Qed.

(** A combination of substochastic rows with non-negative coefficients
    has non-negative entries that sum to at most the sum of the
    coefficients. *)
Lemma row_times_bound (n : nat) (B : ndarray) (row : list Qc) :
  substochastic n B → nonneg row →
  length (row_times n row B) = n ∧
  nonneg (row_times n row B) ∧
  Qc_sum (row_times n row B) ≤ Qc_sum row.
Proof.
  intros HB Hrow. revert B HB.
  induction Hrow as [|a row Ha Hrow IH]; intros B HB.
  - simpl. rewrite length_replicate, Qc_sum_replicate_0.
    split; [done|]. split; [apply nonneg_replicate_0|done].
  - destruct HB as [|b B (Hlen & Hb & Hsum) HB].
    + simpl. rewrite length_replicate, Qc_sum_replicate_0.
      split; [done|]. split; [apply nonneg_replicate_0|].
      apply Qc_sum_nonneg. by constructor.
    + destruct (IH B HB) as (Hlen' & Hnn & Hle). simpl.
      split; [|split].
      * unfold vec_add, vec_scale. rewrite length_zip_with, length_fmap. lia.
      * apply nonneg_vec_add; [by apply nonneg_vec_scale|done].
      * rewrite Qc_sum_vec_add, Qc_sum_vec_scale, Qc_sum_cons.
        2:{ unfold vec_scale. rewrite length_fmap. lia. }
        apply Qcplus_le_compat; [|done].
        rewrite <- (Qcmult_1_r a) at 2. rewrite !(Qcmult_comm a).
        by apply Qcmult_le_compat_r.
Qed.

Lemma matmul_substochastic (n : nat) (A B : ndarray) :
  length B = n → substochastic n A → substochastic n B →
  substochastic n (matmul A B).
Proof.
  intros Hlen HA HB. unfold matmul, substochastic. apply Forall_fmap.
  eapply list.Forall_impl; [exact HA|].
  intros row (Hr & Hnn & Hsum). simpl. rewrite Hlen.
  destruct (row_times_bound n B row HB Hnn) as (H1 & H2 & H3).
  split; [done|]. split; [done|]. by etrans.
Qed.

Lemma mat_power_substochastic (n : nat) (m : ndarray) (i : nat) :
  length m = n → substochastic n m → substochastic n (mat_power m (S i)).
Proof.
  intros Hlen Hm. induction i as [|i IH]; [done|].
  rewrite mat_power_step. by apply matmul_substochastic.
Qed.

Lemma indicator_sum_notin (a : nat) (l : list nat) :
  a ∉ l → sum_list_with (λ p, if decide (a = p) then 1%nat else 0%nat) l = 0%nat.
Proof.
  induction l as [|p l IH]; [done|]. intros Hnot.
  apply not_elem_of_cons in Hnot as [Hne Hnot]. simpl.
  destruct (decide (a = p)); [done|]. by apply IH.
Qed.

Lemma indicator_sum_NoDup (a : nat) (l : list nat) :
  NoDup l → (sum_list_with (λ p, if decide (a = p) then 1%nat else 0%nat) l ≤ 1)%nat.
Proof.
  induction 1 as [|p l Hp Hl IH]; simpl; [lia|].
  destruct (decide (a = p)) as [->|]; [|done].
  rewrite indicator_sum_notin by done. lia.
Qed.

(** Over distinct targets the transition counts of a state add up to at
    most the number of its transitions. *)
Lemma count_sum_le (succs : list (nat * string)) (targets : list nat) :
  NoDup targets →
  (sum_list_with (λ p, length (filter (λ ps : nat * string, ps.1 = p) succs)) targets
   ≤ length succs)%nat.
Proof.
  intros Hnd. induction succs as [|[q a] succs IH]; simpl.
  - clear Hnd. induction targets as [|p targets IH]; simpl; lia.
  - transitivity
      (sum_list_with (λ p, if decide (q = p) then 1%nat else 0%nat) targets
       + sum_list_with (λ p, length (filter (λ ps : nat * string, ps.1 = p) succs))
           targets)%nat.
    + clear IH Hnd. induction targets as [|p targets IH]; simpl; [done|].
      rewrite filter_cons. simpl.
      destruct (decide (q = p)); simpl; lia.
    + pose proof (indicator_sum_NoDup q targets Hnd). lia.
Qed.

Lemma Qcinv_0 : / 0 = 0.
Proof. apply Qc_is_canon. reflexivity. Qed.

Lemma Qcdiv_Z_nonneg (z k : Z) : (0 ≤ z)%Z → (0 ≤ k)%Z → 0 ≤ Qc_of_Z z / Qc_of_Z k.
Proof.
  intros Hz Hk. destruct (decide (k = 0%Z)) as [->|Hne].
  - rewrite Z2Qc_inj_0. unfold Qcdiv. rewrite Qcinv_0, Qcmult_0_r. done.
  - apply (Qcmult_lt_0_le_reg_r _ _ (Qc_of_Z k)).
    + rewrite <- Z2Qc_inj_0. apply (proj1 (Z2Qc_inj_lt 0 k)). lia.
    + rewrite Qcmult_0_l.
      replace (Qc_of_Z z / Qc_of_Z k * Qc_of_Z k) with (Qc_of_Z z).
      * rewrite <- Z2Qc_inj_0. by apply (proj1 (Z2Qc_inj_le 0 z)).
      * field. by rewrite Qc_of_Z_eq_0.
Qed.

Lemma Qcdiv_Z_le_1 (z k : Z) : (0 ≤ z ≤ k)%Z → Qc_of_Z z / Qc_of_Z k ≤ 1.
Proof.
  intros Hz. destruct (decide (k = 0%Z)) as [->|Hne].
  - rewrite Z2Qc_inj_0. unfold Qcdiv. rewrite Qcinv_0, Qcmult_0_r. done.
  - apply (Qcmult_lt_0_le_reg_r _ _ (Qc_of_Z k)).
    + rewrite <- Z2Qc_inj_0. apply (proj1 (Z2Qc_inj_lt 0 k)). lia.
    + rewrite Qcmult_1_l.
      replace (Qc_of_Z z / Qc_of_Z k * Qc_of_Z k) with (Qc_of_Z z).
      * apply (proj1 (Z2Qc_inj_le z k)). lia.
      * field. by rewrite Qc_of_Z_eq_0.
Qed.

Lemma Qc_sum_counts (c : nat → nat) (k : Z) (l : list nat) :
  Qc_sum ((λ p, Qc_of_Z (Z.of_nat (c p)) / Qc_of_Z k) <$> l)
  = Qc_of_Z (Z.of_nat (sum_list_with c l)) / Qc_of_Z k.
Proof.
  induction l as [|p l IH].
  - change (Z.of_nat (sum_list_with c [])) with 0%Z.
    rewrite Z2Qc_inj_0. unfold Qc_sum, Qcdiv. simpl. ring.
  - rewrite fmap_cons, Qc_sum_cons, IH.
    change (sum_list_with c (p :: l)) with (c p + sum_list_with c l)%nat.
    rewrite Nat2Z.inj_add, Z2Qc_inj_add. unfold Qcdiv. ring.
Qed.

Lemma deterministic_out_degree (alphabet : gset string) (dfa : FiniteAutomata) (q : nat) :
  deterministic alphabet dfa → (q < get_number_of_states dfa)%nat →
  (length (get_all_successors_with_letter dfa q) ≤ size alphabet)%nat.
Proof.
  intros Hdet Hq. unfold deterministic in Hdet.
  rewrite list.Forall_forall in Hdet.
  destruct (Hdet q) as [Hnd Hin].
  { apply elem_of_seq. lia. }
  unfold letters in *.
  rewrite <- (length_fmap snd), <- (size_list_to_set (C := gset string)) by done.
  apply subseteq_size. intros a Ha. apply elem_of_list_to_set in Ha.
  rewrite list.Forall_forall in Hin. by apply Hin.
Qed.

(** The one-step matrix of a deterministic automaton is substochastic. *)
Lemma one_step_substochastic (alphabet : gset string) (dfa : FiniteAutomata) :
  deterministic alphabet dfa →
  substochastic (get_number_of_states dfa) (one_step (len_alphabet alphabet) dfa).
Proof.
  intros Hdet. unfold substochastic, one_step.
  apply Forall_fmap, list.Forall_forall. intros q Hq. simpl.
  apply elem_of_seq in Hq.
  split; [by rewrite length_fmap, length_seq|]. split.
  - apply Forall_fmap, list.Forall_forall. intros p _. simpl.
    apply Qcdiv_Z_nonneg; unfold TransitionCount, len_alphabet; lia.
  - unfold TransitionCount.
    rewrite (Qc_sum_counts
      (λ p, length (filter (λ ps : nat * string, ps.1 = p)
                      (get_all_successors_with_letter dfa q)))).
    apply Qcdiv_Z_le_1. split; [lia|]. unfold len_alphabet.
    apply inj_le. etrans; [apply count_sum_le, NoDup_seq|].
    apply (deterministic_out_degree alphabet); [done|lia].
Qed.

Lemma Qc_sum_submseteq (g : nat → Qc) (l1 l2 : list nat) :
  (∀ x, 0 ≤ g x) → l1 ⊆+ l2 → Qc_sum (g <$> l1) ≤ Qc_sum (g <$> l2).
Proof.
  intros Hg Hsub. induction Hsub as [|x l1 l2 _ IH|x y l|x l1 l2 _ IH|l1 l2 l3 _ IH1 _ IH2].
  - done.
  - rewrite !fmap_cons, !Qc_sum_cons. by apply Qcplus_le_compat.
  - rewrite !fmap_cons, !Qc_sum_cons.
    replace (g y + (g x + Qc_sum (g <$> l))) with (g x + (g y + Qc_sum (g <$> l))) by ring.
    done.
  - rewrite fmap_cons, Qc_sum_cons.
    rewrite <- (Qcplus_0_l (Qc_sum (g <$> l1))). by apply Qcplus_le_compat.
  - by etrans.
Qed.

Lemma Qc_sum_lookups (row : list Qc) :
  Qc_sum ((λ j, default 0 (row !! j)) <$> seq 0 (length row)) = Qc_sum row.
Proof.
  induction row as [|x row IH]; [done|].
  simpl length. rewrite <- cons_seq, <- fmap_S_seq, fmap_cons, <- list_fmap_compose.
  rewrite !Qc_sum_cons. simpl. f_equal. exact IH.
Qed.

(** Distinct positions of a non-negative row sum to at most the whole row. *)
Lemma Qc_sum_positions (row : list Qc) (fs : list nat) :
  nonneg row → NoDup fs → Forall (λ f, f < length row)%nat fs →
  0 ≤ Qc_sum ((λ f, default 0 (row !! f)) <$> fs) ≤ Qc_sum row.
Proof.
  intros Hrow Hnd Hfs.
  assert (Hg : ∀ j, 0 ≤ default 0 (row !! j)).
  { intros j. destruct (row !! j) as [x|] eqn:Hj; simpl; [|done].
    unfold nonneg in Hrow. rewrite list.Forall_forall in Hrow.
    apply Hrow. by eapply list_elem_of_lookup_2. }
  split.
  - apply Qc_sum_nonneg. unfold nonneg. apply Forall_fmap, list.Forall_forall.
    intros f _. apply Hg.
  - rewrite <- (Qc_sum_lookups row). apply Qc_sum_submseteq; [done|].
    apply NoDup_submseteq; [done|]. intros f Hf. apply elem_of_seq.
    rewrite list.Forall_forall in Hfs. specialize (Hfs f Hf). lia.
Qed.

Lemma Qc_sum_unit_terms (l : list Qc) :
  Forall (λ x, 0 ≤ x ≤ 1) l → 0 ≤ Qc_sum l ≤ Qc_of_Z (Z.of_nat (length l)).
Proof.
  induction 1 as [|x l [Hx0 Hx1] Hl [IH0 IH1]].
  - split; [done|]. change (Z.of_nat (length (@nil Qc))) with 0%Z.
    by rewrite Z2Qc_inj_0.
  - rewrite Qc_sum_cons. split; [by apply Qcplus_nonneg_nonneg|].
    simpl length. rewrite Nat2Z.inj_succ, <- Z.add_1_l, Z2Qc_inj_add, Z2Qc_inj_1.
    by apply Qcplus_le_compat.
Qed.

(** The share read off a substochastic matrix lies between 0 and the
    number of initial states. *)
Lemma share_of_bound (dfa : FiniteAutomata) (m : ndarray) :
  length m = get_number_of_states dfa →
  substochastic (get_number_of_states dfa) m → states_in_range dfa →
  0 ≤ share_of dfa m ≤ Qc_of_Z (Z.of_nat (size (get_initials dfa))).
Proof.
  intros Hlen Hm Hrange.
  destruct (states_in_range_lists dfa Hrange) as [Hss Hfs].
  unfold share_of, size, set_size. simpl.
  rewrite <- (length_fmap (λ s, Qc_sum ((λ f, entry m s f) <$> elements (get_finals dfa)))).
  apply Qc_sum_unit_terms, Forall_fmap.
  eapply list.Forall_impl; [exact Hss|]. intros s Hs. simpl in *.
  destruct (lookup_lt_is_Some_2 m s) as [row Hrow]; [lia|].
  unfold substochastic in Hm. rewrite list.Forall_forall in Hm.
  destruct (Hm row) as (Hrlen & Hnn & Hsum); [by eapply list_elem_of_lookup_2|].
  unfold entry. rewrite Hrow. simpl.
  destruct (Qc_sum_positions row (elements (get_finals dfa))) as [H0 H1].
  - done.
  - apply NoDup_elements.
  - by rewrite Hrlen.
  - split; [done|]. by etrans.
Qed.



(** C8, on the code: asked for a length [i >= 3] within the recursion
    depth, a freshly built cache of an automaton with an initial and a final
    state makes [get_share] raise [TypeError] (it subscripts the [None]
    that [get_matrix] returned) instead of returning the sum of the entries
    of the i-th power. *)
Theorem get_share_fresh_raises (alphabet : gset string) (limit : nat)
    (dfa : FiniteAutomata) (self : Matrix) (i : Z) :
  Matrix_init alphabet dfa = Ok self →
  size alphabet ≠ 0%nat →
  (3 ≤ i)%Z → (i - 3 < Z.of_nat limit)%Z →
  get_initials dfa ≠ ∅ → get_finals dfa ≠ ∅ →
  (get_share limit i (self, [])).1 = Raise TypeError.
Proof.
  intros Hinit Hk Hi Hd Hini Hfin.
  rewrite Matrix_init_spec in Hinit by done. injection Hinit as <-.
  unfold get_share, mbind, M_bind, observe. simpl.
  destruct (decide (i < 1)%Z); [lia|].
  replace i with (3 + Z.of_nat (Z.to_nat (i - 3)))%Z at 1 by lia.
  edestruct (get_matrix_gap (one_step (len_alphabet alphabet) dfa))
    as (st' & Hrun & _ & Hfa); [| |rewrite Hrun].
  - by apply cache_upto_fresh.
  - lia.
  - unfold get_self, lift. simpl. rewrite Hfa. simpl.
    destruct (elements (get_initials dfa)) as [|s ss] eqn:Hss.
    { apply elements_empty_inv, leibniz_equiv in Hss. done. }
    destruct (elements (get_finals dfa)) as [|f fs] eqn:Hfs.
    { apply elements_empty_inv, leibniz_equiv in Hfs. done. }
    reflexivity.
Qed.

(** * The theorems at concrete inputs *)

Lemma Matrix_init_fresh (alphabet : gset string) (dfa : FiniteAutomata) :
  size alphabet ≠ 0%nat → Matrix_init alphabet dfa = Ok (fresh_matrix alphabet dfa).
Proof. apply Matrix_init_spec. Qed.

Lemma size_ab : size ab = 2%nat.
Proof. by vm_compute. Qed.

Lemma size_only_a : size only_a = 1%nat.
Proof. by vm_compute. Qed.

Lemma half_nonzero : Q2Qc (1 # 2) ≠ 0.
Proof. decide_by_compute. Qed.

Lemma half_not_one : Q2Qc (1 # 2) ≠ 1.
Proof. decide_by_compute. Qed.

(** [get_matrix(3)] on the fresh cache of [odd_b] over [{a, b}]. *)
Lemma get_matrix_fresh_falls_through_witness :
  Matrix_init ab odd_b = Ok (fresh_matrix ab odd_b) ∧
  size ab ≠ 0%nat ∧ (3 ≤ 3)%Z ∧ (3 - 3 < Z.of_nat 10)%Z ∧
  ∃ st', get_matrix 10 3 (fresh_matrix ab odd_b, []) = (Ok None, st') ∧
         cache_upto (one_step (len_alphabet ab) odd_b) 2 st'.1.
Proof.
  assert (Hk : size ab ≠ 0%nat) by (rewrite size_ab; lia).
  split; [by apply Matrix_init_fresh|]. split; [done|].
  split; [lia|]. split; [lia|].
  apply (get_matrix_fresh_falls_through ab odd_b (fresh_matrix ab odd_b) 3 10);
    [by apply Matrix_init_fresh|done|lia|lia].
Defined.






(** [get_share(3)] on the fresh cache of [odd_b]. *)
Lemma get_share_fresh_raises_witness :
  Matrix_init ab odd_b = Ok (fresh_matrix ab odd_b) ∧
  size ab ≠ 0%nat ∧ (3 ≤ 3)%Z ∧ (3 - 3 < Z.of_nat 10)%Z ∧
  get_initials odd_b ≠ ∅ ∧ get_finals odd_b ≠ ∅ ∧
  (get_share 10 3 (fresh_matrix ab odd_b, [])).1 = Raise TypeError.
Proof.
  assert (Hk : size ab ≠ 0%nat) by (rewrite size_ab; lia).
  assert (Hi : get_initials odd_b ≠ ∅) by decide_by_compute.
  assert (Hf : get_finals odd_b ≠ ∅) by decide_by_compute.
  split; [by apply Matrix_init_fresh|]. split; [done|].
  split; [lia|]. split; [lia|]. split; [done|]. split; [done|].
  apply (get_share_fresh_raises ab 10 odd_b (fresh_matrix ab odd_b) 3);
    [by apply Matrix_init_fresh|done|lia|lia|done|done].
Defined.

(** [weight] on the all-accepting automaton over the one-letter alphabet. *)
Lemma weight_unary_fails_witness :
  size only_a = 1%nat ∧
  (∀ up_to, __weight_with_matrix only_a 10 (accept_all only_a) 0 (Q2Qc (1 # 2)) up_to
            = Raise ZeroDivisionError) ∧
  (∀ w, weight only_a np_linalg_solve 10 (accept_all only_a) 0 (Q2Qc (1 # 2)) ≠ Ok w) ∧
  (∀ e, __explicit_solution only_a np_linalg_solve (accept_all only_a) (Q2Qc (1 # 2)) = Ok e →
        weight only_a np_linalg_solve 10 (accept_all only_a) 0 (Q2Qc (1 # 2))
        = Raise ZeroDivisionError) ∧
  (∀ x, __explicit_solution only_a np_linalg_solve (accept_all only_a) (Q2Qc (1 # 2)) = Raise x →
        weight only_a np_linalg_solve 10 (accept_all only_a) 0 (Q2Qc (1 # 2)) = Raise x).
Proof.
  split; [apply size_only_a|].
  exact (weight_unary_fails only_a np_linalg_solve 10 (accept_all only_a) 0
           (Q2Qc (1 # 2)) size_only_a).
Defined.

(** * The reference solver returns solutions *)

Lemma dot_nil_l (x : list Qc) : dot [] x = 0.
Proof. reflexivity. Qed.

Lemma dot_cons (a b : Qc) (l x : list Qc) : dot (a :: l) (b :: x) = a * b + dot l x.
Proof. reflexivity. Qed.

Lemma dot_scale (a : Qc) (l x : list Qc) :
  dot ((λ y, y / a) <$> l) x = dot l x / a.
Proof.
  revert x. induction l as [|b l IH]; intros [|c x]; try (unfold dot, Qcdiv; simpl; ring).
  rewrite fmap_cons, !dot_cons, IH. unfold Qcdiv. ring.
Qed.

Lemma dot_row_sub (c : Qc) (l1 l2 x : list Qc) :
  length l1 = length l2 →
  dot (row_sub c l1 l2) x = dot l1 x - c * dot l2 x.
Proof.
  revert l2 x. induction l1 as [|a l1 IH]; intros [|b l2] x Hlen; try done.
  - unfold dot. simpl. ring.
  - destruct x as [|y x]; [unfold dot; simpl; ring|].
    unfold row_sub in *. simpl. rewrite !dot_cons, IH by (simpl in Hlen; lia). ring.
Qed.

Lemma snoc_of_length {A} (n : nat) (r : list A) :
  length r = S n → ∃ l z, r = l ++ [z] ∧ length l = n.
Proof.
  intros Hr. destruct r as [|a r] using rev_ind; [done|].
  exists r, a. split; [done|]. rewrite length_app in Hr. simpl in Hr. lia.
Qed.

Lemma find_pivot_spec (rows : ndarray) (p : list Qc) (rest : ndarray) :
  find_pivot rows = Some (p, rest) →
  (∃ a p', p = a :: p' ∧ a ≠ 0) ∧ rows ≡ₚ p :: rest.
Proof.
  revert p rest. induction rows as [|r rows IH]; intros p rest Hfind; [done|].
  simpl in Hfind. destruct r as [|a r']; [done|].
  destruct (decide (a = 0)) as [Ha|Ha].
  - destruct (find_pivot rows) as [[p0 rest0]|] eqn:Hrows; [|done].
    simpl in Hfind. injection Hfind as <- <-.
    destruct (IH p0 rest0 eq_refl) as [Hp Hperm].
    split; [done|]. rewrite Hperm. apply Permutation_swap.
  - injection Hfind as <- <-. split; [by exists a, r'|done].
Qed.

(** Elimination on [n] augmented rows in [n] unknowns returns a vector
    that satisfies every row. *)
Lemma eliminate_sound (n : nat) :
  ∀ (rows : ndarray) (xs : list Qc),
    length rows = n → Forall (λ r, length r = S n) rows →
    eliminate n rows = Some xs →
    length xs = n ∧ Forall (solved_by xs) rows.
Proof.
  induction n as [|n IH]; intros rows xs Hrows Hlen Hel.
  - destruct rows; [|done]. injection Hel as <-. by split.
  - cbn [eliminate] in Hel.
    destruct (find_pivot rows) as [[p rest]|] eqn:Hfind; [|done].
    apply find_pivot_spec in Hfind as [(a & p' & -> & Ha) Hperm].
    simpl in Hel.
    set (p1 := (λ x, x / a) <$> p') in *.
    set (rest' := (λ r, match r with [] => [] | c :: r' => row_sub c r' p1 end) <$> rest) in *.
    destruct (eliminate n rest') as [ys|] eqn:Hrest; [|done].
    simpl in Hel. injection Hel as <-.
    rewrite Hperm in Hlen. apply Forall_cons_1 in Hlen as [Hp Hlen].
    assert (length rest = n) as Hn.
    { apply Permutation_length in Hperm. simpl in Hperm. lia. }
    destruct (snoc_of_length n p') as (l & z & -> & Hl); [simpl in Hp; lia|].
    assert (Hp1 : p1 = ((λ x, x / a) <$> l) ++ [z / a]) by (unfold p1; by rewrite fmap_app).
    destruct (IH rest' ys) as [Hys Hsol]; [| |done|].
    { unfold rest'. by rewrite length_fmap. }
    { unfold rest'. apply Forall_fmap. eapply list.Forall_impl; [exact Hlen|].
      intros [|c r'] Hr; [done|]. simpl in *.
      unfold row_sub. rewrite length_zip_with, Hp1, length_app, length_fmap. simpl. lia. }
    split; [simpl; lia|].
    rewrite Hperm.
    assert (Hlast : List.last p1 0 = z / a) by (rewrite Hp1; apply last_last).
    assert (Htake : take n p1 = (λ x, x / a) <$> l).
    { rewrite Hp1. apply take_app_length'. by rewrite length_fmap. }
    rewrite Hlast, Htake, dot_scale.
    constructor.
    + exists (a :: l), z. split; [done|]. split; [simpl; lia|].
      rewrite dot_cons. field. done.
    + unfold rest' in Hsol. rewrite Forall_fmap in Hsol.
      rewrite list.Forall_forall in Hsol, Hlen |- *.
      intros r Hr. specialize (Hsol r Hr). specialize (Hlen r Hr).
      destruct r as [|c r']; [done|]. simpl in Hsol, Hlen.
      destruct (snoc_of_length n r') as (lr & zr & -> & Hlr); [lia|].
      destruct Hsol as (l2 & z2 & Heq & Hl2 & Hdot).
      unfold row_sub in Heq. rewrite Hp1 in Heq.
      rewrite zip_with_app in Heq by (rewrite length_fmap; lia).
      simpl in Heq. apply app_inj_tail in Heq as [<- <-].
      fold (row_sub c lr ((λ x, x / a) <$> l)) in Hdot.
      rewrite dot_row_sub, dot_scale in Hdot by (rewrite length_fmap; lia).
      exists (c :: lr), zr. split; [done|]. split; [simpl; lia|].
      rewrite dot_cons.
      transitivity (dot lr ys - c * (dot l ys / a) + c * (z / a)); [|rewrite Hdot; ring].
      unfold Qcdiv. ring.
Qed.

Lemma solved_rows (A : ndarray) (b x : list Qc) :
  length A = length b →
  Forall (solved_by x) (zip_with (λ r c, r ++ [c]) A b) →
  mat_vec A x = b.
Proof.
  revert b. induction A as [|r A IH]; intros [|c b] Hlen Hsol; try done.
  simpl in Hsol. apply Forall_cons_1 in Hsol as [(l & z & Heq & _ & Hdot) Hsol].
  apply app_inj_tail in Heq as [-> ->].
  unfold mat_vec in *. rewrite fmap_cons, Hdot. f_equal.
  apply IH; [simpl in Hlen; lia|done].
Qed.

Lemma augmented_lengths (n : nat) (A : ndarray) (b : list Qc) :
  Forall (λ r, length r = n) A →
  Forall (λ r, length r = S n) (zip_with (λ r c, r ++ [c]) A b).
Proof.
  intros HA. revert b. induction HA as [|r A Hr HA IH]; intros [|c b]; simpl;
    try constructor.
  - rewrite length_app. simpl. lia.
  - apply IH.
Qed.

(** Whatever the reference solver returns solves the system it was
    given. *)
Lemma np_linalg_solve_sound (A : ndarray) (b x : list Qc) :
  np_linalg_solve A b = Ok x → length x = length A ∧ mat_vec A x = b.
Proof.
  unfold np_linalg_solve.
  destruct (decide _) as [(Hn & Hb & Hrows)|]; [|done].
  destruct (eliminate _ _) as [xs|] eqn:Hel; [|done].
  intros [= ->].
  apply eliminate_sound in Hel as [Hlen Hsol].
  - split; [done|]. by apply solved_rows.
  - rewrite length_zip_with. lia.
  - by apply augmented_lengths.
Qed.

(** * Further properties of the cache *)

Lemma cache_upto_sound (m : ndarray) (top : Z) (self : Matrix) :
  (1 ≤ top)%Z → cache_upto m top self → cache_sound m self.
Proof.
  intros Htop Hc. split.
  - rewrite (cache_upto_lookup m top 1 self Hc) by lia. done.
  - intros j mj Hj. rewrite (Hc j) in Hj.
    destruct (decide (1 ≤ j ≤ top)%Z); [|done]. split; [lia|congruence].
Qed.

Lemma mat_power_next (m : ndarray) (i : Z) :
  (2 ≤ i)%Z →
  matmul (mat_power m (Z.to_nat (i - 1))) m = mat_power m (Z.to_nat i).
Proof.
  intros Hi. replace (Z.to_nat i) with (S (Z.to_nat (i - 1))) by lia.
  destruct (Z.to_nat (i - 1)) as [|k] eqn:Hk; [lia|].
  by rewrite mat_power_step.
Qed.

Lemma cache_sound_insert (m : ndarray) (i : Z) (self : Matrix) (before : ndarray) :
  cache_sound m self → matrices self !! (i - 1)%Z = Some before →
  cache_sound m (set_matrices self (<[i := matmul before m]> (matrices self))).
Proof.
  intros [H1 Hall] Hb. destruct (Hall _ _ Hb) as [Hge ->].
  split; simpl.
  - rewrite lookup_insert_ne by lia. done.
  - intros j mj. destruct (decide (j = i)) as [->|Hne].
    + rewrite lookup_insert_eq. intros [= <-]. split; [lia|].
      apply mat_power_next. lia.
    + rewrite lookup_insert_ne by done. apply Hall.
Qed.

(** The outcome of one call of [get_matrix] that does not recurse. *)
Lemma get_matrix_flat (m : ndarray) (depth : nat) (i : Z) (self : Matrix)
    (t : list event) :
  cache_sound m self →
  (matrices self !! i ≠ None ∨ matrices self !! (i - 1)%Z ≠ None) →
  let out := get_matrix depth i (self, t) in
  cache_sound m out.2.1 ∧ fa out.2.1 = fa self ∧
  (1 ≤ i)%Z ∧ out.1 = Ok (Some (mat_power m (Z.to_nat i))).
Proof.
  intros Hs Hsome. cbv zeta.
  destruct (matrices self !! i) as [mi|] eqn:Hi.
  { rewrite (get_matrix_hit _ _ _ _ _ Hi). simpl.
    destruct (proj2 Hs _ _ Hi) as [? ->]. done. }
  destruct (matrices self !! (i - 1)%Z) as [before|] eqn:Hb;
    [|by destruct Hsome].
  rewrite (get_matrix_extend _ _ _ _ before m Hi Hb (proj1 Hs)). simpl.
  split; [by apply cache_sound_insert|split; [done|]].
  destruct (proj2 Hs _ _ Hb) as [Hge ->]. split; [lia|].
  do 2 f_equal. apply mat_power_next. lia.
Qed.

(** X1: whatever length is asked and whatever the recursion depth, a call of
    get_matrix on a cache whose entries are the powers of the first matrix
    leaves such a cache, keeps the automaton, and a matrix it returns is the
    power of the first matrix for the asked length. *)
Theorem get_matrix_preserves_cache_sound (m : ndarray) (depth : nat) (i : Z)
    (self : Matrix) (t : list event) :
  cache_sound m self →
  let out := get_matrix depth i (self, t) in
  cache_sound m out.2.1 ∧ fa out.2.1 = fa self ∧
  ∀ mi, out.1 = Ok (Some mi) → (1 ≤ i)%Z ∧ mi = mat_power m (Z.to_nat i).
Proof.
  intros Hs. cbv zeta. revert i t.
  induction depth as [|depth IH]; intros i t.
  - destruct (decide (matrices self !! i ≠ None ∨ matrices self !! (i - 1)%Z ≠ None))
      as [Hsome|Hnone].
    { destruct (get_matrix_flat m 0 i self t Hs Hsome) as (? & ? & ? & Hout).
      split; [done|split; [done|]]. rewrite Hout. by intros ? [= <-]. }
    destruct (matrices self !! i) eqn:Hi; [by destruct Hnone; left|].
    destruct (matrices self !! (i - 1)%Z) eqn:Hb; [by destruct Hnone; right|].
    rewrite (get_matrix_overflow _ _ _ Hi Hb). simpl. done.
  - destruct (decide (matrices self !! i ≠ None ∨ matrices self !! (i - 1)%Z ≠ None))
      as [Hsome|Hnone].
    { destruct (get_matrix_flat m (S depth) i self t Hs Hsome) as (? & ? & ? & Hout).
      split; [done|split; [done|]]. rewrite Hout. by intros ? [= <-]. }
    destruct (matrices self !! i) eqn:Hi; [by destruct Hnone; left|].
    destruct (matrices self !! (i - 1)%Z) eqn:Hb; [by destruct Hnone; right|].
    rewrite (get_matrix_recurse _ _ _ _ Hi Hb). cbv zeta.
    destruct (IH (i - 1)%Z (t ++ [Recurse i])) as (Hs' & Hfa & _).
    simpl. split; [done|split; [done|]].
    destruct (get_matrix depth (i - 1) (self, t ++ [Recurse i])).1; done.
Qed.

(** [get_matrix(3)] on the fresh cache of [odd_b] over [{a, b}]. *)
Lemma get_matrix_preserves_cache_sound_witness :
  cache_sound (one_step (len_alphabet ab) odd_b) (fresh_matrix ab odd_b) ∧
  cache_sound (one_step (len_alphabet ab) odd_b)
    (get_matrix 10 3 (fresh_matrix ab odd_b, [])).2.1 ∧
  fa (get_matrix 10 3 (fresh_matrix ab odd_b, [])).2.1 = fa (fresh_matrix ab odd_b) ∧
  ∀ mi, (get_matrix 10 3 (fresh_matrix ab odd_b, [])).1 = Ok (Some mi) →
        (1 ≤ 3)%Z ∧ mi = mat_power (one_step (len_alphabet ab) odd_b) (Z.to_nat 3).
Proof.
  assert (Hs : cache_sound (one_step (len_alphabet ab) odd_b) (fresh_matrix ab odd_b))
    by (apply (cache_upto_sound _ 1); [lia|by apply cache_upto_fresh]).
  split; [done|].
  apply (get_matrix_preserves_cache_sound _ 10 3 (fresh_matrix ab odd_b) [] Hs).
Defined.

(** X2: a call of get_matrix never removes or replaces a cached matrix, and
    it adds at most one entry, for any cache, length and recursion depth. *)
Theorem get_matrix_only_adds (depth : nat) (i : Z) (self : Matrix) (t : list event) :
  matrices self ⊆ matrices (get_matrix depth i (self, t)).2.1 ∧
  (size (matrices (get_matrix depth i (self, t)).2.1) ≤ S (size (matrices self)))%nat.
Proof.
  revert i t. induction depth as [|depth IH]; intros i t.
  - destruct (matrices self !! i) as [mi|] eqn:Hi.
    { rewrite (get_matrix_hit _ _ _ _ _ Hi). simpl. split; [done|lia]. }
    destruct (matrices self !! (i - 1)%Z) as [before|] eqn:Hb.
    + destruct (matrices self !! 1%Z) as [first|] eqn:Hf.
      * rewrite (get_matrix_extend _ _ _ _ before first Hi Hb Hf). simpl.
        split; [by apply insert_subseteq|].
        rewrite map_size_insert_None by done. lia.
      * simpl. unfold mbind, M_bind, get_self. simpl. rewrite Hi, Hb, Hf. simpl.
        split; [done|lia].
    + rewrite (get_matrix_overflow _ _ _ Hi Hb). simpl. split; [done|lia].
  - destruct (matrices self !! i) as [mi|] eqn:Hi.
    { rewrite (get_matrix_hit _ _ _ _ _ Hi). simpl. split; [done|lia]. }
    destruct (matrices self !! (i - 1)%Z) as [before|] eqn:Hb.
    + destruct (matrices self !! 1%Z) as [first|] eqn:Hf.
      * rewrite (get_matrix_extend _ _ _ _ before first Hi Hb Hf). simpl.
        split; [by apply insert_subseteq|].
        rewrite map_size_insert_None by done. lia.
      * simpl. unfold mbind, M_bind, get_self. simpl. rewrite Hi, Hb, Hf. simpl.
        split; [done|lia].
    + rewrite (get_matrix_recurse _ _ _ _ Hi Hb). cbv zeta. simpl. apply IH.
Qed.

(** X3: on a cache of powers (whose keys start at 1), asking get_matrix for a
    length below 1 descends until the interpreter's recursion limit: the call
    raises RecursionError at every depth and leaves the object as it was. *)
Theorem get_matrix_below_one (m : ndarray) (depth : nat) (i : Z) (self : Matrix)
    (t : list event) :
  cache_sound m self → (i < 1)%Z →
  (get_matrix depth i (self, t)).1 = Raise RecursionError ∧
  (get_matrix depth i (self, t)).2.1 = self.
Proof.
  intros Hs. revert i t. induction depth as [|depth IH]; intros i t Hi.
  - rewrite get_matrix_overflow; [done| |].
    + destruct (matrices self !! i) eqn:E; [|done].
      destruct (proj2 Hs _ _ E). lia.
    + destruct (matrices self !! (i - 1)%Z) eqn:E; [|done].
      destruct (proj2 Hs _ _ E). lia.
  - rewrite get_matrix_recurse.
    + cbv zeta. simpl.
      destruct (IH (i - 1)%Z (t ++ [Recurse i])) as [Hr Hst]; [lia|].
      rewrite Hr, Hst. done.
    + destruct (matrices self !! i) eqn:E; [|done].
      destruct (proj2 Hs _ _ E). lia.
    + destruct (matrices self !! (i - 1)%Z) eqn:E; [|done].
      destruct (proj2 Hs _ _ E). lia.
Qed.

(** [get_matrix(0)] on the fresh cache of [odd_b] over [{a, b}]. *)
Lemma get_matrix_below_one_witness :
  cache_sound (one_step (len_alphabet ab) odd_b) (fresh_matrix ab odd_b) ∧
  (0 < 1)%Z ∧
  (get_matrix 10 0 (fresh_matrix ab odd_b, [])).1 = Raise RecursionError ∧
  (get_matrix 10 0 (fresh_matrix ab odd_b, [])).2.1 = fresh_matrix ab odd_b.
Proof.
  assert (Hs : cache_sound (one_step (len_alphabet ab) odd_b) (fresh_matrix ab odd_b))
    by (apply (cache_upto_sound _ 1); [lia|by apply cache_upto_fresh]).
  split; [done|]. split; [lia|].
  apply (get_matrix_below_one _ 10 0 (fresh_matrix ab odd_b) [] Hs). lia.
Defined.

(** The descent of [get_matrix] through uncached lengths, down to the first
    length above the cache. *)
Lemma get_matrix_descent (m : ndarray) (top : Z) (self : Matrix) (n depth : nat)
    (t : list event) :
  (1 ≤ top)%Z → cache_upto m top self →
  ((n < depth)%nat →
   ∃ st', get_matrix depth (top + 2 + Z.of_nat n) (self, t) = (Ok None, st') ∧
          cache_upto m (top + 1) st'.1 ∧ fa st'.1 = fa self) ∧
  ((depth ≤ n)%nat →
   ∃ t', get_matrix depth (top + 2 + Z.of_nat n) (self, t)
         = (Raise RecursionError, (self, t'))).
Proof.
  intros Htop Hc. revert n t. induction depth as [|depth IH]; intros n t.
  - split; [lia|]. intros _. eexists. apply get_matrix_overflow.
    all: apply (cache_upto_above m top); [done|lia].
  - assert (matrices self !! (top + 2 + Z.of_nat n)%Z = None) as Hi
      by (apply (cache_upto_above m top); [done|lia]).
    assert (matrices self !! (top + 2 + Z.of_nat n - 1)%Z = None) as Hb
      by (apply (cache_upto_above m top); [done|lia]).
    rewrite (get_matrix_recurse _ _ _ _ Hi Hb). cbv zeta.
    destruct n as [|n].
    + split; [intros _|lia].
      replace (top + 2 + Z.of_nat 0 - 1)%Z with (top + 1)%Z by lia.
      destruct (get_matrix_next depth m top (top + 1) self
                  (t ++ [Recurse (top + 2 + Z.of_nat 0)]))
        as (self' & Hrun & Hfa & Hc'); [lia|done|lia|].
      rewrite Hrun. simpl. eexists. split; [done|]. simpl. split; [|done].
      by replace (Z.max top (top + 1)) with (top + 1)%Z in Hc' by lia.
    + replace (top + 2 + Z.of_nat (S n) - 1)%Z with (top + 2 + Z.of_nat n)%Z by lia.
      destruct (IH n (t ++ [Recurse (top + 2 + Z.of_nat (S n))])) as [IHok IHbad].
      split; intros Hd.
      * destruct IHok as (st' & Hrun & Hrest); [lia|].
        rewrite Hrun. simpl. by eexists.
      * destruct IHbad as (t' & Hrun); [lia|].
        rewrite Hrun. simpl. by eexists.
Qed.

(** X4: when the cache holds the powers for the lengths 1..top and the asked
    length i lies two or more above top, get_matrix returns no matrix (None)
    and the cache afterwards holds the lengths 1..top+1, provided the descent
    of i - top - 1 nested calls fits the recursion limit; when it does not,
    the call raises RecursionError and the object is unchanged. *)
Theorem get_matrix_gap_advances_by_one (m : ndarray) (top i : Z) (self : Matrix)
    (depth : nat) (t : list event) :
  (1 ≤ top)%Z → cache_upto m top self → (top + 2 ≤ i)%Z →
  let out := get_matrix depth i (self, t) in
  if decide (i - top - 2 < Z.of_nat depth)%Z
  then out.1 = Ok None ∧ cache_upto m (top + 1) out.2.1 ∧ fa out.2.1 = fa self
  else out.1 = Raise RecursionError ∧ out.2.1 = self.
Proof.
  intros Htop Hc Hi. cbv zeta.
  replace i with (top + 2 + Z.of_nat (Z.to_nat (i - top - 2)))%Z by lia.
  destruct (get_matrix_descent m top self (Z.to_nat (i - top - 2)) depth t Htop Hc)
    as [Hok Hbad].
  destruct (decide _) as [Hd|Hd].
  - destruct Hok as (st' & Hrun & Hrest); [lia|]. rewrite Hrun. done.
  - destruct Hbad as (t' & Hrun); [lia|]. rewrite Hrun. done.
Qed.

(** [get_matrix(5)] on the fresh cache of [odd_b] over [{a, b}]. *)
Lemma get_matrix_gap_advances_by_one_witness :
  (1 ≤ 1)%Z ∧
  cache_upto (one_step (len_alphabet ab) odd_b) 1 (fresh_matrix ab odd_b) ∧
  (1 + 2 ≤ 5)%Z ∧
  (get_matrix 10 5 (fresh_matrix ab odd_b, [])).1 = Ok None ∧
  cache_upto (one_step (len_alphabet ab) odd_b) (1 + 1)
    (get_matrix 10 5 (fresh_matrix ab odd_b, [])).2.1 ∧
  fa (get_matrix 10 5 (fresh_matrix ab odd_b, [])).2.1 = fa (fresh_matrix ab odd_b).
Proof.
  assert (Hc : cache_upto (one_step (len_alphabet ab) odd_b) 1 (fresh_matrix ab odd_b))
    by by apply cache_upto_fresh.
  split; [lia|]. split; [done|]. split; [lia|].
  apply (get_matrix_gap_advances_by_one _ 1 5 (fresh_matrix ab odd_b) 10 []);
    [lia|done|lia].
Defined.

(** * Further properties of [get_share] *)

(** [get_share] when the asked power is cached. *)
Lemma get_share_hit (limit : nat) (i : Z) (self : Matrix) (t : list event)
    (mi : ndarray) :
  (1 ≤ i)%Z → matrices self !! i = Some mi →
  get_share limit i (self, t)
  = (fold_result (λ share initial,
        fold_result (λ share final,
            x ← getitem2 (Some mi) initial final; Ok (share + x))
          share (elements (get_finals (fa self))))
       0 (elements (get_initials (fa self))),
     (self, t ++ [Asked i; Hit i])).
Proof.
  intros Hi Hm. unfold get_share.
  unfold mbind at 1. unfold M_bind at 1. unfold observe at 1.
  cbv beta iota. destruct (decide (i < 1)%Z); [lia|].
  cbn [fst snd].
  erewrite M_bind_run; [|by apply get_matrix_hit].
  rewrite <- app_assoc. done.
Qed.

(** X5: asking get_share twice for the same length (cached, or next to the
    cached lengths) gives the same value both times, and the second call
    leaves the object as the first one left it. *)
Theorem get_share_twice (limit : nat) (m : ndarray) (top i : Z) (self : Matrix)
    (t : list event) :
  (1 ≤ top)%Z → cache_upto m top self → (1 ≤ i ≤ top + 1)%Z →
  square (get_number_of_states (fa self)) m → states_in_range (fa self) →
  ∃ v st1 t2,
    get_share limit i (self, t) = (Ok v, st1) ∧
    get_share limit i st1 = (Ok v, (st1.1, t2)) ∧
    v = share_of (fa self) (mat_power m (Z.to_nat i)).
Proof.
  intros Htop Hc Hi Hsq Hrange.
  destruct (get_share_next limit m top i self t Htop Hc Hi Hsq Hrange)
    as (self1 & Hrun & Hfa & Hc1).
  eexists _, _, _. split; [exact Hrun|]. split; [|done].
  rewrite (get_share_hit limit i self1 _ (mat_power m (Z.to_nat i))); [|lia|].
  2: { apply (cache_upto_lookup m (Z.max top i)); [done|lia]. }
  rewrite Hfa.
  destruct (states_in_range_lists _ Hrange) as [Hss Hfs].
  rewrite (share_fold (get_number_of_states (fa self))); [| |done|done].
  - cbn [fst]. rewrite Qcplus_0_l. reflexivity.
  - by apply mat_power_square.
Qed.

(** [get_share(2)] twice on the fresh object of [odd_b] over [{a, b}]. *)
Lemma get_share_twice_witness :
  (1 ≤ 1)%Z ∧
  cache_upto (one_step (len_alphabet ab) odd_b) 1 (fresh_matrix ab odd_b) ∧
  (1 ≤ 2 ≤ 1 + 1)%Z ∧
  square (get_number_of_states (fa (fresh_matrix ab odd_b)))
    (one_step (len_alphabet ab) odd_b) ∧
  states_in_range (fa (fresh_matrix ab odd_b)) ∧
  ∃ v st1 t2,
    get_share 10 2 (fresh_matrix ab odd_b, []) = (Ok v, st1) ∧
    get_share 10 2 st1 = (Ok v, (st1.1, t2)) ∧
    v = share_of (fa (fresh_matrix ab odd_b))
          (mat_power (one_step (len_alphabet ab) odd_b) (Z.to_nat 2)).
Proof.
  assert (Hc : cache_upto (one_step (len_alphabet ab) odd_b) 1 (fresh_matrix ab odd_b))
    by by apply cache_upto_fresh.
  assert (Hsq : square (get_number_of_states (fa (fresh_matrix ab odd_b)))
                  (one_step (len_alphabet ab) odd_b)) by apply one_step_square.
  assert (Hrange : states_in_range (fa (fresh_matrix ab odd_b))) by decide_by_compute.
  split; [lia|]. split; [done|]. split; [lia|]. split; [done|]. split; [done|].
  apply (get_share_twice 10 _ 1 2 (fresh_matrix ab odd_b) []); [lia|done|lia|done|done].
Defined.

(** Subscripting a square array. *)
Lemma getitem2_cases (n : nat) (m : ndarray) (s f : nat) :
  square n m →
  getitem2 (Some m) s f
  = if decide (s < n ∧ f < n)%nat then Ok (entry m s f) else Raise IndexError.
Proof.
  intros Hm. destruct (decide (s < n ∧ f < n)%nat) as [[Hs Hf]|Hout].
  - by apply (getitem2_entry n).
  - destruct Hm as [Hlen Hrows]. unfold getitem2, getitem.
    destruct (m !! s) as [row|] eqn:Hrow; [|done]. simpl.
    assert (length row = n) as Hr by (eapply (Forall_lookup_1 _ _ _ _ Hrows Hrow)).
    assert (s < n)%nat by (rewrite <- Hlen; by eapply lookup_lt_Some).
    destruct (row !! f) eqn:Hf; [|done].
    apply lookup_lt_Some in Hf. lia.
Qed.

Local Ltac goal_decide :=
  match goal with |- context [decide ?P] => destruct (decide P) end.

Local Ltac range_cases :=
  exfalso; rewrite ?list.Forall_cons in *;
  intuition (subst; try discriminate; auto using Forall_nil_2).

Lemma share_row_cases (n : nat) (m : ndarray) (s : nat) (fs : list nat) (acc : Qc) :
  square n m →
  fold_result (λ share final, x ← getitem2 (Some m) s final; Ok (share + x)) acc fs
  = if decide (fs = [] ∨ (s < n)%nat ∧ Forall (λ f, f < n)%nat fs)
    then Ok (acc + Qc_sum (entry m s <$> fs)) else Raise IndexError.
Proof.
  intros Hm. revert acc. induction fs as [|f fs IH]; intros acc.
  - cbn [fold_result]. goal_decide; [|range_cases].
    f_equal. unfold Qc_sum. simpl. ring.
  - rewrite fold_result_cons. cbv beta. rewrite (getitem2_cases n) by done.
    destruct (decide (s < n ∧ f < n)%nat) as [[Hs Hf]|Hout].
    + rewrite !bind_Ok, IH. clear IH. repeat goal_decide.
      * f_equal. rewrite fmap_cons, Qc_sum_cons. ring.
      * range_cases.
      * range_cases.
      * done.
    + clear IH. cbn [mbind result_bind]. goal_decide; [range_cases|done].
Qed.

Lemma share_cases (n : nat) (m : ndarray) (ss fs : list nat) (acc : Qc) :
  square n m →
  fold_result (λ share initial,
     fold_result (λ share final, x ← getitem2 (Some m) initial final; Ok (share + x))
       share fs) acc ss
  = if decide (ss = [] ∨ fs = [] ∨
               Forall (λ s, s < n)%nat ss ∧ Forall (λ f, f < n)%nat fs)
    then Ok (acc + Qc_sum ((λ s, Qc_sum (entry m s <$> fs)) <$> ss))
    else Raise IndexError.
Proof.
  intros Hm. revert acc. induction ss as [|s ss IH]; intros acc.
  - cbn [fold_result]. goal_decide; [|range_cases].
    f_equal. unfold Qc_sum. simpl. ring.
  - rewrite fold_result_cons. cbv beta. rewrite (share_row_cases n) by done.
    destruct (decide (fs = [] ∨ (s < n)%nat ∧ Forall (λ f, f < n)%nat fs))
      as [Hrow|Hrow].
    + rewrite bind_Ok, IH. clear IH. repeat goal_decide.
      * f_equal. rewrite fmap_cons, Qc_sum_cons. ring.
      * range_cases.
      * range_cases.
      * done.
    + clear IH. cbn [mbind result_bind]. goal_decide; [range_cases|done].
Qed.

(** X6: get_share on a cached square matrix subscripts it with every pair of
    an initial and a final state and checks nothing before: it returns the sum
    of the entries when there is no such pair or all these states are below
    the dimension, and raises IndexError otherwise. *)
Theorem get_share_index_error (limit : nat) (n : nat) (i : Z) (self : Matrix)
    (t : list event) (mi : ndarray) :
  (1 ≤ i)%Z → matrices self !! i = Some mi → square n mi →
  (get_share limit i (self, t)).1
  = if decide (get_initials (fa self) = ∅ ∨ get_finals (fa self) = ∅ ∨
               set_Forall (λ s, s < n)%nat (get_initials (fa self)) ∧
               set_Forall (λ s, s < n)%nat (get_finals (fa self)))
    then Ok (share_of (fa self) mi) else Raise IndexError.
Proof.
  intros Hi Hm Hsq. rewrite (get_share_hit limit i self t mi Hi Hm). cbn [fst].
  rewrite (share_cases n) by done.
  assert (∀ X : gset nat, Forall (λ s, s < n)%nat (elements X)
                          ↔ set_Forall (λ s, s < n)%nat X) as Hall.
  { intros X. rewrite list.Forall_forall. unfold set_Forall.
    split; intros H x Hx; apply H; by apply elem_of_elements. }
  assert (∀ X : gset nat, elements X = [] ↔ X = ∅) as Hnil.
  { intros X. rewrite elements_empty_iff. split; intros H; by apply leibniz_equiv in H || rewrite H. }
  destruct (decide (elements _ = [] ∨ _)) as [Hin|Hout];
    destruct (decide (get_initials _ = ∅ ∨ _)) as [Hin'|Hout'].
  - rewrite Qcplus_0_l. reflexivity.
  - destruct Hout'. rewrite !Hnil, !Hall in Hin. done.
  - destruct Hout. rewrite !Hnil, !Hall. done.
  - done.
Qed.

(** [get_share(1)] on the fresh object of [stray_final], whose final state 5
    is beyond the two states. *)
Lemma get_share_index_error_witness :
  (1 ≤ 1)%Z ∧
  matrices (fresh_matrix ab stray_final) !! 1%Z
    = Some (one_step (len_alphabet ab) stray_final) ∧
  square 2 (one_step (len_alphabet ab) stray_final) ∧
  (get_share 10 1 (fresh_matrix ab stray_final, [])).1 = Raise IndexError.
Proof.
  assert (Hsq : square 2 (one_step (len_alphabet ab) stray_final))
    by apply one_step_square.
  split; [lia|]. split; [done|]. split; [done|].
  etrans; [apply (get_share_index_error 10 2 1 (fresh_matrix ab stray_final) []
                    (one_step (len_alphabet ab) stray_final)); [lia|done|done]|].
  by vm_compute.
Defined.

(** * Construction and the degenerate inputs *)

(** X7: the constructor Matrix(fa) fails exactly when the alphabet is empty
    and the automaton has a state, with ZeroDivisionError from the division by
    the alphabet size; in every other case it returns the object whose cache
    holds one entry, the n-by-n array of TransitionCount(q,p) / k under key 1. *)
Theorem Matrix_init_outcome (alphabet : gset string) (dfa : FiniteAutomata) :
  Matrix_init alphabet dfa
  = if decide (size alphabet = 0 ∧ get_number_of_states dfa ≠ 0)%nat
    then Raise ZeroDivisionError
    else Ok (fresh_matrix alphabet dfa).
Proof.
  destruct (decide (size alphabet = 0 ∧ get_number_of_states dfa ≠ 0)%nat)
    as [[Hk Hn]|Hok].
  - unfold Matrix_init, __initial_matrix, len_alphabet. rewrite Hk.
    destruct (get_number_of_states dfa) as [|n]; [done|].
    cbn [seq map_result]. cbv zeta. change (Z.of_nat 0) with 0%Z.
    by rewrite Z2Qc_inj_0, py_div_zero.
  - destruct (decide (size alphabet = 0%nat)) as [Hk|Hk].
    + assert (get_number_of_states dfa = 0%nat) as Hn by lia.
      unfold Matrix_init, __initial_matrix, fresh_matrix, one_step.
      rewrite Hn. reflexivity.
    + by apply Matrix_init_fresh.
Qed.



(** X9: an automaton without initial state never gets a weight: the exact
    solver sets up and solves the whole system first and only then asks for
    the least initial state, so the call ends with ValueError unless the
    division by the alphabet size or the linear solver has raised before. *)
Theorem explicit_solution_no_initial (alphabet : gset string)
    (solve : ndarray → list Qc → result (list Qc)) (limit : nat)
    (dfa : FiniteAutomata) (eta : Z) (lam : Qc) :
  get_initials dfa = ∅ →
  ∃ e, __explicit_solution alphabet solve dfa lam = Raise e ∧
       weight alphabet solve limit dfa eta lam = Raise e ∧
       (e = ValueError ∨ (e = ZeroDivisionError ∧ size alphabet = 0%nat) ∨
        ∃ A b, solve A b = Raise e).
Proof.
  intros Hno.
  assert (∃ e, __explicit_solution alphabet solve dfa lam = Raise e ∧
               (e = ValueError ∨ (e = ZeroDivisionError ∧ size alphabet = 0%nat) ∨
                ∃ A b, solve A b = Raise e)) as (e & He & Hwhy).
  { unfold __explicit_solution. unfold py_div at 1.
    destruct (decide (Qc_of_Z (len_alphabet alphabet) = 0)) as [Hk|Hk].
    { exists ZeroDivisionError. split; [done|]. right. left. split; [done|].
      apply Qc_of_Z_eq_0 in Hk. unfold len_alphabet in Hk. lia. }
    rewrite bind_Ok. cbv zeta.
    match goal with |- context [solve ?A ?b] => destruct (solve A b) as [x|e] eqn:Hs end.
    - rewrite bind_Ok, Hno, py_min_empty. exists ValueError. split; [done|]. by left.
    - exists e. split; [done|]. right. right. by eexists _, _. }
  exists e. split; [done|]. split; [|done]. unfold weight. by rewrite He.
Qed.

(** The exact solver on [no_start] over [{a, b}] at [lam = 1/2]. *)
Lemma explicit_solution_no_initial_witness :
  get_initials no_start = ∅ ∧
  ∃ e, __explicit_solution ab np_linalg_solve no_start (Q2Qc (1 # 2)) = Raise e ∧
       weight ab np_linalg_solve 10 no_start 3 (Q2Qc (1 # 2)) = Raise e ∧
       (e = ValueError ∨ (e = ZeroDivisionError ∧ size ab = 0%nat) ∨
        ∃ A b, np_linalg_solve A b = Raise e).
Proof.
  split; [done|].
  by apply (explicit_solution_no_initial ab np_linalg_solve 10 no_start 3 (Q2Qc (1 # 2))).
Defined.


(** * Automata without final states *)

Lemma Qc_sum_zero {A} (f : A → Qc) (l : list A) :
  (∀ x, x ∈ l → f x = 0) → Qc_sum (f <$> l) = 0.
Proof.
  induction l as [|x l IH]; intros Hf; [done|].
  rewrite fmap_cons, Qc_sum_cons, Hf by left.
  rewrite IH; [ring|]. intros y Hy. apply Hf. by right.
Qed.

Lemma share_of_no_finals (dfa : FiniteAutomata) (m : ndarray) :
  get_finals dfa = ∅ → share_of dfa m = 0.
Proof.
  intros Hf. unfold share_of. rewrite Hf, elements_empty.
  by apply Qc_sum_zero.
Qed.

Lemma py_round_0 : py_round 0 = 0%Z.
Proof. rewrite <- Z2Qc_inj_0. apply py_round_of_Z. Qed.

Lemma plateau_no_finals (k : Z) (dfa : FiniteAutomata) (eta : Z) (lam : Qc) :
  get_finals dfa = ∅ → plateau_weight k dfa eta lam = 0.
Proof.
  intros Hf. unfold plateau_weight.
  destruct (decide (get_initials dfa ## get_finals dfa)) as [_|Hnot].
  2:{ destruct Hnot. rewrite Hf. apply disjoint_empty_r. }
  rewrite Qc_sum_zero; [ring|]. intros i _.
  unfold Share. rewrite share_of_no_finals by done.
  rewrite Qcmult_0_l, py_round_0, Z2Qc_inj_0. ring.
Qed.

Lemma tail_no_finals (k : Z) (dfa : FiniteAutomata) (eta : Z) (lam : Qc) (up_to : Z) :
  get_finals dfa = ∅ → tail_sum k dfa eta lam up_to = 0.
Proof.
  intros Hf. unfold tail_sum. apply Qc_sum_zero. intros i _.
  unfold Share. rewrite share_of_no_finals by done. ring.
Qed.



(** * Complete automata *)

Lemma Qc_sum_perm (l1 l2 : list Qc) : l1 ≡ₚ l2 → Qc_sum l1 = Qc_sum l2.
Proof.
  induction 1 as [|x l1 l2 _ IH|x y l|l1 l2 l3 _ IH1 _ IH2].
  - done.
  - by rewrite !Qc_sum_cons, IH.
  - rewrite !Qc_sum_cons. ring.
  - by rewrite IH1.
Qed.

Lemma indicator_sum_seq (q n : nat) :
  (q < n)%nat →
  sum_list_with (λ p, if decide (q = p) then 1%nat else 0%nat) (seq 0 n) = 1%nat.
Proof.
  intros Hq.
  assert (seq 0 n = seq 0 q ++ q :: seq (S q) (n - S q)) as ->.
  { replace n with (q + S (n - S q))%nat at 1 by lia.
    rewrite seq_app. simpl. done. }
  rewrite sum_list_with_app. simpl.
  destruct (decide (q = q)); [|done].
  rewrite !indicator_sum_notin; [done| |].
  - rewrite elem_of_seq. lia.
  - rewrite elem_of_seq. lia.
Qed.

(** When all targets are states, the transition counts of a state add up to
    the number of its transitions. *)
Lemma count_sum_eq (succs : list (nat * string)) (n : nat) :
  Forall (λ ps : nat * string, ps.1 < n)%nat succs →
  sum_list_with (λ p, length (filter (λ ps : nat * string, ps.1 = p) succs)) (seq 0 n)
  = length succs.
Proof.
  induction 1 as [|[q a] succs Hq Hsuccs IH]; simpl.
  - induction (seq 0 n) as [|p l IHl]; simpl; [done|]. by rewrite IHl.
  - transitivity
      (sum_list_with (λ p, if decide (q = p) then 1%nat else 0%nat) (seq 0 n)
       + sum_list_with (λ p, length (filter (λ ps : nat * string, ps.1 = p) succs))
           (seq 0 n))%nat.
    + clear. induction (seq 0 n) as [|p l IHl]; simpl; [done|].
      rewrite filter_cons. simpl. destruct (decide (q = p)); simpl; lia.
    + rewrite IH, indicator_sum_seq by done. done.
Qed.

Lemma total_out_degree (alphabet : gset string) (dfa : FiniteAutomata) (q : nat) :
  deterministic alphabet dfa → total alphabet dfa →
  (q < get_number_of_states dfa)%nat →
  length (get_all_successors_with_letter dfa q) = size alphabet.
Proof.
  intros Hdet Htot Hq. unfold deterministic, total in *.
  rewrite list.Forall_forall in Hdet, Htot.
  destruct (Hdet q) as [Hnd Hin]; [apply elem_of_seq; lia|].
  specialize (Htot q). rewrite elem_of_seq in Htot.
  assert (Hall : Forall (λ a, a ∈ letters dfa q) (elements alphabet))
    by (apply Htot; lia).
  unfold letters in *.
  rewrite <- (length_fmap snd), <- (size_list_to_set (C := gset string)) by done.
  f_equal. apply set_eq. intros a. rewrite elem_of_list_to_set.
  rewrite list.Forall_forall in Hin, Hall. split; [apply Hin|].
  intros Ha. apply Hall. by apply elem_of_elements.
Qed.

Lemma one_step_stochastic (alphabet : gset string) (dfa : FiniteAutomata) :
  size alphabet ≠ 0%nat → deterministic alphabet dfa → total alphabet dfa →
  targets_in_range dfa →
  stochastic (get_number_of_states dfa) (one_step (len_alphabet alphabet) dfa).
Proof.
  intros Hk Hdet Htot Htargets. unfold stochastic, one_step.
  apply Forall_fmap, list.Forall_forall. intros q Hq. simpl.
  split; [by rewrite length_fmap, length_seq|].
  unfold targets_in_range in Htargets. rewrite list.Forall_forall in Htargets.
  specialize (Htargets q Hq). apply elem_of_seq in Hq.
  unfold TransitionCount.
  rewrite (Qc_sum_counts
    (λ p, length (filter (λ ps : nat * string, ps.1 = p)
                    (get_all_successors_with_letter dfa q)))).
  rewrite count_sum_eq by done.
  rewrite (total_out_degree alphabet) by (done || lia).
  unfold len_alphabet. field. rewrite Qc_of_Z_eq_0. lia.
Qed.

Lemma row_times_sum (n : nat) (B : ndarray) (row : list Qc) :
  stochastic n B → length row = length B →
  Qc_sum (row_times n row B) = Qc_sum row.
Proof.
  intros HB. revert row. induction HB as [|b B [Hb Hsum] HB IH]; intros [|a row] Hlen;
    try done.
  - simpl. apply Qc_sum_replicate_0.
  - simpl in *. rewrite Qc_sum_vec_add.
    + rewrite Qc_sum_vec_scale, Hsum, IH, Qc_sum_cons by lia. ring.
    + unfold vec_scale. rewrite length_fmap, Hb. symmetry. apply row_times_length.
      eapply list.Forall_impl; [exact HB|]. by intros r [? _].
Qed.

Lemma matmul_stochastic (n : nat) (A B : ndarray) :
  length B = n → stochastic n A → stochastic n B → stochastic n (matmul A B).
Proof.
  intros Hlen HA HB. unfold matmul, stochastic. apply Forall_fmap.
  eapply list.Forall_impl; [exact HA|].
  intros row [Hr Hsum]. simpl. rewrite Hlen. split.
  - apply row_times_length. eapply list.Forall_impl; [exact HB|]. by intros r [? _].
  - rewrite (row_times_sum n B row) by (done || lia). done.
Qed.

Lemma mat_power_stochastic (n : nat) (m : ndarray) (i : nat) :
  length m = n → stochastic n m → stochastic n (mat_power m (S i)).
Proof.
  intros Hlen Hm. induction i as [|i IH]; [done|].
  rewrite mat_power_step. by apply matmul_stochastic.
Qed.



Lemma share_of_all_final (dfa : FiniteAutomata) (m : ndarray) (q0 : nat) :
  stochastic (get_number_of_states dfa) m →
  length m = get_number_of_states dfa →
  all_final dfa → get_initials dfa = {[ q0 ]} →
  (q0 < get_number_of_states dfa)%nat →
  share_of dfa m = 1.
Proof.
  intros Hm Hlen Hall Hi Hq0. unfold share_of.
  rewrite Hi, elements_singleton, fmap_cons, fmap_nil, Qc_sum_singleton.
  rewrite Hall.
  rewrite (Qc_sum_perm _ (entry m q0 <$> seq 0 (get_number_of_states dfa))).
  2:{ apply fmap_Permutation, elements_list_to_set, NoDup_seq. }
  destruct (lookup_lt_is_Some_2 m q0) as [row Hrow]; [lia|].
  unfold stochastic in Hm. rewrite list.Forall_forall in Hm.
  destruct (Hm row) as [Hr Hsum]; [by eapply list_elem_of_lookup_2|].
  rewrite <- Hsum, <- (Qc_sum_lookups row), Hr.
  f_equal. apply list_fmap_ext. intros _ f _. unfold entry. by rewrite Hrow.
Qed.

Lemma all_final_in_range (dfa : FiniteAutomata) (q0 : nat) :
  all_final dfa → get_initials dfa = {[ q0 ]} →
  (q0 < get_number_of_states dfa)%nat → states_in_range dfa.
Proof.
  intros Hall Hi Hq0. unfold states_in_range. rewrite Hi, Hall. split.
  - intros s Hs. apply elem_of_singleton in Hs. by subst.
  - intros s Hs. apply elem_of_list_to_set, elem_of_seq in Hs. lia.
Qed.



(** * The sweeps over eta and lambda *)

(** A loop that appends one result per round builds the list of the results. *)
Lemma fold_result_append {A B} (f : A → result B) (l : list A) (acc : list B) :
  fold_result (λ acc x, y ← f x; Ok (acc ++ [y])) acc l
  = (ys ← map_result f l; Ok (acc ++ ys)).
Proof.
  revert acc. induction l as [|x l IH]; intros acc.
  - simpl. by rewrite app_nil_r.
  - rewrite fold_result_cons. cbn [map_result].
    destruct (f x) as [y|e]; [|done]. rewrite !bind_Ok, IH.
    destruct (map_result f l) as [ys|e]; [|done].
    rewrite !bind_Ok. by rewrite <- app_assoc.
Qed.

Lemma fold_result_ext {A B} (f g : A → B → result A) (acc : A) (l : list B) :
  (∀ acc x, f acc x = g acc x) → fold_result f acc l = fold_result g acc l.
Proof.
  intros Hfg. revert acc. induction l as [|x l IH]; intros acc; [done|].
  rewrite !fold_result_cons, Hfg. destruct (g acc x); [apply IH|done].
Qed.

Lemma map_result_Forall2 {A B} (f : A → result B) (l : list A) (ys : list B) :
  map_result f l = Ok ys ↔ Forall2 (λ x y, f x = Ok y) l ys.
Proof.
  revert ys. induction l as [|x l IH]; intros ys; simpl.
  - split; [intros [= <-]; constructor|]. by intros ->%Forall2_nil_inv_l.
  - destruct (f x) as [y|e] eqn:Hx; simpl.
    + destruct (map_result f l) as [ys'|e] eqn:Hl; simpl.
      * split.
        -- intros [= <-]. constructor; [done|]. by apply IH.
        -- intros (y' & ys'' & Hy & Hys & ->)%Forall2_cons_inv_l.
           apply IH in Hys. congruence.
      * split; [done|].
        intros (y' & ys'' & Hy & Hys & ->)%Forall2_cons_inv_l.
        apply IH in Hys. done.
    + split; [done|].
      intros (y' & ys'' & Hy & Hys & ->)%Forall2_cons_inv_l. congruence.
Qed.

(** X14: weight_values returns the table of weight(dfa, eta, lam) with one
    row per lambda and one column per eta, in the order of the two lists; it
    returns exactly when every one of these calls returns, and otherwise ends
    with the exception of the first failing call in row-major order. *)
Theorem weight_values_table (alphabet : gset string)
    (solve : ndarray → list Qc → result (list Qc)) (limit : nat)
    (dfa : FiniteAutomata) (etas : list Z) (lams : list Qc) :
  weight_values alphabet solve limit dfa etas lams
  = map_result (λ lam, map_result (λ eta, weight alphabet solve limit dfa eta lam) etas)
      lams ∧
  ∀ z, weight_values alphabet solve limit dfa etas lams = Ok z ↔
       Forall2 (λ lam row,
           Forall2 (λ eta w, weight alphabet solve limit dfa eta lam = Ok w) etas row)
         lams z.
Proof.
  assert (weight_values alphabet solve limit dfa etas lams
          = map_result (λ lam, map_result
                          (λ eta, weight alphabet solve limit dfa eta lam) etas) lams)
    as Heq.
  { unfold weight_values.
    rewrite (fold_result_ext _
               (λ res lam,
                  i_res ← map_result
                            (λ eta, weight alphabet solve limit dfa eta lam) etas;
                  Ok (res ++ [i_res]))).
    2:{ intros res lam. rewrite fold_result_append.
        by destruct (map_result _ etas). }
    rewrite fold_result_append. by destruct (map_result _ lams). }
  split; [done|]. intros z. rewrite Heq, map_result_Forall2.
  split; intros H; (eapply list.Forall2_impl; [exact H|]); intros lam row Hrow;
    by apply map_result_Forall2.
Qed.

Lemma fold_result_append3 {A X Y Z} (g : A → result (X * Y * Z)) (l : list A)
    (acc : list X * list Y * list Z) :
  fold_result (λ acc x, w ← g x;
                 Ok (acc.1.1 ++ [w.1.1], acc.1.2 ++ [w.1.2], acc.2 ++ [w.2])) acc l
  = (ws ← map_result g l;
     Ok (acc.1.1 ++ ((λ w, w.1.1) <$> ws), acc.1.2 ++ ((λ w, w.1.2) <$> ws),
         acc.2 ++ ((λ w, w.2) <$> ws))).
Proof.
  revert acc. induction l as [|x l IH]; intros [[a b] c].
  - simpl. by rewrite !app_nil_r.
  - rewrite fold_result_cons. cbn [map_result].
    destruct (g x) as [w|e]; [|done]. rewrite !bind_Ok, IH.
    destruct (map_result g l) as [ws|e]; [|done].
    rewrite !bind_Ok. simpl. by rewrite <- !app_assoc.
Qed.

Lemma map_result_fmap {A B C} (f : A → result B) (k : B → C) (l : list A) :
  map_result (λ x, y ← f x; (Ok (k y) : result C)) l
  = (ys ← map_result f l; (Ok (k <$> ys) : result (list C))).
Proof.
  induction l as [|x l IH]; [done|]. cbn [map_result].
  destruct (f x) as [y|e]; [|done]. rewrite !bind_Ok, IH.
  by destruct (map_result f l).
Qed.

(** [__weight_sym_values] as the three columns of the table of triples. *)
Lemma weight_sym_values_table_eq (alphabet : gset string)
    (solve : ndarray → list Qc → result (list Qc)) (limit : nat)
    (subsets_symmetric_difference :
       FiniteAutomata → FiniteAutomata → FiniteAutomata * FiniteAutomata)
    (is_empty : FiniteAutomata → bool)
    (fa_a fa_b : FiniteAutomata) (etas : list Z) (lams : list Qc) :
  __weight_sym_values alphabet solve limit subsets_symmetric_difference is_empty
    fa_a fa_b etas lams
  = (table ← map_result (λ lam,
                map_result (λ eta,
                    weight_diff alphabet solve limit subsets_symmetric_difference
                      is_empty fa_a fa_b eta lam) etas) lams;
     Ok (table_columns table)).
Proof.
  unfold __weight_sym_values.
  erewrite fold_result_ext.
  2:{ intros res lam. rewrite (fold_result_append3 _ etas ([], [], [])).
      cbn [fst snd app]. reflexivity. }
  rewrite (fold_result_append3 _ lams ([], [], [])).
  rewrite map_result_fmap.
  destruct (map_result _ lams) as [table|e]; [|done].
  rewrite !bind_Ok. cbn [fst snd app]. unfold table_columns.
  by rewrite <- !list_fmap_compose.
Qed.


Lemma weight_diff_sum (alphabet : gset string)
    (solve : ndarray → list Qc → result (list Qc)) (limit : nat)
    (subsets_symmetric_difference :
       FiniteAutomata → FiniteAutomata → FiniteAutomata * FiniteAutomata)
    (is_empty : FiniteAutomata → bool)
    (fa_a fa_b : FiniteAutomata) (eta : Z) (lam : Qc) (w : Qc * Qc * Qc) :
  weight_diff alphabet solve limit subsets_symmetric_difference is_empty
    fa_a fa_b eta lam = Ok w →
  w.2 = w.1.1 + w.1.2.
Proof.
  unfold weight_diff. cbv zeta.
  destruct (if is_empty (subsets_symmetric_difference fa_a fa_b).1 then _ else _)
    as [x|e]; cbn [mbind result_bind]; [|done].
  destruct (if is_empty (subsets_symmetric_difference fa_a fa_b).2 then _ else _)
    as [y|e]; cbn [mbind result_bind]; [|done].
  by intros [= <-].
Qed.

Lemma row_columns_sum (row : list (Qc * Qc * Qc)) :
  Forall (λ w, w.2 = w.1.1 + w.1.2) row →
  (λ w, w.2) <$> row
  = zip_with Qcplus ((λ w, w.1.1) <$> row) ((λ w, w.1.2) <$> row).
Proof.
  induction 1 as [|w row Hw Hrow IH]; [done|].
  rewrite !fmap_cons. simpl. by rewrite Hw, IH.
Qed.

Lemma table_columns_sum (table : list (list (Qc * Qc * Qc))) :
  Forall (Forall (λ w, w.2 = w.1.1 + w.1.2)) table →
  (table_columns table).2
  = array_add (table_columns table).1.1 (table_columns table).1.2.
Proof.
  unfold table_columns, array_add. cbn [fst snd].
  induction 1 as [|row table Hrow Htable IH]; [done|].
  rewrite !fmap_cons. simpl. by rewrite IH, row_columns_sum.
Qed.

Lemma table_columns_shape {A} (P : A → list (Qc * Qc * Qc) → Prop)
    (rows : list A) (cols : nat) (table : list (list (Qc * Qc * Qc))) :
  Forall2 P rows table → Forall (λ row, length row = cols) table →
  shape (length rows) cols (table_columns table).1.1 ∧
  shape (length rows) cols (table_columns table).1.2 ∧
  shape (length rows) cols (table_columns table).2.
Proof.
  intros Hrows Hcols. apply Forall2_length in Hrows.
  unfold shape, table_columns. cbn [fst snd]. rewrite !length_fmap.
  repeat split; try done; apply Forall_fmap;
    (eapply list.Forall_impl; [exact Hcols|]); intros row Hrow; simpl;
    by rewrite length_fmap.
Qed.

(** X15: when __weight_sym_values returns, its three arrays are the first,
    second and third components of the triples weight_diff(fa_a, fa_b, eta,
    lam), one row per lambda and one column per eta in the order of the two
    lists, and the third array is the entrywise sum of the first two. *)
Theorem weight_sym_values_columns (alphabet : gset string)
    (solve : ndarray → list Qc → result (list Qc)) (limit : nat)
    (subsets_symmetric_difference :
       FiniteAutomata → FiniteAutomata → FiniteAutomata * FiniteAutomata)
    (is_empty : FiniteAutomata → bool)
    (fa_a fa_b : FiniteAutomata) (etas : list Z) (lams : list Qc)
    (res_a_sub_b res_b_sub_a res_w : ndarray) :
  __weight_sym_values alphabet solve limit subsets_symmetric_difference is_empty
    fa_a fa_b etas lams = Ok (res_a_sub_b, res_b_sub_a, res_w) →
  (∃ table,
     Forall2 (λ lam row,
         Forall2 (λ eta w,
             weight_diff alphabet solve limit subsets_symmetric_difference
               is_empty fa_a fa_b eta lam = Ok w) etas row) lams table ∧
     (res_a_sub_b, res_b_sub_a, res_w) = table_columns table) ∧
  shape (length lams) (length etas) res_a_sub_b ∧
  shape (length lams) (length etas) res_b_sub_a ∧
  shape (length lams) (length etas) res_w ∧
  res_w = array_add res_a_sub_b res_b_sub_a.
Proof.
  rewrite weight_sym_values_table_eq.
  destruct (map_result _ lams) as [table|e] eqn:Htable; [|done].
  rewrite bind_Ok. intros Hres.
  apply map_result_Forall2 in Htable.
  assert (Forall2 (λ lam row,
              Forall2 (λ eta w,
                  weight_diff alphabet solve limit subsets_symmetric_difference
                    is_empty fa_a fa_b eta lam = Ok w) etas row) lams table)
    as Hentries.
  { eapply list.Forall2_impl; [exact Htable|]. intros lam row Hrow.
    by apply map_result_Forall2. }
  assert (Forall (λ row, length row = length etas ∧
                         Forall (λ w, w.2 = w.1.1 + w.1.2) row) table) as Hrows.
  { apply list.Forall_forall. intros row Hrow.
    apply list_elem_of_lookup_1 in Hrow as [j Hj].
    destruct (Forall2_lookup_r _ _ _ _ _ Hentries Hj) as (lam & _ & Hlam).
    split.
    - symmetry. by eapply Forall2_length.
    - apply list.Forall_forall. intros w Hw.
      apply list_elem_of_lookup_1 in Hw as [i Hi].
      destruct (Forall2_lookup_r _ _ _ _ _ Hlam Hi) as (eta & _ & Heta).
      by eapply weight_diff_sum. }
  destruct (table_columns_shape _ lams (length etas) table Htable) as (Ha & Hb & Hw).
  { eapply list.Forall_impl; [exact Hrows|]. by intros row [? _]. }
  pose proof (table_columns_sum table) as Hsum.
  split; [exists table; split; [done|by injection Hres as <- <- <-]|].
  injection Hres as <- <- <-. unfold table_columns in *. cbn [fst snd] in *.
  split; [done|]. split; [done|]. split; [done|].
  apply Hsum. eapply list.Forall_impl; [exact Hrows|]. by intros row [_ ?].
Qed.

(** The sweep for [odd_b] against [accept_all] over [{a, b}], with the two
    automata themselves standing for the two differences. *)
Lemma weight_sym_values_columns_witness :
  ∃ res_a_sub_b res_b_sub_a res_w,
    __weight_sym_values ab np_linalg_solve 10 (λ a b, (a, b)) (λ _, false)
      odd_b (accept_all ab) [0%Z; 1%Z] [Q2Qc (1 # 2)]
    = Ok (res_a_sub_b, res_b_sub_a, res_w) ∧
    shape 1 2 res_w ∧ res_w = array_add res_a_sub_b res_b_sub_a.
Proof.
  destruct (__weight_sym_values ab np_linalg_solve 10 (λ a b, (a, b)) (λ _, false)
              odd_b (accept_all ab) [0%Z; 1%Z] [Q2Qc (1 # 2)])
    as [[[res_a_sub_b res_b_sub_a] res_w]|e] eqn:Hrun.
  - exists res_a_sub_b, res_b_sub_a, res_w. split; [done|].
    destruct (weight_sym_values_columns _ _ _ _ _ _ _ _ _ _ _ _ Hrun)
      as (_ & _ & _ & Hshape & Hsum).
    done.
  - exfalso. vm_compute in Hrun. discriminate Hrun.
Defined.

(** * Closed forms of the two estimator terms *)

(** The plateau unit times the number of words up to length [eta]. *)
Lemma plateau_unit_total (k : Z) (lam : Qc) (eta : Z) :
  (2 ≤ k)%Z → (0 ≤ eta)%Z →
  plateau_unit (Qc_of_Z k) lam eta
  * (1 + Qc_sum ((λ i, Qc_of_Z k ^ Z.to_nat i) <$> py_range 1 (eta + 1)))
  = 1 - lam ^ Z.to_nat (eta + 1).
Proof.
  intros Hk Heta. unfold py_range. rewrite (seqZ_of_nat 1).
  pose proof (geometric_count (Qc_of_Z k) (Z.to_nat (eta + 1 - 1))) as Hgeo.
  replace (S (Z.to_nat (eta + 1 - 1))) with (Z.to_nat (eta + 1)) in Hgeo by lia.
  set (S := Qc_sum _) in *.
  pose proof (one_minus_k_nonzero k Hk) as Hden.
  assert (Hnum : 1 - Qc_of_Z k ^ Z.to_nat (eta + 1) ≠ 0).
  { intros H0. apply (plateau_count_nonzero k (Z.to_nat (eta + 1))); [done|lia|].
    rewrite H0. unfold Qcdiv. ring. }
  unfold plateau_unit. rewrite <- Hgeo.
  assert (HS : 1 + S ≠ 0).
  { intros H0. apply Hnum. rewrite <- Hgeo, H0. ring. }
  field. done.
Qed.

Lemma plateau_unit_zero (k : Z) (lam : Qc) :
  (2 ≤ k)%Z → plateau_unit (Qc_of_Z k) lam 0 = 1 - lam.
Proof.
  intros Hk. pose proof (one_minus_k_nonzero k Hk) as Hden.
  unfold plateau_unit. change (Z.to_nat (0 + 1)) with 1%nat. simpl. field. done.
Qed.

Lemma Qcpower_succ_Z (lam : Qc) (i : Z) :
  (0 ≤ i)%Z → lam ^ Z.to_nat (i + 1) = lam * lam ^ Z.to_nat i.
Proof. intros Hi. replace (Z.to_nat (i + 1)) with (S (Z.to_nat i)) by lia. done. Qed.

(** The second estimator term of [weight] in terms of the shares. *)
Lemma correction_value (k : Z) (dfa : FiniteAutomata) (eta : Z) (lam : Qc) :
  (2 ≤ k)%Z → lam ≠ 0 →
  plateau_weight k dfa 0 lam + tail_sum k dfa 0 lam (eta + 1) * ((1 - lam) / lam)
  = (1 - lam)
    * ((if decide (get_initials dfa ## get_finals dfa) then 0 else 1)
       + Qc_sum ((λ i, Share k dfa i * lam ^ Z.to_nat i) <$> py_range 1 (eta + 1))).
Proof.
  intros Hk Hlam. unfold plateau_weight, tail_sum.
  rewrite plateau_unit_zero by done.
  change (py_range 1 (0 + 1)) with (@nil Z). change (0 + 1)%Z with 1%Z.
  rewrite fmap_nil. change (Qc_sum []) with 0.
  unfold py_range.
  rewrite (fmap_seqZ_ext (λ i, Share k dfa i * lam ^ Z.to_nat (i + 1))
             (λ i, lam * (Share k dfa i * lam ^ Z.to_nat i))).
  2:{ intros i Hi. rewrite Qcpower_succ_Z by lia. ring. }
  rewrite Qc_sum_scale.
  destruct (decide (get_initials dfa ## get_finals dfa)); field; done.
Qed.



(** * Automata that accept every word *)

Section Universal.

Variable k : Z.
Variable dfa : FiniteAutomata.
Hypothesis Hk : (2 ≤ k)%Z.
Hypothesis Hshares : ∀ i, (1 ≤ i)%Z → Share k dfa i = 1.
Hypothesis Hempty_word : ¬ get_initials dfa ## get_finals dfa.

Lemma universal_plateau (eta : Z) (lam : Qc) :
  (0 ≤ eta)%Z → plateau_weight k dfa eta lam = 1 - lam ^ Z.to_nat (eta + 1).
Proof using Hk Hshares Hempty_word.
  intros Heta. rewrite <- (plateau_unit_total k lam eta) by done.
  unfold plateau_weight.
  destruct (decide (get_initials dfa ## get_finals dfa)); [done|].
  unfold py_range.
  rewrite (fmap_seqZ_ext
             (λ i, plateau_unit (Qc_of_Z k) lam eta
                   * Qc_of_Z (py_round (Share k dfa i * Qc_of_Z k ^ Z.to_nat i)))
             (λ i, plateau_unit (Qc_of_Z k) lam eta * Qc_of_Z k ^ Z.to_nat i)).
  2:{ intros i Hi. rewrite Hshares by lia.
      by rewrite Qcmult_1_l, Qc_of_Z_pow, py_round_of_Z. }
  rewrite Qc_sum_scale. ring.
Qed.

Lemma universal_correction (eta : Z) (lam : Qc) :
  (0 ≤ eta)%Z → lam ≠ 0 →
  plateau_weight k dfa 0 lam + tail_sum k dfa 0 lam (eta + 1) * ((1 - lam) / lam)
  = 1 - lam ^ Z.to_nat (eta + 1).
Proof using Hk Hshares Hempty_word.
  intros Heta Hlam. rewrite correction_value by done.
  destruct (decide (get_initials dfa ## get_finals dfa)); [done|].
  unfold py_range.
  rewrite (fmap_seqZ_ext (λ i, Share k dfa i * lam ^ Z.to_nat i)
             (λ i, lam ^ Z.to_nat i)).
  2:{ intros i Hi. rewrite Hshares by lia. ring. }
  rewrite (seqZ_of_nat 1).
  pose proof (geometric_count lam (Z.to_nat (eta + 1 - 1))) as Hgeo.
  replace (S (Z.to_nat (eta + 1 - 1))) with (Z.to_nat (eta + 1)) in Hgeo by lia.
  rewrite <- Hgeo. ring.
Qed.

End Universal.

Lemma complete_Share (alphabet : gset string) (dfa : FiniteAutomata) (q0 : nat) (i : Z) :
  size alphabet ≠ 0%nat → deterministic alphabet dfa → total alphabet dfa →
  targets_in_range dfa → all_final dfa → get_initials dfa = {[ q0 ]} →
  (q0 < get_number_of_states dfa)%nat → (1 ≤ i)%Z →
  Share (len_alphabet alphabet) dfa i = 1.
Proof.
  intros Hk Hdet Htot Htargets Hall Hi Hq0 Hpos. unfold Share.
  replace (Z.to_nat i) with (S (Z.to_nat (i - 1))) by lia.
  apply (share_of_all_final _ _ q0); try done.
  - apply mat_power_stochastic; [apply one_step_square|].
    by apply (one_step_stochastic alphabet).
  - apply mat_power_square, one_step_square.
Qed.



(** * The estimator stays in the unit interval *)

Lemma py_round_bounds (x : Qc) (K : Z) :
  0 ≤ x → x ≤ Qc_of_Z K → (0 ≤ py_round x ≤ K)%Z.
Proof.
  intros H0 HK.
  assert (Hf0 : (0 ≤ Qfloor x)%Z).
  { change 0%Z with (Qfloor 0). apply Qfloor_resp_le. exact H0. }
  assert (HfK : (Qfloor x ≤ K)%Z).
  { rewrite <- (Qfloor_Z K). apply Qfloor_resp_le.
    exact HK. }
  unfold py_round. cbv zeta.
  destruct (decide (Qfloor x = K)) as [Heq|Hne].
  - assert (Qccompare (x - Qc_of_Z (Qfloor x)) (Q2Qc (1 # 2)) = Lt) as ->; [|lia].
    apply Qclt_alt. rewrite Heq. apply (Qcle_lt_trans _ 0); [|done].
    replace 0 with (Qc_of_Z K - Qc_of_Z K) by ring.
    apply Qcplus_le_compat; [done|apply Qcle_refl].
  - destruct (Qccompare _ _); [destruct (Z.even _)|..]; lia.
Qed.

Lemma Qc_sum_le {A} (f g : A → Qc) (l : list A) :
  (∀ x, x ∈ l → f x ≤ g x) → Qc_sum (f <$> l) ≤ Qc_sum (g <$> l).
Proof.
  induction l as [|x l IH]; intros Hfg; [apply Qcle_refl|].
  rewrite !fmap_cons, !Qc_sum_cons. apply Qcplus_le_compat.
  - apply Hfg. by left.
  - apply IH. intros y Hy. apply Hfg. by right.
Qed.

Lemma Qc_sum_fmap_nonneg {A} (f : A → Qc) (l : list A) :
  (∀ x, x ∈ l → 0 ≤ f x) → 0 ≤ Qc_sum (f <$> l).
Proof.
  intros Hf. apply Qc_sum_nonneg, Forall_fmap, list.Forall_forall. exact Hf.
Qed.

Lemma Qcpower_unit (x : Qc) (n : nat) : 0 ≤ x → x ≤ 1 → 0 ≤ x ^ n ≤ 1.
Proof.
  intros H0 H1. induction n as [|n [IH0 IH1]]; simpl.
  - done.
  - split; [by apply Qcmult_nonneg|].
    replace 1 with (1 * 1) by ring.
    etrans; [apply Qcmult_le_compat_r; [exact H1|exact IH0]|].
    rewrite Qcmult_1_l, Qcmult_1_r. exact IH1.
Qed.

Lemma Qcpower_nonneg (x : Qc) (n : nat) : 0 ≤ x → 0 ≤ x ^ n.
Proof.
  intros H0. induction n as [|n IH]; simpl; [done|]. by apply Qcmult_nonneg.
Qed.

(** lam^a (1 - lam) + ... + lam^(a+n-1) (1 - lam). *)
Lemma geometric_from (lam : Qc) (n : nat) (a : Z) :
  (0 ≤ a)%Z →
  Qc_sum ((λ i, lam ^ Z.to_nat i * (1 - lam)) <$> seqZ a (Z.of_nat n))
  = lam ^ Z.to_nat a - lam ^ (Z.to_nat a + n).
Proof.
  revert a. induction n as [|n IH]; intros a Ha.
  - change (seqZ a (Z.of_nat 0)) with (@nil Z). rewrite Nat.add_0_r.
    unfold Qc_sum. simpl. ring.
  - rewrite seqZ_S, fmap_cons, Qc_sum_cons, IH by lia.
    replace (Z.to_nat (a + 1)) with (S (Z.to_nat a)) by lia.
    replace (Z.to_nat a + S n)%nat with (S (Z.to_nat a + n)) by lia.
    simpl. ring.
Qed.

Lemma Share_unit (alphabet : gset string) (dfa : FiniteAutomata) (i : Z) :
  deterministic alphabet dfa → states_in_range dfa →
  (size (get_initials dfa) ≤ 1)%nat → (1 ≤ i)%Z →
  0 ≤ Share (len_alphabet alphabet) dfa i ≤ 1.
Proof.
  intros Hdet Hrange Hone Hi. unfold Share.
  pose proof (one_step_square (len_alphabet alphabet) dfa) as Hsq.
  replace (Z.to_nat i) with (S (Z.to_nat (i - 1))) by lia.
  destruct (share_of_bound dfa
    (mat_power (one_step (len_alphabet alphabet) dfa) (S (Z.to_nat (i - 1)))))
    as [H0 H1]; [| |done|].
  - by apply mat_power_square.
  - apply mat_power_substochastic; [apply Hsq|by apply one_step_substochastic].
  - split; [done|]. etrans; [exact H1|].
    rewrite <- Z2Qc_inj_1. apply (proj1 (Z2Qc_inj_le _ _)). lia.
Qed.

Section Bounds.

Variable alphabet : gset string.
Variable dfa : FiniteAutomata.
Variable lam : Qc.
Hypothesis Hk : (2 ≤ size alphabet)%nat.
Hypothesis Hdet : deterministic alphabet dfa.
Hypothesis Hrange : states_in_range dfa.
Hypothesis Hone : (size (get_initials dfa) ≤ 1)%nat.
Hypothesis Hlam0 : 0 < lam.
Hypothesis Hlam1 : lam ≤ 1.

Let k : Z := len_alphabet alphabet.

Lemma k_power_nonneg (n : nat) : 0 ≤ Qc_of_Z k ^ n.
Proof using Hk Hdet Hrange Hone Hlam0 Hlam1.
  apply Qcpower_nonneg. rewrite <- Z2Qc_inj_0.
  apply (proj1 (Z2Qc_inj_le _ _)). unfold k, len_alphabet. lia.
Qed.

(** The number of accepted words of length [i] the plateau counts lies
    between 0 and the number of all words of that length. *)
Lemma rounded_count_bounds (i : Z) :
  (1 ≤ i)%Z →
  0 ≤ Qc_of_Z (py_round (Share k dfa i * Qc_of_Z k ^ Z.to_nat i))
  ∧ Qc_of_Z (py_round (Share k dfa i * Qc_of_Z k ^ Z.to_nat i))
    ≤ Qc_of_Z k ^ Z.to_nat i.
Proof using Hk Hdet Hrange Hone Hlam0 Hlam1.
  intros Hi.
  destruct (Share_unit alphabet dfa i Hdet Hrange Hone Hi) as [Hs0 Hs1].
  fold k in Hs0, Hs1.
  pose proof (k_power_nonneg (Z.to_nat i)) as Hp.
  pose proof (Qc_of_Z_pow k (Z.to_nat i)) as Hpow.
  set (P := Qc_of_Z k ^ Z.to_nat i) in *.
  destruct (py_round_bounds (Share k dfa i * P) (k ^ Z.of_nat (Z.to_nat i)))
    as [Hr0 Hr1].
  - by apply Qcmult_nonneg.
  - rewrite <- Hpow.
    etrans; [apply Qcmult_le_compat_r; [exact Hs1|exact Hp]|].
    rewrite Qcmult_1_l. apply Qcle_refl.
  - split.
    + rewrite <- Z2Qc_inj_0. by apply (proj1 (Z2Qc_inj_le _ _)).
    + apply (Qcle_trans _ (Qc_of_Z (k ^ Z.of_nat (Z.to_nat i)))).
      * by apply (proj1 (Z2Qc_inj_le _ _)).
      * rewrite <- Hpow. apply Qcle_refl.
Qed.

Lemma plateau_unit_nonneg (eta : Z) :
  (0 ≤ eta)%Z → 0 ≤ plateau_unit (Qc_of_Z k) lam eta.
Proof using Hk Hdet Hrange Hone Hlam0 Hlam1.
  intros Heta.
  assert (Hkz : (2 ≤ k)%Z) by (unfold k, len_alphabet; lia).
  pose proof (plateau_unit_total k lam eta Hkz Heta) as Htotal.
  set (C := 1 + Qc_sum _) in Htotal.
  assert (HC : 0 < C).
  { apply (Qclt_le_trans _ 1); [done|]. unfold C.
    rewrite <- (Qcplus_0_r 1) at 1. apply Qcplus_le_compat; [apply Qcle_refl|].
    apply Qc_sum_fmap_nonneg. intros i _. apply k_power_nonneg. }
  apply (Qcmult_lt_0_le_reg_r _ _ C HC). rewrite Qcmult_0_l, Htotal.
  destruct (Qcpower_unit lam (Z.to_nat (eta + 1))) as [_ Hp1];
    [by apply Qclt_le_weak|done|].
  by apply (proj1 (Qcle_minus_iff _ _)).
Qed.

Lemma plateau_bounds (eta : Z) :
  (0 ≤ eta)%Z →
  0 ≤ plateau_weight k dfa eta lam ∧
  plateau_weight k dfa eta lam ≤ 1 - lam ^ Z.to_nat (eta + 1).
Proof using Hk Hdet Hrange Hone Hlam0 Hlam1.
  intros Heta.
  assert (Hkz : (2 ≤ k)%Z) by (unfold k, len_alphabet; lia).
  pose proof (plateau_unit_nonneg eta Heta) as Hu.
  rewrite <- (plateau_unit_total k lam eta Hkz Heta).
  unfold plateau_weight. cbv zeta.
  set (u := plateau_unit (Qc_of_Z k) lam eta) in *.
  assert (Hin : ∀ i, i ∈ py_range 1 (eta + 1) → (1 ≤ i)%Z).
  { intros i Hi. unfold py_range in Hi. apply elem_of_seqZ in Hi. lia. }
  split.
  - rewrite <- (Qcplus_0_r 0). apply Qcplus_le_compat.
    + by destruct (decide _).
    + apply Qc_sum_fmap_nonneg. intros i Hi.
      apply Qcmult_nonneg; [done|]. by apply rounded_count_bounds, Hin.
  - rewrite Qcmult_plus_distr_r, Qcmult_1_r, <- Qc_sum_scale.
    apply Qcplus_le_compat.
    + destruct (decide _); [done|apply Qcle_refl].
    + apply Qc_sum_le. intros i Hi. rewrite !(Qcmult_comm u).
      apply Qcmult_le_compat_r; [|done]. by apply rounded_count_bounds, Hin.
Qed.

Lemma tail_bounds (eta up_to : Z) :
  (0 ≤ eta)%Z →
  0 ≤ tail_sum k dfa eta lam up_to * ((1 - lam) / lam) ∧
  tail_sum k dfa eta lam up_to * ((1 - lam) / lam)
  ≤ lam ^ Z.to_nat (eta + 1)
    - lam ^ (Z.to_nat (eta + 1) + Z.to_nat (up_to - (eta + 1))).
Proof using Hk Hdet Hrange Hone Hlam0 Hlam1.
  intros Heta.
  assert (Hne : lam ≠ 0) by (intros ->; by apply (Qclt_not_eq 0 0)).
  assert (H1lam : 0 ≤ 1 - lam) by by apply (proj1 (Qcle_minus_iff _ _)).
  assert (Hlam : 0 ≤ lam) by by apply Qclt_le_weak.
  unfold tail_sum, py_range.
  rewrite (seqZ_of_nat (eta + 1)).
  set (n := Z.to_nat (up_to - (eta + 1))).
  assert (Hin : ∀ i, i ∈ seqZ (eta + 1) (Z.of_nat n) → (1 ≤ i)%Z).
  { intros i Hi. apply elem_of_seqZ in Hi. lia. }
  rewrite (Qcmult_comm _ ((1 - lam) / lam)), <- Qc_sum_scale.
  assert (Hterm : ∀ i, (1 ≤ i)%Z →
            (1 - lam) / lam * (Share k dfa i * lam ^ Z.to_nat (i + 1))
            = Share k dfa i * (lam ^ Z.to_nat i * (1 - lam))).
  { intros i Hi. rewrite Qcpower_succ_Z by lia. field. done. }
  split.
  - apply Qc_sum_fmap_nonneg. intros i Hi. rewrite Hterm by by apply Hin.
    destruct (Share_unit alphabet dfa i Hdet Hrange Hone (Hin i Hi)) as [Hs0 _].
    apply Qcmult_nonneg; [done|].
    apply Qcmult_nonneg; [by apply Qcpower_nonneg|done].
  - etrans.
    + apply (Qc_sum_le _ (λ i, lam ^ Z.to_nat i * (1 - lam))). intros i Hi.
      rewrite Hterm by by apply Hin.
      destruct (Share_unit alphabet dfa i Hdet Hrange Hone (Hin i Hi)) as [_ Hs1].
      rewrite <- (Qcmult_1_l (lam ^ Z.to_nat i * (1 - lam))) at 2.
      apply Qcmult_le_compat_r; [done|].
      apply Qcmult_nonneg; [by apply Qcpower_nonneg|done].
    + rewrite geometric_from by lia. apply Qcle_refl.
Qed.

Lemma tail_le (eta up_to : Z) :
  (0 ≤ eta)%Z →
  tail_sum k dfa eta lam up_to * ((1 - lam) / lam) ≤ lam ^ Z.to_nat (eta + 1).
Proof using Hk Hdet Hrange Hone Hlam0 Hlam1.
  intros Heta. destruct (tail_bounds eta up_to Heta) as [_ Ht].
  etrans; [exact Ht|].
  rewrite <- (Qcplus_0_r (lam ^ Z.to_nat (eta + 1))) at 2.
  apply Qcplus_le_compat; [apply Qcle_refl|].
  change 0 with (- 0). apply Qcopp_le_compat.
  apply Qcpower_nonneg. by apply Qclt_le_weak.
Qed.

End Bounds.



(** * How far the hybrid moves the exact weight *)



(** * The recursion limit never matters to [weight] *)

Lemma get_matrix_two_limits (d1 d2 : nat) (m : ndarray) (top i : Z) (self : Matrix)
    (t : list event) :
  (1 ≤ top)%Z → cache_upto m top self → (1 ≤ i ≤ top + 1)%Z →
  get_matrix d1 i (self, t) = get_matrix d2 i (self, t).
Proof.
  intros Htop Hc Hi. destruct (decide (i ≤ top)%Z) as [Hle|Hgt].
  - assert (matrices self !! i = Some (mat_power m (Z.to_nat i))) as Hl
      by (apply (cache_upto_lookup m top); [done|lia]).
    by rewrite !(get_matrix_hit _ _ _ _ _ Hl).
  - assert (matrices self !! i = None) as Hn
      by (apply (cache_upto_above m top); [done|lia]).
    assert (matrices self !! (i - 1)%Z = Some (mat_power m (Z.to_nat (i - 1)))) as Hb
      by (apply (cache_upto_lookup m top); [done|lia]).
    assert (matrices self !! 1%Z = Some (mat_power m (Z.to_nat 1))) as Hf
      by (apply (cache_upto_lookup m top); [done|lia]).
    by rewrite !(get_matrix_extend _ _ _ _ _ _ Hn Hb Hf).
Qed.

Lemma get_share_two_limits (l1 l2 : nat) (m : ndarray) (top i : Z) (self : Matrix)
    (t : list event) :
  (1 ≤ top)%Z → cache_upto m top self → (i ≤ top + 1)%Z →
  get_share l1 i (self, t) = get_share l2 i (self, t).
Proof.
  intros Htop Hc Hi. destruct (decide (i < 1)%Z) as [Hlt|Hge].
  - by rewrite !get_share_below.
  - unfold get_share.
    unfold mbind at 1 5. unfold M_bind at 1 5. unfold observe. cbv beta iota.
    destruct (decide (i < 1)%Z); [lia|]. cbn [fst snd].
    unfold mbind at 1 4. unfold M_bind at 1 4.
    by rewrite (get_matrix_two_limits l1 l2 m top i self) by (done || lia).
Qed.

Lemma share_round_two_limits {A} (l1 l2 : nat) (p : result A) (h : Qc → A → Qc)
    (i : Z) (st : state) :
  ∃ g : Qc → result Qc,
    (get_share l1 i ≫= λ share, lift p ≫= λ x, mret (h share x)) st
    = match get_share l1 i st with
      | (Ok v, st') => (g v, st')
      | (Raise e, st') => (Raise e, st')
      end ∧
    (get_share l2 i ≫= λ share, lift p ≫= λ x, mret (h share x)) st
    = match get_share l2 i st with
      | (Ok v, st') => (g v, st')
      | (Raise e, st') => (Raise e, st')
      end.
Proof.
  exists (λ v, p ≫= λ x, Ok (h v x)). split.
  - unfold mbind at 1, M_bind at 1.
    destruct (get_share l1 i st) as [[v|e] st']; [|done]. by destruct p.
  - unfold mbind at 1, M_bind at 1.
    destruct (get_share l2 i st) as [[v|e] st']; [|done]. by destruct p.
Qed.

(** Two loops that differ only in the recursion limit handed to [get_share],
    run over ascending lengths from at most the next missing one. *)
Lemma for_each_two_limits (l1 l2 : nat) (m : ndarray)
    (body1 body2 : Z → Qc → M Qc) (len : nat) :
  (∀ i w st, ∃ g : Qc → result Qc,
      body1 i w st = match get_share l1 i st with
                     | (Ok v, st') => (g v, st')
                     | (Raise e, st') => (Raise e, st')
                     end ∧
      body2 i w st = match get_share l2 i st with
                     | (Ok v, st') => (g v, st')
                     | (Raise e, st') => (Raise e, st')
                     end) →
  ∀ (a top : Z) (self : Matrix) (t : list event) (w : Qc),
    (1 ≤ top)%Z → (a ≤ top + 1)%Z → cache_upto m top self →
    for_each (seqZ a (Z.of_nat len)) body2 w (self, t)
    = for_each (seqZ a (Z.of_nat len)) body1 w (self, t) ∧
    ∀ v st', for_each (seqZ a (Z.of_nat len)) body1 w (self, t) = (Ok v, st') →
             cache_upto m (Z.max top (a + Z.of_nat len - 1)) st'.1.
Proof.
  intros Hbody. induction len as [|len IH]; intros a top self t w Htop Ha Hc.
  - split; [done|]. simpl. intros v st' [= <- <-]. simpl.
    by replace (Z.max top (a + Z.of_nat 0 - 1)) with top by lia.
  - rewrite seqZ_S. cbn [for_each].
    destruct (Hbody a w (self, t)) as (g & H1 & H2).
    destruct (get_share_log l1 m top a self t Htop Hc Ha)
      as (r1 & self1 & Hrun & Hfa1 & Hc1).
    rewrite <- (get_share_two_limits l1 l2 m top a self t Htop Hc Ha) in H2.
    rewrite Hrun in H1, H2.
    unfold mbind, M_bind. rewrite H1, H2.
    destruct r1 as [v1|e]; [|done].
    destruct (g v1) as [w'|e]; [|done].
    destruct (IH (a + 1)%Z (Z.max top a) self1 (t ++ asked_log top [a]) w')
      as [Heq Hinv]; [lia|lia|done|].
    split; [exact Heq|].
    intros v st' Hv. specialize (Hinv v st' Hv).
    by replace (Z.max top (a + Z.of_nat (S len) - 1))
      with (Z.max (Z.max top a) (a + 1 + Z.of_nat len - 1)) by lia.
Qed.

Lemma weight_with_matrix_body_two_limits (alphabet : gset string) (l1 l2 : nat)
    (dfa : FiniteAutomata) (eta : Z) (lam : Qc) (up_to : Z)
    (m : ndarray) (self : Matrix) :
  cache_upto m 1 self →
  (weight_with_matrix_body alphabet l2 dfa eta lam up_to (self, [])).1
  = (weight_with_matrix_body alphabet l1 dfa eta lam up_to (self, [])).1.
Proof.
  intros Hc. unfold weight_with_matrix_body.
  set (k := Qc_of_Z (len_alphabet alphabet)).
  destruct (py_pow k (eta + 1)) as [k_pow|e]; [|done].
  rewrite !M_bind_lift.
  destruct (py_div (1 - k_pow) (1 - k)) as [max_words|e]; [|done].
  rewrite !M_bind_lift.
  destruct (py_pow lam (eta + 1)) as [lam_pow|e]; [|done].
  rewrite !M_bind_lift.
  destruct (py_div (1 - lam_pow) max_words) as [u|e]; [|done].
  rewrite !M_bind_lift.
  set (w0 := if decide (get_initials dfa ## get_finals dfa) then 0 else 0 + u).
  unfold py_range. rewrite (seqZ_of_nat 1), (seqZ_of_nat (eta + 1)).
  set (len1 := Z.to_nat (eta + 1 - 1)).
  set (len2 := Z.to_nat (up_to - (eta + 1))).
  destruct (for_each_two_limits l1 l2 m
              (λ i w, share ← get_share l1 i;
                      k_i ← lift (py_pow k i);
                      mret (w + u * Qc_of_Z (py_round (share * k_i))))
              (λ i w, share ← get_share l2 i;
                      k_i ← lift (py_pow k i);
                      mret (w + u * Qc_of_Z (py_round (share * k_i))))
              len1) with (a := 1%Z) (top := 1%Z) (self := self) (t := @nil event)
              (w := w0) as [Heq1 Hinv1]; [|lia|lia|done|].
  { intros i w st.
    apply (share_round_two_limits l1 l2 (py_pow k i)
             (λ share k_i, w + u * Qc_of_Z (py_round (share * k_i)))). }
  unfold mbind at 1. unfold M_bind at 1.
  unfold mbind at 7. unfold M_bind at 7.
  rewrite Heq1. clear Heq1.
  destruct (for_each (seqZ 1 (Z.of_nat len1)) _ w0 (self, []))
    as [[w1|e] [self1 t1]] eqn:Hloop1; [|done].
  specialize (Hinv1 w1 (self1, t1) eq_refl). simpl in Hinv1.
  destruct (for_each_two_limits l1 l2 m
              (λ i weight_ex_part, share ← get_share l1 i;
                      lam_i ← lift (py_pow lam (i + 1));
                      mret (weight_ex_part + share * lam_i))
              (λ i weight_ex_part, share ← get_share l2 i;
                      lam_i ← lift (py_pow lam (i + 1));
                      mret (weight_ex_part + share * lam_i))
              len2) with (a := (eta + 1)%Z) (top := Z.max 1 (1 + Z.of_nat len1 - 1))
              (self := self1) (t := t1) (w := 0) as [Heq2 _]; [|lia|lia|done|].
  { intros i w st.
    apply (share_round_two_limits l1 l2 (py_pow lam (i + 1))
             (λ share lam_i, w + share * lam_i)). }
  unfold mbind at 1. unfold M_bind at 1.
  unfold mbind at 4. unfold M_bind at 4.
  rewrite Heq2. done.
Qed.

(** X20: the outcome of __weight_with_matrix and of weight, value or
    exception, is the same under every recursion limit, for all arguments:
    the loops ask the cache for a cached length or the next one only, so
    get_matrix never reaches its recursive branch. *)
Theorem recursion_limit_irrelevant (alphabet : gset string)
    (solve : ndarray → list Qc → result (list Qc)) (l1 l2 : nat)
    (dfa : FiniteAutomata) (eta : Z) (lam : Qc) (up_to : Z) :
  __weight_with_matrix alphabet l2 dfa eta lam up_to
  = __weight_with_matrix alphabet l1 dfa eta lam up_to ∧
  weight alphabet solve l2 dfa eta lam = weight alphabet solve l1 dfa eta lam.
Proof.
  assert (∀ eta' up_to',
            __weight_with_matrix alphabet l2 dfa eta' lam up_to'
            = __weight_with_matrix alphabet l1 dfa eta' lam up_to') as Hsame.
  { intros eta' up_to'. unfold __weight_with_matrix, weight_with_matrix_run.
    destruct (Matrix_init alphabet dfa) as [matrix|e] eqn:Hinit; [|done].
    cbn [fst].
    unfold Matrix_init in Hinit.
    destruct (__initial_matrix dfa _ _) as [m|e]; [|done].
    injection Hinit as <-.
    by apply (weight_with_matrix_body_two_limits alphabet l1 l2 dfa eta' lam up_to' m),
             cache_upto_fresh. }
  split; [apply Hsame|]. unfold weight. by rewrite !Hsame.
Qed.
